(** * R2C Jobsheet API client: token lifecycle and request dispatch

    A shallow embedding of [src/index.ts] (the [R2CClient] constructor) and
    of the API module it extends ([R2CError], [APIClient]): credential
    validation, the OAuth token cache with its in-flight refresh handle,
    request construction and response parsing.

    Conventions.
    - A JavaScript [number] is modelled by an integer [n : Z], which stands
      for the number value of the decimal literal [n]: [n] itself up to 2^53
      in magnitude, the nearest double beyond. Fractional values and [NaN]
      are not modelled. The times that the client computes with ([Date.now()],
      [expires_in], the expiry) are computed exactly; this is what the code
      computes as long as the sums stay below 2^53 milliseconds, which is
      beyond the range of [Date].
    - A JavaScript string is a [string] of bytes, UTF-8 for a text that is
      not ASCII; [undefined] and [null] in an optional position are [None].
    - An object is the list of its own properties in the order in which the
      language enumerates them.
    - The injected transport [fetch] is the environment: the model records
      every call made to it and receives its answers as events. The body
      readers of a response, and the transport in the events of the token
      flow, fail with exceptions of their own and not with an [R2CError],
      which is what the client builds. *)

From Stdlib Require Import ZArith String Ascii List Bool Lia.
From stdpp Require Import base list strings pretty.

Open Scope Z_scope.

(** ** JavaScript values *)

(** Values that [JSON.stringify] can serialise; the request body of
    [makeRequest] has type [unknown] and is modelled by these. *)
#[local] Unset Elimination Schemes.
Inductive JSON : Type :=
| JNull
| JBool (b : bool)
| JNum (n : Z)
| JStr (s : string)
| JArr (xs : list JSON)
| JObj (fields : list (string * JSON)).
#[local] Set Elimination Schemes.

(** ECMAScript [ToBoolean] on a value that is present. *)
Definition truthy (v : JSON) : bool :=
  match v with
  | JNull => false
  | JBool b => b
  | JNum n => negb (n =? 0)
  | JStr s => negb (String.eqb s "")
  | JArr _ => true
  | JObj _ => true
  end.

(** [ToBoolean] on an optional position: [undefined] is falsy. *)
Definition js_truthy (v : option JSON) : bool :=
  match v with
  | None => false
  | Some x => truthy x
  end.

(** Truthiness of an optional string ([undefined], [null] and [''] are falsy). *)
Definition str_truthy (s : option string) : bool :=
  match s with
  | None => false
  | Some x => negb (String.eqb x "")
  end.

(** Truthiness of an optional number ([undefined], [null] and [0] are falsy). *)
Definition num_truthy (n : option Z) : bool :=
  match n with
  | None => false
  | Some x => negb (x =? 0)
  end.

(** [a || b] on optional strings. *)
Definition str_or (a : option string) (b : string) : string :=
  match a with
  | Some x => if String.eqb x "" then b else x
  | None => b
  end.

(** *** Printing of numbers

    [Number::toString] on the number that an integer denotes. Up to 2^53 in
    magnitude the number is the integer and prints as its decimal numeral.
    A larger integer denotes the nearest double (ties to the even one),
    which prints with the fewest significant digits that still round to it,
    padded with zeros up to 21 digits and in exponent form beyond; from
    [double_overflow] on it denotes an infinity. *)

(** [x > 0] rounded to the nearest number with 53 significant bits. *)
Definition round_double (x : Z) : Z :=
  let e := Z.log2 x - 52 in
  if e <=? 0 then x
  else
    let q := Z.shiftr x e in
    let rest := x - Z.shiftl q e in
    let half := Z.shiftl 1 (e - 1) in
    Z.shiftl (if (half <? rest) || ((rest =? half) && Z.odd q) then q + 1 else q) e.

(** The first integer that rounds to infinity. *)
Definition double_overflow : Z := 2 ^ 1024 - 2 ^ 970.

(** Whether the integer [v] rounds to the double [x], for [x] from 2^53 on:
    [v] lies between the midpoints to the neighbours of [x], the midpoints
    included when the significand of [x] is even. *)
Definition rounds_to (x v : Z) : bool :=
  let e := Z.log2 x - 52 in
  let below := if x =? Z.shiftl 1 (Z.log2 x) then Z.shiftl 1 (e - 1) else Z.shiftl 1 e in
  let lo := 2 * x - below in
  let hi := 2 * x + Z.shiftl 1 e in
  if Z.even (Z.shiftr x e)
  then (lo <=? 2 * v) && (2 * v <=? hi)
  else (lo <? 2 * v) && (2 * v <? hi).

(** The integer with the fewest significant digits that rounds to the
    double [x]; of two with the same number of digits, the nearer one.
    [k] is the number of significant digits tried, [digits] the number of
    digits of [x]. *)
Fixpoint shortest_decimal (fuel : nat) (digits k x : Z) : Z :=
  match fuel with
  | O => x
  | S fuel' =>
      let unit := 10 ^ (digits - k) in
      let v1 := x / unit * unit in
      let v2 := v1 + unit in
      match rounds_to x v1, rounds_to x v2 with
      | true, true =>
          if (x - v1 <? v2 - x) || ((x - v1 =? v2 - x) && Z.even (v1 / unit)) then v1 else v2
      | true, false => v1
      | false, true => v2
      | false, false => shortest_decimal fuel' digits (k + 1) x
      end
  end.

Fixpoint strip_zeros (fuel : nat) (v : Z) : Z :=
  match fuel with
  | O => v
  | S fuel' => if v mod 10 =? 0 then strip_zeros fuel' (v / 10) else v
  end.

Definition positive_toString (x : Z) : string :=
  if x <? 2 ^ 53 then pretty x
  else
    let digits := Z.of_nat (String.length (pretty x)) in
    let v := shortest_decimal 17 digits 1 x in
    let n := Z.of_nat (String.length (pretty v)) in
    if n <=? 21 then pretty v
    else
      match pretty (strip_zeros (Z.to_nat n) v) with
      | String d EmptyString => String d ("e+" +:+ pretty (n - 1))
      | String d rest => String d ("." +:+ rest +:+ "e+" +:+ pretty (n - 1))
      | EmptyString => EmptyString
      end.

(** [String(n)] and [`${n}`]. *)
Definition String_of_number (n : Z) : string :=
  if n =? 0 then "0"
  else if double_overflow <=? Z.abs n then (if n <? 0 then "-Infinity" else "Infinity")
  else (if n <? 0 then "-" else "") +:+ positive_toString (round_double (Z.abs n)).

Definition dquote : ascii := "034"%char.

Definition hex_lower (n : N) : ascii :=
  match String.get (N.to_nat n) "0123456789abcdef" with
  | Some c => c
  | None => "0"%char
  end.

Definition hex_upper (n : N) : ascii :=
  match String.get (N.to_nat n) "0123456789ABCDEF" with
  | Some c => c
  | None => "0"%char
  end.

Definition str1 (c : ascii) : string := String c EmptyString.

(** [QuoteJSONString], one character. *)
Definition JSON_escape_char (c : ascii) : string :=
  let n := N_of_ascii c in
  if (n =? 34)%N then "\" +:+ str1 dquote
  else if (n =? 92)%N then "\\"
  else if (n =? 8)%N then "\b"
  else if (n =? 12)%N then "\f"
  else if (n =? 10)%N then "\n"
  else if (n =? 13)%N then "\r"
  else if (n =? 9)%N then "\t"
  else if (n <? 32)%N then
    "\u00" +:+ str1 (hex_lower (n / 16)) +:+ str1 (hex_lower (n mod 16))
  else str1 c.

Fixpoint JSON_escape (s : string) : string :=
  match s with
  | EmptyString => EmptyString
  | String c rest => JSON_escape_char c +:+ JSON_escape rest
  end.

Definition JSON_quote (s : string) : string :=
  str1 dquote +:+ JSON_escape s +:+ str1 dquote.

Fixpoint join (sep : string) (parts : list string) : string :=
  match parts with
  | [] => EmptyString
  | [p] => p
  | p :: rest => p +:+ sep +:+ join sep rest
  end.

(** [JSON.stringify(v)] without indentation. *)
Fixpoint JSON_stringify (v : JSON) : string :=
  match v with
  | JNull => "null"
  | JBool true => "true"
  | JBool false => "false"
  | JNum n => if double_overflow <=? Z.abs n then "null" else String_of_number n
  | JStr s => JSON_quote s
  | JArr xs => "[" +:+ join "," (List.map JSON_stringify xs) +:+ "]"
  | JObj fields =>
      "{" +:+
      join "," (List.map (fun kv => JSON_quote (fst kv) +:+ ":" +:+ JSON_stringify (snd kv))
                         fields)
      +:+ "}"
  end.

(** ** URLSearchParams *)

(** Bytes that the [application/x-www-form-urlencoded] serialiser leaves as
    they are: ASCII letters and digits and the four marks [* - . _]. *)
Definition urlencoded_safe (c : ascii) : bool :=
  let n := N_of_ascii c in
  ((48 <=? n) && (n <=? 57) || (65 <=? n) && (n <=? 90) || (97 <=? n) && (n <=? 122)
   || (n =? 42) || (n =? 45) || (n =? 46) || (n =? 95))%N.

Definition urlencode_char (c : ascii) : string :=
  let n := N_of_ascii c in
  if urlencoded_safe c then str1 c
  else if (n =? 32)%N then "+"
  else "%" +:+ str1 (hex_upper (n / 16)) +:+ str1 (hex_upper (n mod 16)).

Fixpoint urlencode (s : string) : string :=
  match s with
  | EmptyString => EmptyString
  | String c rest => urlencode_char c +:+ urlencode rest
  end.

(** A [URLSearchParams] object is its list of name/value pairs, in insertion
    order. *)
Definition URLSearchParams : Type := list (string * string).

Definition URLSearchParams_toString (ps : URLSearchParams) : string :=
  join "&" (List.map (fun kv => urlencode (fst kv) +:+ "=" +:+ urlencode (snd kv)) ps).

(** [String(v)] as [makeRequest] applies it to a query value. Elements of an
    array that are [null] print as the empty string ([Array.prototype.join]). *)
Fixpoint String_of_JSON (v : JSON) : string :=
  match v with
  | JNull => "null"
  | JBool true => "true"
  | JBool false => "false"
  | JNum n => String_of_number n
  | JStr s => s
  | JArr xs =>
      join "," (List.map (fun x => match x with
                                   | JNull => EmptyString
                                   | _ => String_of_JSON x
                                   end) xs)
  | JObj _ => "[object Object]"
  end.

(** ** Plain objects used as string records *)

(** A [Record<string, string>]: its own keys in the order in which the
    language lists them, no key twice. Array indices, the canonical
    numerals of the integers from 0 to 2^32 - 2, come first in ascending
    order; the other keys follow in the order of their creation. *)
Definition StrRecord : Type := list (string * string).

Definition digit_value (c : ascii) : option N :=
  let n := N_of_ascii c in
  if ((48 <=? n) && (n <=? 57))%N then Some (n - 48)%N else None.

Fixpoint digits_value (acc : N) (s : string) : option N :=
  match s with
  | EmptyString => Some acc
  | String c rest =>
      match digit_value c with
      | Some d => digits_value (acc * 10 + d)%N rest
      | None => None
      end
  end.

Definition array_index (k : string) : option N :=
  match k with
  | EmptyString => None
  | String c rest =>
      if Ascii.eqb c "0" && negb (String.eqb rest "") then None
      else match digits_value 0 k with
           | Some n => if (n <=? 4294967294)%N then Some n else None
           | None => None
           end
  end.

(** Whether a new key [k] is listed before the existing key [k']. *)
Definition key_before (k k' : string) : bool :=
  match array_index k, array_index k' with
  | Some i, Some j => (i <? j)%N
  | Some _, None => true
  | None, _ => false
  end.

Definition record_has (k : string) (o : StrRecord) : bool :=
  existsb (fun kv => String.eqb k (fst kv)) o.

(** [o[k] = v] for a key that exists: the value changes, the place does not. *)
Fixpoint record_update (k v : string) (o : StrRecord) : StrRecord :=
  match o with
  | [] => []
  | (k', v') :: rest =>
      if String.eqb k k' then (k', v) :: rest else (k', v') :: record_update k v rest
  end.

(** [o[k] = v] for a new key. *)
Fixpoint record_insert (k v : string) (o : StrRecord) : StrRecord :=
  match o with
  | [] => [(k, v)]
  | (k', v') :: rest =>
      if key_before k k' then (k, v) :: o else (k', v') :: record_insert k v rest
  end.

(** [o[k] = v]. *)
Definition record_set (k v : string) (o : StrRecord) : StrRecord :=
  if record_has k o then record_update k v o else record_insert k v o.

(** [{...a, ...b}]. *)
Definition spread (a b : StrRecord) : StrRecord :=
  fold_left (fun acc kv => record_set (fst kv) (snd kv) acc) b a.

Fixpoint record_get (k : string) (o : StrRecord) : option string :=
  match o with
  | [] => None
  | (k', v) :: rest => if String.eqb k k' then Some v else record_get k rest
  end.

(** ** Fetch API objects *)

Definition lower_char (c : ascii) : ascii :=
  let n := N_of_ascii c in
  if ((65 <=? n) && (n <=? 90))%N then ascii_of_N (n + 32) else c.

Fixpoint lower (s : string) : string :=
  match s with
  | EmptyString => EmptyString
  | String c rest => String (lower_char c) (lower rest)
  end.

(** A [Headers] object: its header list. *)
Definition Headers : Type := list (string * string).

(** [headers.get(name)]: names compare without regard to case, the values of
    all matching entries are joined with a comma and a space, and [null] is
    returned when nothing matches. *)
Definition Headers_get (name : string) (h : Headers) : option string :=
  match List.filter (fun kv => String.eqb (lower (fst kv)) (lower name)) h with
  | [] => None
  | found => Some (join ", " (List.map snd found))
  end.

(** [s.includes(sub)]. *)
Fixpoint includes (sub s : string) : bool :=
  String.prefix sub s ||
  match s with
  | EmptyString => false
  | String _ rest => includes sub rest
  end.

(** How the promise of a body reader, [response.text()] or
    [response.json()], settles: it fulfils with the decoded body, or it
    rejects with an exception of the platform (a body that cannot be read or
    was read before, a body that is not JSON). *)
Inductive Reading (A : Type) : Type :=
| Read (a : A)
| ReadError (what : string).
Arguments Read {A}.
Arguments ReadError {A}.

(** A [Response], as far as the client reads it. [text] is how
    [response.text()] settles; [json] is how [response.json()] settles, its
    value viewed at the type [T] the caller casts it to. *)
Record Response (T : Type) : Type := mkResponse {
  ok : bool;
  status : Z;
  statusText : string;
  headers : Headers;
  text : Reading string;
  json : Reading T;
}.
Arguments mkResponse {T}.
Arguments ok {T}.
Arguments status {T}.
Arguments statusText {T}.
Arguments headers {T}.
Arguments text {T}.
Arguments json {T}.

(** The platform sets [ok] for statuses 200 to 299. *)
Definition status_2xx (st : Z) : bool := (200 <=? st) && (st <=? 299).

Definition Response_wf {T} (r : Response T) : Prop := ok r = status_2xx (status r).

(** What the code passes to [fetch(url, init)]. [init_other_members] stands for the
    members of [RequestInit] that the client neither reads nor writes. *)
Record Request : Type := mkRequest {
  url : string;
  method : option string;
  req_headers : StrRecord;
  req_body : option string;
  init_other_members : list (string * string);
}.

(** ** Errors *)

(** [class R2CError extends Error]. *)
Record R2CError : Type := mkR2CError {
  message : string;
  err_status : option Z;
  err_headers : option Headers;
  error : option string;
}.

(** [new R2CError(message)]. *)
Definition R2CError_msg (m : string) : R2CError :=
  {| message := m; err_status := None; err_headers := None; error := None |}.

(** Anything a promise can reject with: an [R2CError] built by the client, or
    an exception of the platform or the transport (a network failure, the
    [SyntaxError] of [response.json()], the [TypeError] of a body that
    cannot be read or of a member taken out of [null]); [what] says which. *)
Inductive Thrown : Type :=
| ThrowR2C (e : R2CError)
| ThrowOther (what : string).

(** Outcome of an asynchronous operation once it has settled. *)
Inductive Settle (A : Type) : Type :=
| Fulfilled (a : A)
| Rejected (e : Thrown).
Arguments Fulfilled {A}.
Arguments Rejected {A}.

(** ** Credentials and client state *)

Record OAuthCredentials : Type := mkOAuthCredentials {
  username : string;
  password : string;
  site_id : string;
  client_id : string;
  client_secret : string;
  identity_url : option string;
}.

Record TokenCache : Type := mkTokenCache {
  access_token : string;
  expires_at : Z;
}.

(** Identity of a promise returned by [fetchOAuthToken]. *)
Abbreviation PromiseId := nat.

(** The fields of an [APIClient] instance; [fetch] is the environment. *)
Record APIClient : Type := mkAPIClient {
  baseURL : string;
  bearerToken : option string;
  oauthCredentials : option OAuthCredentials;
  tokenCache : option TokenCache;
  refreshPromise : option PromiseId;
}.

Definition TOKEN_BUFFER_MS : Z := 60000.

Definition default_baseURL : string := "https://www.r2clive.com/api/Jobsheet/2".
Definition default_identity_url : string := "https://www.r2clive.com/identity".

(** Options of the [APIClient] constructor. *)
Record APIClientOptions : Type := mkAPIClientOptions {
  api_baseURL : option string;
  api_bearerToken : option string;
  api_oauthCredentials : option OAuthCredentials;
}.

(** [APIClient.constructor]: the default parameter replaces an absent
    [baseURL] only, [bearerToken || null] also turns [''] into [null]. *)
Definition APIClient_new (o : APIClientOptions) : APIClient :=
  {| baseURL := match api_baseURL o with Some b => b | None => default_baseURL end;
     bearerToken := if str_truthy (api_bearerToken o) then api_bearerToken o else None;
     oauthCredentials := api_oauthCredentials o;
     tokenCache := None;
     refreshPromise := None |}.

(** [ClientOptions] of [R2CClient]. *)
Record ClientOptions : Type := mkClientOptions {
  opt_bearerToken : option string;
  opt_oauthCredentials : option OAuthCredentials;
  opt_baseURL : option string;
}.

Definition err_neither : R2CError :=
  R2CError_msg "Either bearerToken or oauthCredentials is required".

Definition err_both : R2CError :=
  R2CError_msg
    "Cannot provide both bearerToken and oauthCredentials. Choose one authentication method.".

(** [R2CClient.constructor]: throws, or hands the normalised options to
    [super]. An object is truthy, so [oauthCredentials] counts when present. *)
Definition R2CClient_new (o : ClientOptions) : R2CError + APIClient :=
  if negb (str_truthy (opt_bearerToken o)) && negb (bool_decide (is_Some (opt_oauthCredentials o)))
  then inl err_neither
  else if str_truthy (opt_bearerToken o) && bool_decide (is_Some (opt_oauthCredentials o))
  then inl err_both
  else inr (APIClient_new
              {| api_baseURL := Some (str_or (opt_baseURL o) default_baseURL);
                 api_bearerToken :=
                   if str_truthy (opt_bearerToken o) then opt_bearerToken o else None;
                 api_oauthCredentials := opt_oauthCredentials o |}).

(** ** Token endpoint *)

(** The members that line 358 takes out of the body of a token response,
    at the type the code casts the body to,
    [{ access_token: string; expires_in: number }]; a member that is missing
    (or [null]) is [None]. A body that is a number, a string, a boolean or
    an array has neither member. *)
Record TokenData : Type := mkTokenData {
  data_access_token : option string;
  data_expires_in : option Z;
}.

(** What [response.json()] of a token response fulfils with: [null], which
    has no members at all, or a value with its members. *)
Inductive TokenJson : Type :=
| DataNull
| Data (d : TokenData).

(** The call [this.fetch(url, {...})] of [fetchOAuthToken]. *)
Definition token_request (c : OAuthCredentials) : Request :=
  {| url := match identity_url c with
            | Some u => u
            | None => default_identity_url
            end +:+ "/connect/token";
     method := Some "POST";
     req_headers := [("Content-Type", "application/x-www-form-urlencoded");
                     ("Accept", "application/json")];
     req_body := Some (URLSearchParams_toString
                         [("username", username c);
                          ("password", password c);
                          ("siteid", site_id c);
                          ("grant_type", "password");
                          ("client_id", client_id c);
                          ("client_secret", client_secret c);
                          ("scope", "openid")]);
     init_other_members := [] |}.

(** The error of lines 345-350, [errorText] being the body read at line 344. *)
Definition auth_failed (r : Response TokenJson) (errorText : string) : R2CError :=
  {| message := "Authentication failed: " +:+ String_of_number (status r) +:+ " " +:+ errorText;
     err_status := Some (status r);
     err_headers := Some (headers r);
     error := Some errorText |}.

Definition invalid_token_response : R2CError :=
  R2CError_msg "Invalid token response from server".

(** ** Asynchronous state *)

(** Where an activation of [fetchOAuthToken] is suspended, or how the promise
    it returned has settled. *)
Inductive Exchange : Type :=
| AwaitFetch
| AwaitText (r : Response TokenJson)
| AwaitJson (r : Response TokenJson)
| Settled (o : Settle string).

(** Where an activation of [authHeaders] is suspended inside
    [getOAuthToken], or what it has returned: [AwaitRefresh] is the [await]
    of the [try] block (the activation that started the exchange and will run
    the [finally]); [AwaitJoined] is the [await] of line 288, on the promise
    that the refresh handle held at the call. *)
Inductive Caller : Type :=
| AwaitRefresh (p : PromiseId)
| AwaitJoined (p : PromiseId)
| Returned (o : Settle StrRecord).

(** One client instance together with its environment: the clock, the
    promises created by [fetchOAuthToken] (a promise is its index), the
    activations of [authHeaders] (a caller is its index), and the calls made
    to the transport so far. *)
Record World : Type := mkWorld {
  client : APIClient;
  now : Z;
  promises : list Exchange;
  callers : list Caller;
  fetchLog : list Request;
}.

Definition init_world (c : APIClient) (t0 : Z) : World :=
  {| client := c; now := t0; promises := []; callers := []; fetchLog := [] |}.

Definition set_tokenCache (tc : option TokenCache) (c : APIClient) : APIClient :=
  {| baseURL := baseURL c;
     bearerToken := bearerToken c;
     oauthCredentials := oauthCredentials c;
     tokenCache := tc;
     refreshPromise := refreshPromise c |}.

Definition set_refreshPromise (p : option PromiseId) (c : APIClient) : APIClient :=
  {| baseURL := baseURL c;
     bearerToken := bearerToken c;
     oauthCredentials := oauthCredentials c;
     tokenCache := tokenCache c;
     refreshPromise := p |}.

Definition with_client (c : APIClient) (w : World) : World :=
  {| client := c; now := now w; promises := promises w; callers := callers w;
     fetchLog := fetchLog w |}.

Definition with_promises (ps : list Exchange) (w : World) : World :=
  {| client := client w; now := now w; promises := ps; callers := callers w;
     fetchLog := fetchLog w |}.

Definition with_callers (cs : list Caller) (w : World) : World :=
  {| client := client w; now := now w; promises := promises w; callers := cs;
     fetchLog := fetchLog w |}.

Definition call_fetch (rq : Request) (w : World) : World :=
  {| client := client w; now := now w; promises := promises w; callers := callers w;
     fetchLog := fetchLog w ++ [rq] |}.

Definition advance (dt : N) (w : World) : World :=
  {| client := client w; now := now w + Z.of_N dt; promises := promises w;
     callers := callers w; fetchLog := fetchLog w |}.

Definition push_caller (c : Caller) (w : World) : World :=
  with_callers (callers w ++ [c]) w.

(** ** Token manager *)

(** [isTokenValid], reading the clock at [t]. *)
Definition isTokenValid (c : APIClient) (t : Z) : bool :=
  match tokenCache c with
  | None => false
  | Some tc => t + TOKEN_BUFFER_MS <? expires_at tc
  end.

(** [setToken] and [clearToken]. *)
Definition setToken (token : string) (expiresIn : Z) (w : World) : World :=
  with_client
    (set_tokenCache (Some {| access_token := token;
                             expires_at := now w + expiresIn * 1000 |}) (client w)) w.

Definition clearToken (w : World) : World :=
  with_client (set_tokenCache None (client w)) w.

(** [fetchOAuthToken], up to its first [await]: the promise it returns is
    the next free index. Without credentials it throws at once, which rejects
    the promise; otherwise it calls the transport and waits. *)
Definition fetchOAuthToken_call (w : World) : PromiseId * World :=
  let p := length (promises w) in
  match oauthCredentials (client w) with
  | None =>
      (p, with_promises
            (promises w ++
             [Settled (Rejected (ThrowR2C (R2CError_msg "OAuth credentials not configured")))])
            w)
  | Some creds =>
      (p, with_promises (promises w ++ [AwaitFetch]) (call_fetch (token_request creds) w))
  end.

(** [fetchOAuthToken] after [await this.fetch(...)]: line 343 chooses which
    body reader is awaited next. *)
Definition fetchOAuthToken_response (r : Response TokenJson) : Exchange :=
  if ok r then AwaitJson r else AwaitText r.

(** [fetchOAuthToken] on a response that is not [ok], once
    [response.text()] has settled: lines 344-350. A rejection of the reader
    leaves the function as it is. *)
Definition fetchOAuthToken_failure (r : Response TokenJson) : Settle string :=
  match text r with
  | Read errorText => Rejected (ThrowR2C (auth_failed r errorText))
  | ReadError what => Rejected (ThrowOther what)
  end.

(** [fetchOAuthToken] from line 353 on, once [response.json()] has settled at
    time [t]: the outcome and the client after it. Taking the members out of
    [null] throws a [TypeError]. *)
Definition fetchOAuthToken_data (t : Z) (r : Response TokenJson) (c : APIClient)
  : Settle string * APIClient :=
  match json r with
  | ReadError what => (Rejected (ThrowOther what), c)
  | Read DataNull => (Rejected (ThrowOther "TypeError"), c)
  | Read (Data data) =>
      if negb (str_truthy (data_access_token data)) || negb (num_truthy (data_expires_in data))
      then (Rejected (ThrowR2C invalid_token_response), c)
      else
        match data_access_token data, data_expires_in data with
        | Some tok, Some secs =>
            (Fulfilled tok,
             set_tokenCache (Some {| access_token := tok;
                                     expires_at := t + secs * 1000 |}) c)
        | _, _ => (Rejected (ThrowR2C invalid_token_response), c)
        end
  end.

(** [getOAuthToken], up to its first [await]: either it returns the cached
    token at once, or the activation is left suspended on a promise. *)
Definition getOAuthToken_call (w : World) : (string + Caller) * World :=
  match tokenCache (client w), isTokenValid (client w) (now w) with
  | Some tc, true => (inl (access_token tc), w)
  | _, _ =>
      match refreshPromise (client w) with
      | Some p => (inr (AwaitJoined p), w)
      | None =>
          let '(p, w') := fetchOAuthToken_call w in
          (inr (AwaitRefresh p), with_client (set_refreshPromise (Some p) (client w')) w')
      end
  end.

(** The record [{ Authorization: `Bearer ${token}` }]. *)
Definition Authorization (token : string) : StrRecord :=
  [("Authorization", "Bearer " +:+ token)].

Definition no_authentication : R2CError :=
  R2CError_msg "No authentication configured. Provide either bearerToken or oauthCredentials.".

(** What [authHeaders] returns once the token it awaited has settled. *)
Definition authHeaders_result (o : Settle string) : Settle StrRecord :=
  match o with
  | Fulfilled tok => Fulfilled (Authorization tok)
  | Rejected e => Rejected e
  end.

(** A new activation of [authHeaders], run up to its first suspension on a
    promise of the transport; the activation becomes the next caller. A
    result that needs no transport is recorded as returned at once. *)
Definition authHeaders_call (w : World) : World :=
  match oauthCredentials (client w) with
  | Some _ =>
      match getOAuthToken_call w with
      | (inl tok, w') => push_caller (Returned (Fulfilled (Authorization tok))) w'
      | (inr waiting, w') => push_caller waiting w'
      end
  | None =>
      if str_truthy (bearerToken (client w))
      then push_caller
             (Returned (Fulfilled (Authorization (default "" (bearerToken (client w)))))) w
      else push_caller (Returned (Rejected (ThrowR2C no_authentication))) w
  end.

(** ** Scheduling *)

(** What can happen to a client between two suspension points. The model
    leaves the order of events to the environment: any order in which the
    JavaScript event loop runs the tasks is one of its traces.
    - [Tick dt]: the clock read by [Date.now()] advances by [dt] ms; it
      never goes back.
    - [CallAuthHeaders]: some task calls [authHeaders()].
    - [FetchFulfil p r], [FetchReject p what]: the transport settles the
      call made by the exchange [p], with the response [r] or with a failure.
    - [BodyRead p]: the body reader awaited by the exchange [p] settles, as
      the response says, and [fetchOAuthToken] runs to its end.
    - [Resume i]: the continuation of caller [i] runs.
    - [SetToken], [ClearToken]: the public methods [setToken] and
      [clearToken]. *)
Inductive Event : Type :=
| Tick (dt : N)
| CallAuthHeaders
| FetchFulfil (p : PromiseId) (r : Response TokenJson)
| FetchReject (p : PromiseId) (what : string)
| BodyRead (p : PromiseId)
| Resume (i : nat)
| SetToken (token : string) (expiresIn : Z)
| ClearToken.

(** The promise [p] of the token exchange makes progress. *)
Definition fetch_fulfil (p : PromiseId) (r : Response TokenJson) (w : World) : World :=
  match promises w !! p with
  | Some AwaitFetch => with_promises (<[p := fetchOAuthToken_response r]> (promises w)) w
  | _ => w
  end.

Definition fetch_reject (p : PromiseId) (what : string) (w : World) : World :=
  match promises w !! p with
  | Some AwaitFetch =>
      with_promises (<[p := Settled (Rejected (ThrowOther what))]> (promises w)) w
  | _ => w
  end.

Definition body_read (p : PromiseId) (w : World) : World :=
  match promises w !! p with
  | Some (AwaitText r) =>
      with_promises (<[p := Settled (fetchOAuthToken_failure r)]> (promises w)) w
  | Some (AwaitJson r) =>
      let '(o, c) := fetchOAuthToken_data (now w) r (client w) in
      with_promises (<[p := Settled o]> (promises w)) (with_client c w)
  | _ => w
  end.

(** Caller [i] continues after the promise it awaits has settled. The caller
    that started the exchange runs its [finally] block. *)
Definition resume (i : nat) (w : World) : World :=
  match callers w !! i with
  | Some (AwaitRefresh p) =>
      match promises w !! p with
      | Some (Settled o) =>
          with_callers (<[i := Returned (authHeaders_result o)]> (callers w))
            (with_client (set_refreshPromise None (client w)) w)
      | _ => w
      end
  | Some (AwaitJoined p) =>
      match promises w !! p with
      | Some (Settled o) =>
          with_callers (<[i := Returned (authHeaders_result o)]> (callers w)) w
      | _ => w
      end
  | _ => w
  end.

(** One event. An event that is not enabled (a promise that is not waiting
    for it, a caller that cannot continue yet) leaves the world as it is. *)
Definition step (e : Event) (w : World) : World :=
  match e with
  | Tick dt => advance dt w
  | CallAuthHeaders => authHeaders_call w
  | FetchFulfil p r => fetch_fulfil p r w
  | FetchReject p what => fetch_reject p what w
  | BodyRead p => body_read p w
  | Resume i => resume i w
  | SetToken token expiresIn => setToken token expiresIn w
  | ClearToken => clearToken w
  end.

Definition run (tr : list Event) (w : World) : World :=
  fold_left (fun acc e => step e acc) tr w.

(** ** Request dispatcher *)

(** The rest [init] of the destructuring of line 432: the members of
    [RequestInit] other than [body], as [fetch] reads them. A [method] that
    is [None] is absent or [undefined], and [fetch] then uses its default. *)
Record RequestInit : Type := mkRequestInit {
  init_method : option string;
  init_headers : option StrRecord;
  init_other : list (string * string);
}.

(** [RequestOptions] as [makeRequest] reads it at line 432, where a member
    that is absent and a member that is [undefined] read the same. The query
    is the list [Object.entries(query)]; a value [None] is [undefined]. A
    body [None] is a body that is [undefined]. *)
Record RequestOptions : Type := mkRequestOptions {
  path : string;
  query : option (list (string * option JSON));
  body : option JSON;
  init : RequestInit;
}.

(** The pairs that the loop of lines 438-442 appends. *)
Definition query_params (q : list (string * option JSON)) : URLSearchParams :=
  flat_map (fun kv => match snd kv with
                      | None => []
                      | Some JNull => []
                      | Some v => [(fst kv, String_of_JSON v)]
                      end) q.

(** Lines 434-447. *)
Definition request_url (c : APIClient) (o : RequestOptions) : string :=
  let url := baseURL c +:+ path o in
  match query o with
  | None => url
  | Some q =>
      let queryString := URLSearchParams_toString (query_params q) in
      if String.eqb queryString "" then url else url +:+ "?" +:+ queryString
  end.

(** [defaultHeaders], given what [authHeaders] returned. *)
Definition defaultHeaders (auth : StrRecord) : StrRecord :=
  spread [("Content-Type", "application/json")] auth.

(** Lines 450-459: the call [this.fetch(url, fetchOptions)]. *)
Definition fetch_request (c : APIClient) (auth : StrRecord) (o : RequestOptions) : Request :=
  {| url := request_url c o;
     method := init_method (init o);
     req_headers := spread (defaultHeaders auth) (default [] (init_headers (init o)));
     req_body := if js_truthy (body o)
                 then option_map JSON_stringify (body o)
                 else None;
     init_other_members := init_other (init o) |}.

(** The result of [parseResponse<T>]: [null], the decoded JSON body, or the
    body text. *)
Inductive Parsed (T : Type) : Type :=
| ParsedNull
| ParsedJson (v : T)
| ParsedText (s : string).
Arguments ParsedNull {T}.
Arguments ParsedJson {T}.
Arguments ParsedText {T}.

(** The body readers of a [Response]. *)
Inductive BodyReader : Type :=
| ReadText
| ReadJson.

(** The error of lines 407-412, [errorText] being the body read at line 406. *)
Definition http_error {T} (r : Response T) (errorText : string) : R2CError :=
  {| message := "HTTP Error " +:+ String_of_number (status r) +:+ ": " +:+
                (if String.eqb errorText "" then statusText r else errorText);
     err_status := Some (status r);
     err_headers := Some (headers r);
     error := Some errorText |}.

(** [parseResponse]: the body readers it awaits, in order, and its outcome.
    A reader that rejects makes [parseResponse] reject with the same
    exception. *)
Definition parseResponse {T} (r : Response T) : list BodyReader * Settle (Parsed T) :=
  if negb (ok r)
  then ([ReadText],
        match text r with
        | Read errorText => Rejected (ThrowR2C (http_error r errorText))
        | ReadError what => Rejected (ThrowOther what)
        end)
  else if status r =? 204 then ([], Fulfilled ParsedNull)
  else
    match Headers_get "content-type" (headers r) with
    | Some contentType =>
        if includes "application/json" contentType
        then ([ReadJson],
              match json r with
              | Read v => Fulfilled (ParsedJson v)
              | ReadError what => Rejected (ThrowOther what)
              end)
        else ([ReadText],
              match text r with
              | Read s => Fulfilled (ParsedText s)
              | ReadError what => Rejected (ThrowOther what)
              end)
    | None =>
        ([ReadText],
         match text r with
         | Read s => Fulfilled (ParsedText s)
         | ReadError what => Rejected (ThrowOther what)
         end)
    end.

(** [makeRequest]: [auth] is how [authHeaders] settled and [answer] how the
    transport settles the one call it may receive. The result is the call
    made to the transport, if any, and the outcome of the request. *)
Definition makeRequest {T} (c : APIClient) (auth : Settle StrRecord)
    (answer : Settle (Response T)) (o : RequestOptions)
  : option Request * Settle (Parsed T) :=
  match auth with
  | Rejected e => (None, Rejected e)
  | Fulfilled h =>
      (Some (fetch_request c h o),
       match answer with
       | Rejected e => Rejected e
       | Fulfilled r => snd (parseResponse r)
       end)
  end.

(** An optional member of an object that is spread over earlier members:
    [Absent] when the object has no such key, [Present v] when it has, [v]
    being [None] for a key whose value is [undefined]. A key that is present
    replaces the earlier member, whatever its value. *)
Inductive Member (A : Type) : Type :=
| Absent
| Present (v : option A).
Arguments Absent {A}.
Arguments Present {A}.

(** The member [k] of [{ k: before, ...options }], [m] being the member [k]
    of [options]. *)
Definition spread_member {A} (before : option A) (m : Member A) : option A :=
  match m with
  | Absent => before
  | Present v => v
  end.

(** A [RequestOptions] object as the caller of a verb method passes it:
    [path] is a required member; for [method] and [body], which the verb
    methods set before they spread the options, the object says whether it
    has the key. *)
Record OptionsObject : Type := mkOptionsObject {
  given_path : string;
  given_query : option (list (string * option JSON));
  given_body : Member JSON;
  given_method : Member string;
  given_headers : option StrRecord;
  given_other : list (string * string);
}.

(** [{ path, method: verb, body: b, ...options }] as [makeRequest] reads it;
    [b] is [Absent] for the verbs that set no body. *)
Definition verb_options (verb p : string) (b : Member JSON) (options : option OptionsObject)
  : RequestOptions :=
  match options with
  | None =>
      {| path := p; query := None; body := spread_member None b;
         init := {| init_method := Some verb; init_headers := None; init_other := [] |} |}
  | Some o =>
      {| path := given_path o; query := given_query o;
         body := spread_member (spread_member None b) (given_body o);
         init := {| init_method := spread_member (Some verb) (given_method o);
                    init_headers := given_headers o;
                    init_other := given_other o |} |}
  end.

(** The descriptors that the verb methods hand to [makeRequest]. *)
Definition get_options (p : string) (options : option OptionsObject) : RequestOptions :=
  verb_options "GET" p Absent options.

Definition post_options (p : string) (b : option JSON) (options : option OptionsObject)
  : RequestOptions :=
  verb_options "POST" p (Present b) options.

Definition patch_options (p : string) (b : option JSON) (options : option OptionsObject)
  : RequestOptions :=
  verb_options "PATCH" p (Present b) options.

Definition delete_options (p : string) (options : option OptionsObject) : RequestOptions :=
  verb_options "DELETE" p Absent options.



(** ** Resources *)

(** A [params] object of a resource method: its own enumerable properties
    in the order in which the language enumerates them, no key twice. A
    property whose value is [undefined] is left out: it reads as [undefined]
    and [JSON.stringify] skips it. *)
Abbreviation JSObject := (list (string * JSON)).

(** [o.k]. *)
Fixpoint object_get (k : string) (o : JSObject) : option JSON :=
  match o with
  | [] => None
  | (k', v) :: rest => if String.eqb k k' then Some v else object_get k rest
  end.

(** [const { k1, ..., kn, ...body } = o]: the properties left for [body]. *)
Definition object_rest (keys : list string) (o : JSObject) : JSObject :=
  List.filter (fun kv => negb (existsb (String.eqb (fst kv)) keys)) o.

(** [`${v}`] in a template literal. *)
Definition template (v : option JSON) : string :=
  match v with
  | None => "undefined"
  | Some x => String_of_JSON x
  end.

(** The paths that the resource methods build from the identifiers. *)
Definition jobsheet_path (params : JSObject) : string :=
  "/Jobsheets/" +:+ template (object_get "jobsheetId" params).

Definition tasks_path (params : JSObject) : string :=
  jobsheet_path params +:+ "/Tasks".

Definition task_path (params : JSObject) : string :=
  tasks_path params +:+ "/" +:+ template (object_get "taskId" params).

(** [Jobsheets]: each method is the descriptor that reaches [makeRequest]. *)
Definition Jobsheets_get (params : JSObject) (options : option OptionsObject)
  : RequestOptions :=
  get_options (jobsheet_path params) options.

Definition Jobsheets_patch (params : JSObject) (options : option OptionsObject)
  : RequestOptions :=
  patch_options (jobsheet_path params) (Some (JObj (object_rest ["jobsheetId"] params)))
                options.




(** [Tasks]. *)
Definition Tasks_get (params : JSObject) (options : option OptionsObject) : RequestOptions :=
  get_options ("/Task/" +:+ template (object_get "taskId" params)) options.

Definition Tasks_patch (params : JSObject) (options : option OptionsObject)
  : RequestOptions :=
  patch_options (task_path params)
                (Some (JObj (object_rest ["jobsheetId"; "taskId"] params))) options.

Definition Tasks_create (params : JSObject) (options : option OptionsObject)
  : RequestOptions :=
  post_options (tasks_path params) (Some (JObj (object_rest ["jobsheetId"] params))) options.

(** [Labour]. *)
Definition Labour_patch (params : JSObject) (options : option OptionsObject)
  : RequestOptions :=
  patch_options (task_path params +:+ "/Labour/" +:+ template (object_get "labourId" params))
                (Some (JObj (object_rest ["jobsheetId"; "taskId"; "labourId"] params)))
                options.

(** [Parts], [Fluids] and [Consumables] have the same three methods; [kind]
    is the path segment and [idKey] the name of the identifier. *)
Definition item_get (kind idKey : string) (params : JSObject)
    (options : option OptionsObject) : RequestOptions :=
  get_options (task_path params +:+ "/" +:+ kind +:+ "/" +:+
               template (object_get idKey params)) options.

Definition item_patch (kind idKey : string) (params : JSObject)
    (options : option OptionsObject) : RequestOptions :=
  patch_options (task_path params +:+ "/" +:+ kind +:+ "/" +:+
                 template (object_get idKey params))
                (Some (JObj (object_rest ["jobsheetId"; "taskId"; idKey] params))) options.

Definition item_create (kind : string) (params : JSObject)
    (options : option OptionsObject) : RequestOptions :=
  post_options (task_path params +:+ "/" +:+ kind)
               (Some (JObj (object_rest ["jobsheetId"; "taskId"] params))) options.

Definition Parts_get := item_get "Parts" "partId".
Definition Parts_patch := item_patch "Parts" "partId".
Definition Parts_create := item_create "Parts".

Definition Fluids_get := item_get "Fluids" "fluidId".
Definition Fluids_patch := item_patch "Fluids" "fluidId".
Definition Fluids_create := item_create "Fluids".

Definition Consumables_get := item_get "Consumables" "consumableId".
Definition Consumables_patch := item_patch "Consumables" "consumableId".
Definition Consumables_create := item_create "Consumables".

(** * Vocabulary of the properties *)

(** Sample values, the ones of the test suite. *)
Definition sample_credentials : OAuthCredentials :=
  {| username := "user"; password := "pass"; site_id := "site";
     client_id := "client"; client_secret := "secret"; identity_url := None |}.

Definition sample_bearer_client : APIClient :=
  APIClient_new {| api_baseURL := Some "https://test-api.r2clive.com";
                   api_bearerToken := Some "test-token";
                   api_oauthCredentials := None |}.

(** Events that may write [tokenCache]. *)
Definition replaces_cache (e : Event) : bool :=
  match e with
  | SetToken _ _ | ClearToken | BodyRead _ => true
  | _ => false
  end.

(** Shapes of traces: new callers while time passes; callers resuming
    while time passes. *)
Definition call_or_tick (e : Event) : bool :=
  match e with
  | Tick _ | CallAuthHeaders => true
  | _ => false
  end.

Definition resume_or_tick (e : Event) : bool :=
  match e with
  | Tick _ | Resume _ => true
  | _ => false
  end.

Definition is_call (e : Event) : bool :=
  match e with
  | CallAuthHeaders => true
  | _ => false
  end.

(** Number of activations of [authHeaders] in a trace. *)
Definition calls (tr : list Event) : nat := length (List.filter is_call tr).

(** Unfolds one event down to the record fields. *)
Ltac unfold_step :=
  unfold step, authHeaders_call, getOAuthToken_call, fetchOAuthToken_call, fetch_fulfil,
    fetch_reject, body_read, resume, setToken, clearToken, fetchOAuthToken_data,
    fetchOAuthToken_failure, push_caller,
    advance, call_fetch, with_callers, with_promises, with_client, set_tokenCache,
    set_refreshPromise in *.

(** What holds of a client built with a static token, whatever happens. *)
Definition bearer_world (t : string) (w : World) : Prop :=
  oauthCredentials (client w) = None /\ bearerToken (client w) = Some t /\ t <> "" /\
  fetchLog w = [] /\ promises w = [] /\
  forall i cl, callers w !! i = Some cl -> cl = Returned (Fulfilled (Authorization t)).

(** How an exchange answered by [r] settles: line 343 to the end of
    [fetchOAuthToken]. *)
Definition exchange_outcome (r : Response TokenJson) : Settle string :=
  if ok r then
    match json r with
    | ReadError what => Rejected (ThrowOther what)
    | Read DataNull => Rejected (ThrowOther "TypeError")
    | Read (Data data) =>
        match data_access_token data, data_expires_in data with
        | Some tok, Some secs =>
            if String.eqb tok "" || (secs =? 0)
            then Rejected (ThrowR2C invalid_token_response)
            else Fulfilled tok
        | _, _ => Rejected (ThrowR2C invalid_token_response)
        end
    end
  else
    match text r with
    | Read errorText => Rejected (ThrowR2C (auth_failed r errorText))
    | ReadError what => Rejected (ThrowOther what)
    end.

(** The cache after an exchange answered by [r] has settled at time [t]. *)
Definition cache_after (r : Response TokenJson) (t : Z) (old : option TokenCache)
  : option TokenCache :=
  match exchange_outcome r, json r with
  | Fulfilled tok, Read (Data {| data_expires_in := Some secs |}) =>
      Some {| access_token := tok; expires_at := t + secs * 1000 |}
  | _, _ => old
  end.

(** Sample answers of the token endpoint: a grant, whose body is the JSON
    text of the two members, and a refusal with a text body. *)
Definition token_granted (tok : string) (secs : Z) : Response TokenJson :=
  {| ok := true; status := 200; statusText := "OK";
     headers := [("Content-Type", "application/json")];
     text := Read (JSON_stringify (JObj [("access_token", JStr tok);
                                         ("expires_in", JNum secs)]));
     json := Read (Data (mkTokenData (Some tok) (Some secs))) |}.

Definition token_refused (st : Z) (reason body : string) : Response TokenJson :=
  {| ok := false; status := st; statusText := reason; headers := [];
     text := Read body; json := ReadError "SyntaxError" |}.

Definition sample_oauth_client : APIClient :=
  APIClient_new {| api_baseURL := Some "https://test-api.r2clive.com";
                   api_bearerToken := None;
                   api_oauthCredentials := Some sample_credentials |}.

(** An exchange whose promise has not settled yet. *)
Definition pending (x : Exchange) : bool :=
  match x with
  | Settled _ => false
  | _ => true
  end.

(** The refresh handle tracks the exchanges: every call to the transport
    belongs to one promise, a pending promise is the one the handle points
    to, and the handle is set exactly while the one caller that started the
    exchange has not yet run its [finally]. *)
Definition handle_inv (w : World) : Prop :=
  length (fetchLog w) = length (promises w) /\
  (forall q x, promises w !! q = Some x -> pending x = true ->
               refreshPromise (client w) = Some q) /\
  (forall i q, callers w !! i = Some (AwaitRefresh q) ->
               refreshPromise (client w) = Some q) /\
  (forall i i' q q', callers w !! i = Some (AwaitRefresh q) ->
                     callers w !! i' = Some (AwaitRefresh q') -> i = i').

(** While the refresh handle is set, the call that started the exchange it
    points to is still suspended. *)
Definition handle_owned (w : World) : Prop :=
  forall q, refreshPromise (client w) = Some q ->
            (exists i, callers w !! i = Some (AwaitRefresh q)) /\ is_Some (promises w !! q).

(** The caller [i] joined the promise [q]: it is still waiting for it, or
    [q] has settled and the caller has returned its outcome. *)
Definition joined_or_returned (i : nat) (q : PromiseId) (w : World) : Prop :=
  callers w !! i = Some (AwaitJoined q) \/
  exists o, promises w !! q = Some (Settled o) /\
            callers w !! i = Some (Returned (authHeaders_result o)).

(** How the exchange in flight completes: the transport rejects, or it
    answers with [r] and the body reader settles after the events
    [meanwhile]. [completion_events] are the events of the exchange [p]
    with those in between, [completion_outcome] is how its promise settles. *)
Inductive Completion : Type :=
| TransportRejects (what : string)
| TransportAnswers (r : Response TokenJson) (meanwhile : list Event).

Definition completion_events (p : PromiseId) (c : Completion) : list Event :=
  match c with
  | TransportRejects what => [FetchReject p what]
  | TransportAnswers r meanwhile => FetchFulfil p r :: meanwhile ++ [BodyRead p]
  end.

Definition meanwhile_of (c : Completion) : list Event :=
  match c with
  | TransportRejects _ => []
  | TransportAnswers _ meanwhile => meanwhile
  end.

Definition completion_outcome (c : Completion) : Settle string :=
  match c with
  | TransportRejects what => Rejected (ThrowOther what)
  | TransportAnswers r _ => exchange_outcome r
  end.

(** The world [w] is the idle world [w0] after one caller has started an
    exchange, now in state [x], and [k] more callers have joined it. *)
Definition in_flight (w0 : World) (creds : OAuthCredentials) (x : Exchange) (k : nat)
    (w : World) : Prop :=
  client w = set_refreshPromise (Some (length (promises w0))) (client w0) /\
  now w0 <= now w /\
  promises w = promises w0 ++ [x] /\
  callers w = callers w0 ++ AwaitRefresh (length (promises w0))
                            :: replicate k (AwaitJoined (length (promises w0))) /\
  fetchLog w = fetchLog w0 ++ [token_request creds].

(** The exchange [p] has settled with [o]; each of the [n] callers from
    index [lo] on is still waiting for it or has returned its outcome. *)
Definition settling (p : PromiseId) (o : Settle string) (lo n : nat) (log : list Request)
    (w : World) : Prop :=
  promises w !! p = Some (Settled o) /\
  fetchLog w = log /\
  length (callers w) = (lo + n)%nat /\
  forall j, (lo <= j < lo + n)%nat ->
            callers w !! j = Some (AwaitRefresh p) \/
            callers w !! j = Some (AwaitJoined p) \/
            callers w !! j = Some (Returned (authHeaders_result o)).

(** A client without OAuth credentials never talks to the transport. *)
Definition static_world (w : World) : Prop :=
  oauthCredentials (client w) = None /\ fetchLog w = [] /\ promises w = [].

(** No exchange and no caller has failed with the error of a client that
    has no authentication at all. *)
Definition never_unauthenticated (w : World) : Prop :=
  (forall q e, promises w !! q = Some (Settled (Rejected (ThrowR2C e))) ->
               e <> no_authentication) /\
  (forall i e, callers w !! i = Some (Returned (Rejected (ThrowR2C e))) ->
               e <> no_authentication).

(** Number of occurrences of a character in a string. *)
Fixpoint count_char (c : ascii) (s : string) : nat :=
  match s with
  | EmptyString => 0
  | String a rest => (if Ascii.eqb a c then 1 else 0) + count_char c rest
  end.

(** The characters that structure a URL and its query string. *)
Definition url_delimiters : list ascii :=
  ["&"%char; "="%char; "?"%char; "#"%char; "/"%char; " "%char].

(** The resource methods that send a body, each with its verb and the
    identifiers it takes out of [params]. *)
Definition body_methods
  : list (string * list string * (JSObject -> option OptionsObject -> RequestOptions)) :=
  [("PATCH", ["jobsheetId"], Jobsheets_patch);
   ("PATCH", ["jobsheetId"; "taskId"], Tasks_patch);
   ("POST", ["jobsheetId"], Tasks_create);
   ("PATCH", ["jobsheetId"; "taskId"; "labourId"], Labour_patch);
   ("PATCH", ["jobsheetId"; "taskId"; "partId"], Parts_patch);
   ("POST", ["jobsheetId"; "taskId"], Parts_create);
   ("PATCH", ["jobsheetId"; "taskId"; "fluidId"], Fluids_patch);
   ("POST", ["jobsheetId"; "taskId"], Fluids_create);
   ("PATCH", ["jobsheetId"; "taskId"; "consumableId"], Consumables_patch);
   ("POST", ["jobsheetId"; "taskId"], Consumables_create)].

(** The resource methods that take [RequestOptions]. *)
Definition options_methods : list (JSObject -> option OptionsObject -> RequestOptions) :=
  [Jobsheets_get; Jobsheets_patch; Tasks_get; Tasks_patch; Tasks_create; Labour_patch;
   Parts_get; Parts_patch; Parts_create; Fluids_get; Fluids_patch; Fluids_create;
   Consumables_get; Consumables_patch; Consumables_create].

(** * Properties *)

(** ** Construction *)

Lemma str_truthy_Some (s : string) : str_truthy (Some s) = true <-> s <> "".
Proof.
  unfold str_truthy. rewrite negb_true_iff.
  destruct (String.eqb_spec s ""); split; congruence.
Qed.

Lemma R2CClient_new_cases (o : ClientOptions) :
  R2CClient_new o =
  match str_truthy (opt_bearerToken o), opt_oauthCredentials o with
  | false, None => inl err_neither
  | true, Some _ => inl err_both
  | true, None =>
      inr {| baseURL := str_or (opt_baseURL o) default_baseURL;
             bearerToken := opt_bearerToken o;
             oauthCredentials := None;
             tokenCache := None;
             refreshPromise := None |}
  | false, Some creds =>
      inr {| baseURL := str_or (opt_baseURL o) default_baseURL;
             bearerToken := None;
             oauthCredentials := Some creds;
             tokenCache := None;
             refreshPromise := None |}
  end.
Proof.
  unfold R2CClient_new, APIClient_new.
  destruct (str_truthy (opt_bearerToken o)) eqn:Hb, (opt_oauthCredentials o) as [creds|];
    cbn; rewrite ?Hb; try reflexivity.
Qed.

(** C10. Presence of a credential is its truthiness. An empty-string
    [bearerToken] without [oauthCredentials] raises the error for "neither",
    and an empty-string [bearerToken] next to [oauthCredentials] builds an
    OAuth-only client; in general the constructor's result is a function of
    the truthiness of [bearerToken] and the presence of the credentials
    object. *)
Theorem construction_by_truthiness :
  (forall base, R2CClient_new (mkClientOptions (Some "") None base) = inl err_neither) /\
  (forall base creds,
      exists c, R2CClient_new (mkClientOptions (Some "") (Some creds) base) = inr c /\
                bearerToken c = None /\ oauthCredentials c = Some creds) /\
  (forall o, R2CClient_new o = inl err_neither <->
             str_truthy (opt_bearerToken o) = false /\ opt_oauthCredentials o = None) /\
  (forall o, R2CClient_new o = inl err_both <->
             str_truthy (opt_bearerToken o) = true /\ is_Some (opt_oauthCredentials o)).
Proof.
  split; [|split; [|split]].
  - intros base. reflexivity.
  - intros base creds. eexists. split; [reflexivity|]. split; reflexivity.
  - intros o. rewrite R2CClient_new_cases.
    destruct (str_truthy (opt_bearerToken o)), (opt_oauthCredentials o);
      split; try discriminate; try tauto; intros [? ?]; discriminate.
  - intros o. rewrite R2CClient_new_cases.
    destruct (str_truthy (opt_bearerToken o)), (opt_oauthCredentials o);
      split; try discriminate; eauto; try (intros [? [? ?]]; discriminate).
Qed.

(** C7, as stated, fails: with [bearerToken: ''] and [oauthCredentials] both
    supplied the constructor succeeds, and with [bearerToken: ''] alone, one
    form supplied, it throws. *)
Lemma construction_by_supply_fails :
  (let o := mkClientOptions (Some "") (Some sample_credentials) None in
   is_Some (opt_bearerToken o) /\ is_Some (opt_oauthCredentials o) /\
   exists c, R2CClient_new o = inr c) /\
  (let o := mkClientOptions (Some "") None None in
   is_Some (opt_bearerToken o) /\ opt_oauthCredentials o = None /\
   R2CClient_new o = inl err_neither).
Proof.
  split; cbn.
  - split; [eauto|]. split; [eauto|]. eexists. reflexivity.
  - split; [eauto|]. split; reflexivity.
Qed.

(** C7, amended. A credential form counts as given when it is truthy: a
    non-empty [bearerToken], an [oauthCredentials] object. With neither or
    both given the constructor throws an [R2CError] that carries no HTTP
    status; it returns a client exactly when one form is given, and the new
    client has made no call to the transport and holds no token and no
    refresh handle. *)
Theorem construction_validates_credentials (o : ClientOptions) :
  let bearer := str_truthy (opt_bearerToken o) in
  let oauth := bool_decide (is_Some (opt_oauthCredentials o)) in
  (R2CClient_new o = inl err_neither <-> bearer = false /\ oauth = false) /\
  (R2CClient_new o = inl err_both <-> bearer = true /\ oauth = true) /\
  ((exists c, R2CClient_new o = inr c) <-> xorb bearer oauth = true) /\
  (forall e, R2CClient_new o = inl e -> err_status e = None) /\
  (forall c t0, R2CClient_new o = inr c ->
                fetchLog (init_world c t0) = [] /\ promises (init_world c t0) = [] /\
                tokenCache c = None /\ refreshPromise c = None).
Proof.
  cbn zeta. rewrite R2CClient_new_cases.
  destruct (str_truthy (opt_bearerToken o)), (opt_oauthCredentials o) as [creds|]; cbn;
    (split; [|split; [|split; [|split]]]);
    try (split; [discriminate | intros [? ?]; discriminate]);
    try (split; [intros _; split; reflexivity | reflexivity]);
    try (split; [intros [? ?]; discriminate | discriminate]);
    try (split; [intros _; reflexivity | intros _; eexists; reflexivity]);
    try (intros e He; injection He as <-; reflexivity);
    try (intros c t0 Hc; injection Hc as <-; repeat split; reflexivity);
    try (intros; discriminate).
Qed.

Lemma construction_validates_credentials_witness :
  let o := mkClientOptions (Some "test-token") None None in
  exists c, R2CClient_new o = inr c /\ fetchLog (init_world c 0) = [] /\ tokenCache c = None.
Proof.
  cbn zeta.
  destruct (construction_validates_credentials (mkClientOptions (Some "test-token") None None))
    as (_ & _ & _ & _ & Hnew).
  eexists. split; [reflexivity|].
  destruct (Hnew _ 0 eq_refl) as (Hlog & _ & Hcache & _). split; assumption.
Defined.

(** ** Request body *)

(** C5, as stated, fails: a body that was supplied but is falsy ([0],
    [false], [''], [null]) is left out of the wire request. *)
Lemma falsy_body_is_omitted :
  let wire b := req_body (fetch_request sample_bearer_client (Authorization "test-token")
                                        (post_options "/test" (Some b) None)) in
  body (post_options "/test" (Some (JNum 0)) None) = Some (JNum 0) /\
  wire (JNum 0) = None /\ wire (JBool false) = None /\ wire (JStr "") = None /\
  wire JNull = None /\
  JSON_stringify (JNum 0) = "0" /\ JSON_stringify JNull = "null".
Proof. cbn. repeat split; reflexivity. Qed.

(** C5, amended. The wire request carries the JSON encoding of the body
    exactly when the body is truthy; the body is omitted when none was
    supplied and when the supplied value is falsy ([null], [false], [0],
    ['']). The same holds for the call that [makeRequest] makes once the
    authorization header is resolved. *)
Theorem request_body_by_truthiness (c : APIClient) (auth : StrRecord) (o : RequestOptions) :
  req_body (fetch_request c auth o) =
    match body o with
    | Some b => if truthy b then Some (JSON_stringify b) else None
    | None => None
    end /\
  (forall T (answer : Settle (Response T)),
      fst (makeRequest c (Fulfilled auth) answer o) = Some (fetch_request c auth o)) /\
  (req_body (fetch_request c auth o) = None <-> js_truthy (body o) = false).
Proof.
  split; [|split].
  - unfold fetch_request, js_truthy; cbn.
    destruct (body o) as [b|]; cbn; [destruct (truthy b)|]; reflexivity.
  - intros T answer. reflexivity.
  - unfold fetch_request, js_truthy; cbn.
    destruct (body o) as [b|]; cbn; [destruct (truthy b)|]; split; congruence.
Qed.

(** ** Response parsing *)

(** C6. A successful response with status 204 gives [null]; no body reader is
    called, and neither the [content-type] header nor the body matters. This
    is also what [makeRequest] returns for such an answer of the transport. *)
Theorem no_content_is_null {T : Type} (r : Response T) :
  ok r = true -> status r = 204 ->
  parseResponse r = ([], Fulfilled ParsedNull) /\
  (forall c auth o,
      snd (makeRequest c (Fulfilled auth) (Fulfilled r) o) = Fulfilled ParsedNull).
Proof.
  intros Hok Hst. unfold makeRequest, parseResponse. rewrite Hok, Hst. cbn.
  split; reflexivity.
Qed.

Lemma no_content_is_null_witness :
  let r := mkResponse true 204 "No Content" [("Content-Type", "application/json")]
                      (Read "{ not json") (@ReadError JSON "SyntaxError") in
  Headers_get "content-type" (headers r) = Some "application/json" /\
  parseResponse r = ([], Fulfilled ParsedNull).
Proof.
  cbn zeta. split; [reflexivity|].
  apply (no_content_is_null
           (mkResponse true 204 "No Content" [("Content-Type", "application/json")]
                       (Read "{ not json") (@ReadError JSON "SyntaxError"))); reflexivity.
Defined.

(** ** Basic facts about events *)

Lemma run_app (tr1 tr2 : list Event) (w : World) :
  run (tr1 ++ tr2) w = run tr2 (run tr1 w).
Proof. unfold run. apply fold_left_app. Qed.

Lemma run_cons (e : Event) (tr : list Event) (w : World) :
  run (e :: tr) w = run tr (step e w).
Proof. reflexivity. Qed.

Lemma step_credentials (e : Event) (w : World) :
  oauthCredentials (client (step e w)) = oauthCredentials (client w) /\
  bearerToken (client (step e w)) = bearerToken (client w) /\
  baseURL (client (step e w)) = baseURL (client w).
Proof.
  destruct e; unfold_step; repeat case_match; simplify_eq; cbn; auto.
Qed.

Lemma run_credentials (tr : list Event) (w : World) :
  oauthCredentials (client (run tr w)) = oauthCredentials (client w) /\
  bearerToken (client (run tr w)) = bearerToken (client w).
Proof.
  revert w. induction tr as [|e tr IH]; intros w; [split; reflexivity|].
  rewrite run_cons. destruct (IH (step e w)) as [-> ->].
  destruct (step_credentials e w) as (-> & -> & _). split; reflexivity.
Qed.

Lemma step_keeps_cache (e : Event) (w : World) :
  replaces_cache e = false -> tokenCache (client (step e w)) = tokenCache (client w).
Proof.
  destruct e; try discriminate; intros _; unfold_step; repeat case_match; simplify_eq;
    cbn; auto.
Qed.

Lemma run_keeps_cache (tr : list Event) (w : World) :
  forallb (fun e => negb (replaces_cache e)) tr = true ->
  tokenCache (client (run tr w)) = tokenCache (client w).
Proof.
  revert w. induction tr as [|e tr IH]; intros w H; [reflexivity|].
  cbn in H. apply andb_true_iff in H as [He Htr]. apply negb_true_iff in He.
  rewrite run_cons, IH by exact Htr. apply step_keeps_cache, He.
Qed.

Lemma step_now (e : Event) (w : World) : now w <= now (step e w).
Proof.
  destruct e; unfold_step; repeat case_match; simplify_eq; cbn; lia.
Qed.

Lemma run_now (tr : list Event) (w : World) : now w <= now (run tr w).
Proof.
  revert w. induction tr as [|e tr IH]; intros w; [cbn; lia|].
  rewrite run_cons. pose proof (step_now e w). pose proof (IH (step e w)). lia.
Qed.

Lemma isTokenValid_false_iff (c : APIClient) (t : Z) :
  isTokenValid c t = false <->
  tokenCache c = None \/ exists tc, tokenCache c = Some tc /\ expires_at tc <= t + 60000.
Proof.
  unfold isTokenValid, TOKEN_BUFFER_MS. destruct (tokenCache c) as [tc|].
  - rewrite Z.ltb_ge. split.
    + intros H. right. exists tc. split; [reflexivity | lia].
    + intros [H | (tc' & [= <-] & H)]; [discriminate | lia].
  - split; auto.
Qed.

Lemma isTokenValid_true_iff (c : APIClient) (t : Z) :
  isTokenValid c t = true <->
  exists tc, tokenCache c = Some tc /\ t + 60000 < expires_at tc.
Proof.
  unfold isTokenValid, TOKEN_BUFFER_MS. destruct (tokenCache c) as [tc|].
  - rewrite Z.ltb_lt. split.
    + intros H. exists tc. split; [reflexivity | lia].
    + intros (tc' & [= <-] & H). lia.
  - split; [discriminate | intros (tc & [=] & _)].
Qed.

Lemma isTokenValid_later (c : APIClient) (t t' : Z) :
  isTokenValid c t = false -> t <= t' -> isTokenValid c t' = false.
Proof.
  rewrite !isTokenValid_false_iff. intros [H | (tc & H & Hle)] Ht; [auto|].
  right. exists tc. split; [exact H | lia].
Qed.

(** The three ways in which an activation of [authHeaders] of an OAuth
    client can go. *)
Lemma call_cached (w : World) (creds : OAuthCredentials) (tc : TokenCache) :
  oauthCredentials (client w) = Some creds ->
  tokenCache (client w) = Some tc -> now w + 60000 < expires_at tc ->
  step CallAuthHeaders w
  = push_caller (Returned (Fulfilled (Authorization (access_token tc)))) w.
Proof.
  intros Ho Hc Hv. cbn. unfold authHeaders_call, getOAuthToken_call.
  rewrite Ho, Hc.
  assert (isTokenValid (client w) (now w) = true) as ->; [|reflexivity].
  apply isTokenValid_true_iff. eauto.
Qed.

Lemma call_joins (w : World) (creds : OAuthCredentials) (p : PromiseId) :
  oauthCredentials (client w) = Some creds ->
  isTokenValid (client w) (now w) = false -> refreshPromise (client w) = Some p ->
  step CallAuthHeaders w = push_caller (AwaitJoined p) w.
Proof.
  intros Ho Hv Hp. cbn. unfold authHeaders_call, getOAuthToken_call.
  rewrite Ho, Hv, Hp. destruct (tokenCache (client w)); reflexivity.
Qed.

Lemma call_starts_exchange (w : World) (creds : OAuthCredentials) :
  oauthCredentials (client w) = Some creds ->
  isTokenValid (client w) (now w) = false -> refreshPromise (client w) = None ->
  step CallAuthHeaders w
  = {| client := set_refreshPromise (Some (length (promises w))) (client w);
       now := now w;
       promises := promises w ++ [AwaitFetch];
       callers := callers w ++ [AwaitRefresh (length (promises w))];
       fetchLog := fetchLog w ++ [token_request creds] |}.
Proof.
  intros Ho Hv Hp. cbn. unfold authHeaders_call, getOAuthToken_call, fetchOAuthToken_call.
  rewrite Ho, Hv, Hp. destruct (tokenCache (client w)); reflexivity.
Qed.

(** ** Error normalisation *)

(** A response of the platform that is not 2xx has [ok] unset. *)
Lemma non_2xx_not_ok {T : Type} (r : Response T) :
  Response_wf r -> status_2xx (status r) = false -> ok r = false.
Proof. unfold Response_wf. congruence. Qed.

(** An exchange answered by a response that is not [ok] settles as the
    reader of its text does. *)
Lemma refused_exchange (w : World) (p : PromiseId) (r : Response TokenJson) :
  promises w !! p = Some AwaitFetch -> ok r = false ->
  promises (run [FetchFulfil p r; BodyRead p] w) !! p
  = Some (Settled (fetchOAuthToken_failure r)).
Proof.
  intros Hp Hok. cbn. unfold fetch_fulfil. rewrite Hp.
  unfold fetchOAuthToken_response. rewrite Hok.
  assert (Hlt : (p < length (promises w))%nat) by (eapply lookup_lt_Some; eauto).
  unfold body_read. cbn. rewrite list_lookup_insert_eq by exact Hlt. cbn.
  rewrite list_lookup_insert_eq; [reflexivity|]. rewrite length_insert. exact Hlt.
Qed.

(** C3, as stated, fails: on a response that is not 2xx the failure raised
    is not always an [R2CError]. When the body of the response cannot be
    read, [response.text()] rejects, and both [parseResponse] and the token
    exchange fail with the exception of the reader, which carries no status,
    no headers and no body. *)
Lemma unreadable_body_raises_reader_error :
  let r T := mkResponse false 502 "Bad Gateway" [] (ReadError "TypeError")
                        (@ReadError T "TypeError") in
  let w := run [CallAuthHeaders; FetchFulfil 0%nat (r TokenJson); BodyRead 0%nat; Resume 0%nat]
               (init_world sample_oauth_client 0) in
  status_2xx 502 = false /\
  parseResponse (r JSON) = ([ReadText], Rejected (ThrowOther "TypeError")) /\
  (forall c auth o,
      snd (makeRequest c (Fulfilled auth) (Fulfilled (r JSON)) o)
      = Rejected (ThrowOther "TypeError")) /\
  promises w !! 0%nat = Some (Settled (Rejected (ThrowOther "TypeError"))) /\
  callers w !! 0%nat = Some (Returned (Rejected (ThrowOther "TypeError"))).
Proof. cbn. repeat split; reflexivity. Qed.

(** C3, amended. On a response that is not [ok] whose body has been read as
    text, [parseResponse] throws an [R2CError] with the status, the headers
    and that text, the message made of the status and the text (the status
    text when the body is empty), and this is what [makeRequest] fails with;
    a token exchange answered by such a response rejects with an [R2CError]
    with the status, the headers and the text, the status being part of the
    message, and the caller that started the exchange gets this error. A 401
    exchange response with body [bad creds] gives status 401 and raw body
    [bad creds]. When the reader of the text rejects, its exception is
    raised as it is. The platform leaves [ok] unset for every status outside
    200-299 (last part). *)
Theorem non_ok_response_raises_R2CError :
  (forall T (r : Response T) (body : string),
      ok r = false -> text r = Read body ->
      let e := {| message := "HTTP Error " +:+ String_of_number (status r) +:+ ": " +:+
                             (if String.eqb body "" then statusText r else body);
                  err_status := Some (status r);
                  err_headers := Some (headers r);
                  error := Some body |} in
      parseResponse r = ([ReadText], Rejected (ThrowR2C e)) /\
      forall c auth o,
        snd (makeRequest c (Fulfilled auth) (Fulfilled r) o) = Rejected (ThrowR2C e)) /\
  (forall w p i (r : Response TokenJson) (body : string),
      promises w !! p = Some AwaitFetch -> callers w !! i = Some (AwaitRefresh p) ->
      ok r = false -> text r = Read body ->
      let e := {| message := "Authentication failed: " +:+ String_of_number (status r) +:+
                             " " +:+ body;
                  err_status := Some (status r);
                  err_headers := Some (headers r);
                  error := Some body |} in
      promises (run [FetchFulfil p r; BodyRead p] w) !! p
      = Some (Settled (Rejected (ThrowR2C e))) /\
      callers (run [FetchFulfil p r; BodyRead p; Resume i] w) !! i
      = Some (Returned (Rejected (ThrowR2C e)))) /\
  (forall w p hs js,
      promises w !! p = Some AwaitFetch ->
      promises (run [FetchFulfil p (mkResponse false 401 "Unauthorized" hs
                                                 (Read "bad creds") js);
                     BodyRead p] w) !! p
      = Some (Settled (Rejected (ThrowR2C
                {| message := "Authentication failed: 401 bad creds";
                   err_status := Some 401;
                   err_headers := Some hs;
                   error := Some "bad creds" |})))) /\
  (forall T (r : Response T) (what : string),
      ok r = false -> text r = ReadError what ->
      parseResponse r = ([ReadText], Rejected (ThrowOther what))) /\
  (forall w p (r : Response TokenJson) (what : string),
      promises w !! p = Some AwaitFetch -> ok r = false -> text r = ReadError what ->
      promises (run [FetchFulfil p r; BodyRead p] w) !! p
      = Some (Settled (Rejected (ThrowOther what)))) /\
  (forall T (r : Response T),
      Response_wf r -> (status r < 200 \/ 299 < status r) -> ok r = false).
Proof.
  split; [|split; [|split; [|split; [|split]]]].
  - intros T r body Hok Htext e. unfold makeRequest, parseResponse.
    rewrite Hok, Htext. cbn. split; reflexivity.
  - intros w p i r body Hp Hi Hok Htext e.
    pose proof (refused_exchange w p r Hp Hok) as Hset.
    unfold fetchOAuthToken_failure in Hset. rewrite Htext in Hset.
    split; [exact Hset|].
    change [FetchFulfil p r; BodyRead p; Resume i]
      with ([FetchFulfil p r; BodyRead p] ++ [Resume i]).
    rewrite run_app.
    assert (Hcs : callers (run [FetchFulfil p r; BodyRead p] w) = callers w).
    { cbn. unfold fetch_fulfil, body_read, fetchOAuthToken_response.
      rewrite Hp, Hok. cbn.
      rewrite list_lookup_insert_eq by (eapply lookup_lt_Some; eauto). reflexivity. }
    generalize dependent (run [FetchFulfil p r; BodyRead p] w). intros w1 Hset Hcs.
    cbn. unfold resume. rewrite Hcs, Hi, Hset. cbn.
    apply list_lookup_insert_eq. eapply lookup_lt_Some; eauto.
  - intros w p hs js Hp. rewrite refused_exchange by (assumption || reflexivity).
    reflexivity.
  - intros T r what Hok Htext. unfold parseResponse. rewrite Hok, Htext. reflexivity.
  - intros w p r what Hp Hok Htext. rewrite refused_exchange by assumption.
    unfold fetchOAuthToken_failure. rewrite Htext. reflexivity.
  - intros T r Hwf Hst. apply non_2xx_not_ok; [exact Hwf|].
    unfold status_2xx. apply andb_false_iff. rewrite Z.leb_gt, Z.leb_gt. lia.
Qed.

Lemma non_ok_response_raises_R2CError_witness :
  let w := run [CallAuthHeaders] (init_world sample_oauth_client 0) in
  let r := mkResponse false 401 "Unauthorized" [("WWW-Authenticate", "Bearer")]
                      (Read "bad creds") (@ReadError TokenJson "SyntaxError") in
  promises w !! 0%nat = Some AwaitFetch /\
  callers (run [FetchFulfil 0%nat r; BodyRead 0%nat; Resume 0%nat] w) !! 0%nat
  = Some (Returned (Rejected (ThrowR2C
            {| message := "Authentication failed: 401 bad creds";
               err_status := Some 401;
               err_headers := Some [("WWW-Authenticate", "Bearer")];
               error := Some "bad creds" |}))).
Proof.
  cbn zeta. split; [reflexivity|].
  destruct non_ok_response_raises_R2CError as (_ & Hexchange & _).
  exact (proj2 (Hexchange (run [CallAuthHeaders] (init_world sample_oauth_client 0))
                  0%nat 0%nat
                  (mkResponse false 401 "Unauthorized" [("WWW-Authenticate", "Bearer")]
                              (Read "bad creds") (@ReadError TokenJson "SyntaxError"))
                  "bad creds" eq_refl eq_refl eq_refl eq_refl)).
Defined.

(** ** Static bearer token *)

Lemma bearer_call (t : string) (w : World) :
  oauthCredentials (client w) = None -> bearerToken (client w) = Some t -> t <> "" ->
  step CallAuthHeaders w = push_caller (Returned (Fulfilled (Authorization t))) w.
Proof.
  intros Ho Hb Ht. cbn. unfold authHeaders_call. rewrite Ho, Hb.
  apply str_truthy_Some in Ht. rewrite Ht. reflexivity.
Qed.

Lemma bearer_world_step (t : string) (e : Event) (w : World) :
  bearer_world t w -> bearer_world t (step e w).
Proof.
  intros (Ho & Hb & Ht & Hlog & Hps & Hcs).
  destruct e.
  - repeat split; auto.
  - rewrite (bearer_call t) by assumption. repeat split; auto. cbn.
    intros i cl Hi. apply lookup_app_Some in Hi as [Hi | [_ Hi]]; [eauto|].
    apply list_lookup_singleton_Some in Hi as [_ <-]. reflexivity.
  - cbn. unfold fetch_fulfil. rewrite Hps. cbn. repeat split; auto.
  - cbn. unfold fetch_reject. rewrite Hps. cbn. repeat split; auto.
  - cbn. unfold body_read. rewrite Hps. cbn. repeat split; auto.
  - cbn. unfold resume. destruct (callers w !! i) as [[p|p|o]|] eqn:Hi;
      try (repeat split; auto; fail);
      rewrite Hps; cbn; repeat split; auto.
  - repeat split; auto.
  - repeat split; auto.
Qed.

Lemma bearer_world_run (t : string) (tr : list Event) (w : World) :
  bearer_world t w -> bearer_world t (run tr w).
Proof.
  revert w. induction tr as [|e tr IH]; intros w H; [exact H|].
  rewrite run_cons. apply IH, bearer_world_step, H.
Qed.

(** C4. A client constructed with a static [bearerToken] and no
    [oauthCredentials] answers every token resolution at once with that
    token: whatever events came before, the call returns the header
    [Authorization: Bearer <token>] of the configured token without
    suspending and changes nothing else, the transport has never been
    called, the client (its token cache included) is left as it was, the
    answer is the same whatever the cache holds, and every earlier
    resolution has returned the same header. *)
Theorem bearer_token_resolution (o : ClientOptions) (c : APIClient) (t : string)
    (t0 : Z) (tr : list Event) :
  R2CClient_new o = inr c ->
  opt_bearerToken o = Some t -> opt_oauthCredentials o = None ->
  let w := run tr (init_world c t0) in
  let header : StrRecord := [("Authorization", "Bearer " +:+ t)] in
  step CallAuthHeaders w
  = {| client := client w; now := now w; promises := promises w;
       callers := callers w ++ [Returned (Fulfilled header)];
       fetchLog := fetchLog w |} /\
  fetchLog (step CallAuthHeaders w) = [] /\
  promises (step CallAuthHeaders w) = [] /\
  client (step CallAuthHeaders w) = client w /\
  (forall cache,
      callers (step CallAuthHeaders (with_client (set_tokenCache cache (client w)) w))
      = callers w ++ [Returned (Fulfilled header)]) /\
  (forall i cl, callers w !! i = Some cl -> cl = Returned (Fulfilled header)).
Proof.
  intros Hnew Hb Ho w header.
  rewrite R2CClient_new_cases, Hb, Ho in Hnew.
  destruct (str_truthy (Some t)) eqn:Ht; [|discriminate].
  injection Hnew as <-. apply str_truthy_Some in Ht.
  assert (Hw : bearer_world t w).
  { apply bearer_world_run. repeat split; auto. intros i cl Hi. discriminate. }
  destruct Hw as (Ho' & Hb' & _ & Hlog & Hps & Hcs).
  rewrite (bearer_call t w) by assumption.
  split; [reflexivity|]. repeat split; auto.
  intros cache. rewrite (bearer_call t); auto.
Qed.

Lemma bearer_token_resolution_witness :
  let o := mkClientOptions (Some "t1") None None in
  let w := run [CallAuthHeaders; SetToken "other" 3600; Tick 5; CallAuthHeaders]
               (init_world (APIClient_new (mkAPIClientOptions
                                             (Some default_baseURL) (Some "t1") None)) 0) in
  callers (step CallAuthHeaders w) !! 2%nat
  = Some (Returned (Fulfilled [("Authorization", "Bearer t1")])) /\
  fetchLog (step CallAuthHeaders w) = [].
Proof.
  cbn zeta.
  pose proof (bearer_token_resolution
                (mkClientOptions (Some "t1") None None)
                (APIClient_new (mkAPIClientOptions (Some default_baseURL) (Some "t1") None))
                "t1" 0
                [CallAuthHeaders; SetToken "other" 3600; Tick 5; CallAuthHeaders]
                eq_refl eq_refl eq_refl) as (Hcall & Hlog & _).
  split; [|exact Hlog]. rewrite Hcall. reflexivity.
Defined.

(** ** Token exchange and the cache *)

Lemma fetchOAuthToken_data_spec (t : Z) (r : Response TokenJson) (c : APIClient) :
  ok r = true ->
  fetchOAuthToken_data t r c
  = (exchange_outcome r, set_tokenCache (cache_after r t (tokenCache c)) c).
Proof.
  intros Hok. unfold fetchOAuthToken_data, cache_after, exchange_outcome. rewrite Hok.
  destruct c as [b bt oc tcache rp]. unfold set_tokenCache; cbn.
  destruct (json r) as [[|[[tok|] [secs|]]]|what]; cbn; try reflexivity.
  - destruct (String.eqb tok ""), (secs =? 0); reflexivity.
  - destruct (String.eqb tok ""); reflexivity.
Qed.

Lemma fetchOAuthToken_failure_spec (r : Response TokenJson) :
  ok r = false ->
  fetchOAuthToken_failure r = exchange_outcome r /\
  exists e, exchange_outcome r = Rejected e.
Proof.
  intros Hok. unfold fetchOAuthToken_failure, exchange_outcome. rewrite Hok.
  destruct (text r); eauto.
Qed.

(** A pending exchange runs to completion: the response arrives, time
    passes, the body reader settles. *)
Lemma exchange_completes (w : World) (p : PromiseId) (r : Response TokenJson) (dt : N) :
  promises w !! p = Some AwaitFetch ->
  run [FetchFulfil p r; Tick dt; BodyRead p] w
  = {| client := set_tokenCache (cache_after r (now w + Z.of_N dt) (tokenCache (client w)))
                                (client w);
       now := now w + Z.of_N dt;
       promises := <[p := Settled (exchange_outcome r)]> (promises w);
       callers := callers w;
       fetchLog := fetchLog w |}.
Proof.
  intros Hp.
  assert (Hlt : (p < length (promises w))%nat) by (eapply lookup_lt_Some; eauto).
  cbn. unfold fetch_fulfil. rewrite Hp. unfold fetchOAuthToken_response, body_read.
  destruct (ok r) eqn:Hok; cbn; rewrite list_lookup_insert_eq by exact Hlt.
  - rewrite fetchOAuthToken_data_spec by exact Hok. cbn.
    rewrite list_insert_insert_eq. reflexivity.
  - cbn. rewrite list_insert_insert_eq.
    destruct (fetchOAuthToken_failure_spec r Hok) as (-> & e & He).
    unfold cache_after. rewrite He.
    destruct w as [[b bt oc tcache rp] nw ps cs lg]; reflexivity.
Qed.

(** C9. A token exchange that fails leaves the cached token as it was,
    whatever that token is: a response that is not [ok], a body that cannot
    be read as JSON, a body that is [null], a missing or falsy
    [access_token] or [expires_in], and also a rejection by the transport.
    The arrival of the response alone never touches the cache, and the cache
    differs after the exchange only when the response was [ok] with a
    non-empty [access_token] and a non-zero [expires_in], in which case it
    holds exactly that token. *)
Theorem failed_exchange_keeps_cache (w : World) (p : PromiseId) (r : Response TokenJson)
    (dt : N) :
  promises w !! p = Some AwaitFetch ->
  let w' := run [FetchFulfil p r; Tick dt; BodyRead p] w in
  (ok r = false \/ (exists what, json r = ReadError what) \/ json r = Read DataNull \/
   (exists d, json r = Read (Data d) /\
              (str_truthy (data_access_token d) = false \/
               num_truthy (data_expires_in d) = false)) ->
   exists e, promises w' !! p = Some (Settled (Rejected e)) /\
             tokenCache (client w') = tokenCache (client w)) /\
  (forall e, promises w' !! p = Some (Settled (Rejected e)) ->
             tokenCache (client w') = tokenCache (client w)) /\
  tokenCache (client (step (FetchFulfil p r) w)) = tokenCache (client w) /\
  (forall what,
      tokenCache (client (step (FetchReject p what) w)) = tokenCache (client w) /\
      promises (step (FetchReject p what) w) !! p
      = Some (Settled (Rejected (ThrowOther what)))) /\
  (tokenCache (client w') <> tokenCache (client w) ->
   ok r = true /\
   exists tok secs,
     json r = Read (Data (mkTokenData (Some tok) (Some secs))) /\ tok <> "" /\ secs <> 0 /\
     promises w' !! p = Some (Settled (Fulfilled tok)) /\
     tokenCache (client w')
     = Some {| access_token := tok; expires_at := now w + Z.of_N dt + secs * 1000 |}).
Proof.
  intros Hp w'. subst w'. rewrite exchange_completes by exact Hp.
  assert (Hlt : (p < length (promises w))%nat) by (eapply lookup_lt_Some; eauto).
  cbn [promises client tokenCache set_tokenCache].
  rewrite list_lookup_insert_eq by exact Hlt.
  assert (Hrej : forall e, exchange_outcome r = Rejected e ->
                           cache_after r (now w + Z.of_N dt) (tokenCache (client w))
                           = tokenCache (client w)).
  { intros e He. unfold cache_after. rewrite He. reflexivity. }
  split; [|split; [|split; [|split]]].
  - intros Hfail.
    assert (exists e, exchange_outcome r = Rejected e) as [e He].
    { destruct (ok r) eqn:Hok; [|apply fetchOAuthToken_failure_spec, Hok].
      unfold exchange_outcome. rewrite Hok.
      destruct Hfail as [Hf | [[what Hf] | [Hf | (d & Hd & Hf)]]];
        [discriminate | rewrite Hf; eauto | rewrite Hf; eauto |].
      rewrite Hd. destruct d as [[tok|] [secs|]]; cbn in *; eauto.
      destruct Hf as [Hf | Hf]; apply negb_false_iff in Hf; rewrite Hf; cbn; eauto.
      rewrite orb_true_r. eauto. }
    exists e. rewrite He. split; [reflexivity | eapply Hrej, He].
  - intros e [= He]. eapply Hrej, He.
  - cbn. unfold fetch_fulfil. rewrite Hp. reflexivity.
  - intros what. cbn. unfold fetch_reject. rewrite Hp. cbn.
    rewrite list_lookup_insert_eq by exact Hlt. split; reflexivity.
  - intros Hne. clear Hrej.
    destruct (ok r) eqn:Hok.
    + split; [reflexivity|]. unfold cache_after, exchange_outcome in *. rewrite Hok in *.
      destruct (json r) as [[|[[tok|] [secs|]]]|what]; cbn in *; try congruence.
      destruct (String.eqb_spec tok ""); cbn in *; [congruence|].
      destruct (Z.eqb_spec secs 0); cbn in *; [congruence|].
      exists tok, secs. repeat split; auto.
    + exfalso. apply Hne. destruct (fetchOAuthToken_failure_spec r Hok) as (_ & e & He).
      unfold cache_after. rewrite He. reflexivity.
Qed.

Lemma failed_exchange_keeps_cache_witness :
  let w := run [SetToken "old" 30; CallAuthHeaders] (init_world sample_oauth_client 0) in
  let r := mkResponse true 200 "OK" []
                      (Read (JSON_stringify (JObj [("access_token", JStr "new")])))
                      (Read (Data (mkTokenData (Some "new") None))) in
  let w' := run [FetchFulfil 0%nat r; Tick 0; BodyRead 0%nat] w in
  promises w !! 0%nat = Some AwaitFetch /\
  tokenCache (client w') = Some {| access_token := "old"; expires_at := 30000 |}.
Proof.
  cbn zeta.
  set (w := run [SetToken "old" 30; CallAuthHeaders] (init_world sample_oauth_client 0)).
  set (r := mkResponse true 200 "OK" [] _ (Read (Data (mkTokenData (Some "new") None)))).
  split; [reflexivity|].
  destruct (failed_exchange_keeps_cache w 0%nat r 0%N eq_refl) as (_ & Hrej & _).
  rewrite (Hrej (ThrowR2C invalid_token_response) eq_refl). reflexivity.
Defined.

(** ** Token resolution in OAuth mode *)

(** The token request, member by member. *)
Lemma token_request_explicit (creds : OAuthCredentials) :
  token_request creds
  = {| url := match identity_url creds with
              | Some u => u
              | None => "https://www.r2clive.com/identity"
              end +:+ "/connect/token";
       method := Some "POST";
       req_headers := [("Content-Type", "application/x-www-form-urlencoded");
                       ("Accept", "application/json")];
       req_body := Some (URLSearchParams_toString
                           [("username", username creds);
                            ("password", password creds);
                            ("siteid", site_id creds);
                            ("grant_type", "password");
                            ("client_id", client_id creds);
                            ("client_secret", client_secret creds);
                            ("scope", "openid")]);
       init_other_members := [] |}.
Proof. reflexivity. Qed.

(** Resumption of a caller: nothing happens unless the promise it awaits
    has settled, and then only this caller and the refresh handle change. *)
Lemma resume_cases (i : nat) (w : World) :
  promises (resume i w) = promises w /\
  fetchLog (resume i w) = fetchLog w /\
  ((callers (resume i w) = callers w /\
    forall q oq, (callers w !! i = Some (AwaitRefresh q) \/
                  callers w !! i = Some (AwaitJoined q)) ->
                 promises w !! q <> Some (Settled oq)) \/
   exists q oq, (callers w !! i = Some (AwaitRefresh q) \/
                 callers w !! i = Some (AwaitJoined q)) /\
                promises w !! q = Some (Settled oq) /\
                callers (resume i w) = <[i := Returned (authHeaders_result oq)]> (callers w)).
Proof.
  unfold resume.
  destruct (callers w !! i) as [[q|q|o']|] eqn:Hi;
    try (repeat split; left; split; [reflexivity|]; intros q' oq' [H | H]; discriminate);
    (destruct (promises w !! q) as [[| | |oq]|] eqn:Hq;
     [| | |repeat split; right; exists q, oq; auto |];
     repeat split; left; (split; [reflexivity|]);
     intros q' oq' [H | H]; try discriminate; injection H as <-; congruence).
Qed.

(** Reading a body changes neither the refresh handle nor the callers. *)
Lemma body_read_handle (p : PromiseId) (w : World) :
  refreshPromise (client (body_read p w)) = refreshPromise (client w) /\
  callers (body_read p w) = callers w /\
  length (promises (body_read p w)) = length (promises w).
Proof.
  unfold body_read. destruct (promises w !! p) as [[|r|r|o]|]; auto.
  - cbn. rewrite length_insert. auto.
  - assert (Hrp : refreshPromise (snd (fetchOAuthToken_data (now w) r (client w)))
                  = refreshPromise (client w)).
    { unfold fetchOAuthToken_data. repeat case_match; reflexivity. }
    destruct (fetchOAuthToken_data (now w) r (client w)) as [o c]. cbn in *.
    rewrite length_insert. auto.
Qed.

(** A settled promise stays settled, with the same outcome. *)
Lemma step_settled (e : Event) (w : World) (q : PromiseId) (o : Settle string) :
  promises w !! q = Some (Settled o) -> promises (step e w) !! q = Some (Settled o).
Proof.
  intros Hq.
  assert (Hins : forall p x, promises w !! p <> Some (Settled o) \/ p <> q ->
                   forall y, promises w !! p = Some y -> y <> Settled o \/ p <> q ->
                   (<[p := x]> (promises w)) !! q = Some (Settled o)).
  { intros p x _ y Hp Hy. destruct (decide (p = q)) as [->|Hne].
    - destruct Hy as [Hy | Hy]; [|congruence]. rewrite Hq in Hp. congruence.
    - rewrite list_lookup_insert_ne by exact Hne. exact Hq. }
  destruct e as [dt| |p r|p what|p|i|t ttl|]; cbn [step].
  - exact Hq.
  - unfold authHeaders_call, getOAuthToken_call, fetchOAuthToken_call.
    repeat case_match; simplify_eq; cbn; try exact Hq; apply lookup_app_l_Some, Hq.
  - unfold fetch_fulfil. destruct (promises w !! p) as [[| | |o']|] eqn:Hp; try exact Hq.
    cbn. eapply Hins; eauto; left; congruence.
  - unfold fetch_reject. destruct (promises w !! p) as [[| | |o']|] eqn:Hp; try exact Hq.
    cbn. eapply Hins; eauto; left; congruence.
  - unfold body_read. destruct (promises w !! p) as [[|r|r|o']|] eqn:Hp; try exact Hq.
    + cbn. eapply Hins; eauto; left; congruence.
    + destruct (fetchOAuthToken_data (now w) r (client w)) as [o'' c]. cbn.
      eapply Hins; eauto; left; congruence.
  - rewrite (proj1 (resume_cases i w)). exact Hq.
  - exact Hq.
  - exact Hq.
Qed.

(** Only its own resumption changes the state of a caller. *)
Lemma step_caller_kept (e : Event) (w : World) (i : nat) (c : Caller) :
  callers w !! i = Some c -> e <> Resume i -> callers (step e w) !! i = Some c.
Proof.
  intros Hi He.
  destruct e as [dt| |p r|p what|p|j|t ttl|]; cbn [step].
  - exact Hi.
  - unfold authHeaders_call, getOAuthToken_call, fetchOAuthToken_call.
    repeat case_match; simplify_eq; cbn; apply lookup_app_l_Some, Hi.
  - unfold fetch_fulfil. repeat case_match; exact Hi.
  - unfold fetch_reject. repeat case_match; exact Hi.
  - rewrite (proj1 (proj2 (body_read_handle p w))). exact Hi.
  - destruct (resume_cases j w) as (_ & _ & [[-> _] | (q & oq & _ & _ & ->)]); [exact Hi|].
    rewrite list_lookup_insert_ne; [exact Hi|]. intros ->. apply He. reflexivity.
  - exact Hi.
  - exact Hi.
Qed.

(** A caller that joined a promise waits for it until it returns the
    outcome of that promise, whatever else happens. *)
Lemma joined_or_returned_step (e : Event) (w : World) (i : nat) (q : PromiseId) :
  joined_or_returned i q w -> joined_or_returned i q (step e w).
Proof.
  intros H.
  assert (Hother : e <> Resume i -> joined_or_returned i q (step e w)).
  { intros He. destruct H as [Hi | (o & Hq & Hi)].
    - left. apply step_caller_kept; assumption.
    - right. exists o. split; [apply step_settled, Hq|].
      apply step_caller_kept; assumption. }
  destruct e as [dt| |p r|p what|p|j|t ttl|]; try (apply Hother; discriminate).
  destruct (decide (j = i)) as [->|Hne]; [|apply Hother; congruence].
  destruct H as [Hi | (o & Hq & Hi)].
  - cbn [step]. unfold resume. rewrite Hi.
    destruct (promises w !! q) as [[| | |o]|] eqn:Hq; try (left; exact Hi).
    right. exists o. cbn. split; [exact Hq|].
    apply list_lookup_insert_eq. eapply lookup_lt_Some; eauto.
  - right. exists o. split; [apply step_settled, Hq|].
    cbn [step]. unfold resume. rewrite Hi. exact Hi.
Qed.

Lemma joined_or_returned_run (tr : list Event) (w : World) (i : nat) (q : PromiseId) :
  joined_or_returned i q w -> joined_or_returned i q (run tr w).
Proof.
  revert w. induction tr as [|e tr IH]; intros w H; [exact H|].
  rewrite run_cons. apply IH, joined_or_returned_step, H.
Qed.

(** A caller that joined the promise [q] and is resumed once [q] has
    settled returns the outcome of [q]; nothing else changes. *)
Lemma joined_caller_resumes (w : World) (i : nat) (q : PromiseId) (o : Settle string) :
  callers w !! i = Some (AwaitJoined q) -> promises w !! q = Some (Settled o) ->
  step (Resume i) w
  = {| client := client w; now := now w; promises := promises w;
       callers := <[i := Returned match o with
                                   | Fulfilled tok =>
                                       Fulfilled [("Authorization", "Bearer " +:+ tok)]
                                   | Rejected e => Rejected e
                                   end]> (callers w);
       fetchLog := fetchLog w |}.
Proof.
  intros Hi Hq. cbn. unfold resume. rewrite Hi, Hq. destruct o; reflexivity.
Qed.

(** C2, as stated, fails: a resolution that finds no cached token while the
    refresh handle is set performs no exchange of its own. First trace: an
    exchange is in flight; the transport is not called again and the caller
    waits for the exchange under way. Second trace: the exchange has already
    failed and the caller that started it has not yet run its [finally], so
    that no exchange is in flight; the new caller gets the old failure and
    the transport is not called. *)
Lemma resolution_joins_exchange_in_flight :
  (let w := run [CallAuthHeaders] (init_world sample_oauth_client 0) in
   oauthCredentials (client w) = Some sample_credentials /\
   tokenCache (client w) = None /\
   length (fetchLog w) = 1%nat /\
   promises w = [AwaitFetch] /\
   fetchLog (step CallAuthHeaders w) = fetchLog w /\
   promises (step CallAuthHeaders w) = promises w /\
   callers (step CallAuthHeaders w) !! 1%nat = Some (AwaitJoined 0%nat)) /\
  (let r := token_refused 401 "Unauthorized" "bad creds" in
   let e := {| message := "Authentication failed: 401 bad creds";
               err_status := Some 401; err_headers := Some []; error := Some "bad creds" |} in
   let w := run [CallAuthHeaders; FetchFulfil 0%nat r; BodyRead 0%nat]
                (init_world sample_oauth_client 0) in
   tokenCache (client w) = None /\
   promises w = [Settled (Rejected (ThrowR2C e))] /\
   length (fetchLog w) = 1%nat /\
   fetchLog (run [CallAuthHeaders; Resume 1%nat] w) = fetchLog w /\
   promises (run [CallAuthHeaders; Resume 1%nat] w) = promises w /\
   callers (run [CallAuthHeaders; Resume 1%nat] w) !! 1%nat
   = Some (Returned (Rejected (ThrowR2C e)))).
Proof. split; cbn; repeat split; reflexivity. Qed.

(** C2, amended. In OAuth mode a resolution call goes one of three ways.
    A cached token whose expiry is strictly later than the current time plus
    60 seconds is returned at once, without a call to the transport. When
    the cached token is absent, expired or within 60 seconds of expiry and
    the refresh handle is clear, the call makes exactly one call to the token
    endpoint; when that exchange succeeds the cache is replaced with the new
    token, the caller gets it, and the transport has still been called
    exactly once. When the refresh handle is set, because an exchange is in
    flight or because one has settled and the call that started it has not
    resumed yet, the call starts no exchange and makes no call to the
    transport: it waits for the promise that the handle holds and, resumed
    at any later time at which that promise has settled, returns its
    outcome. *)
Theorem oauth_token_resolution (w : World) (creds : OAuthCredentials) :
  oauthCredentials (client w) = Some creds ->
  let i := length (callers w) in
  let p := length (promises w) in
  let request :=
    {| url := match identity_url creds with
              | Some u => u
              | None => "https://www.r2clive.com/identity"
              end +:+ "/connect/token";
       method := Some "POST";
       req_headers := [("Content-Type", "application/x-www-form-urlencoded");
                       ("Accept", "application/json")];
       req_body := Some (URLSearchParams_toString
                           [("username", username creds);
                            ("password", password creds);
                            ("siteid", site_id creds);
                            ("grant_type", "password");
                            ("client_id", client_id creds);
                            ("client_secret", client_secret creds);
                            ("scope", "openid")]);
       init_other_members := [] |} in
  (forall tc, tokenCache (client w) = Some tc -> now w + 60000 < expires_at tc ->
     step CallAuthHeaders w
     = {| client := client w; now := now w; promises := promises w;
          callers := callers w
                     ++ [Returned (Fulfilled [("Authorization",
                                               "Bearer " +:+ access_token tc)])];
          fetchLog := fetchLog w |}) /\
  ((tokenCache (client w) = None \/
    exists tc, tokenCache (client w) = Some tc /\ expires_at tc <= now w + 60000) ->
   refreshPromise (client w) = None ->
   let w1 := step CallAuthHeaders w in
   fetchLog w1 = fetchLog w ++ [request] /\
   callers w1 = callers w ++ [AwaitRefresh p] /\
   promises w1 = promises w ++ [AwaitFetch] /\
   refreshPromise (client w1) = Some p /\
   forall r tok secs dt,
     ok r = true -> json r = Read (Data (mkTokenData (Some tok) (Some secs))) ->
     tok <> "" -> secs <> 0 ->
     let w2 := run [FetchFulfil p r; Tick dt; BodyRead p; Resume i] w1 in
     fetchLog w2 = fetchLog w ++ [request] /\
     tokenCache (client w2)
     = Some {| access_token := tok; expires_at := now w + Z.of_N dt + secs * 1000 |} /\
     callers w2 !! i = Some (Returned (Fulfilled [("Authorization", "Bearer " +:+ tok)])) /\
     refreshPromise (client w2) = None) /\
  ((tokenCache (client w) = None \/
    exists tc, tokenCache (client w) = Some tc /\ expires_at tc <= now w + 60000) ->
   forall q, refreshPromise (client w) = Some q ->
     let w1 := step CallAuthHeaders w in
     w1 = {| client := client w; now := now w; promises := promises w;
             callers := callers w ++ [AwaitJoined q];
             fetchLog := fetchLog w |} /\
     (forall later : list Event,
        let w2 := run later w1 in
        callers w2 !! i = Some (AwaitJoined q) \/
        exists o, promises w2 !! q = Some (Settled o) /\
                  callers w2 !! i
                  = Some (Returned match o with
                                   | Fulfilled tok =>
                                       Fulfilled [("Authorization", "Bearer " +:+ tok)]
                                   | Rejected e => Rejected e
                                   end)) /\
     forall (later : list Event) (o : Settle string),
       let w2 := run later w1 in
       callers w2 !! i = Some (AwaitJoined q) -> promises w2 !! q = Some (Settled o) ->
       callers (step (Resume i) w2) !! i
       = Some (Returned match o with
                        | Fulfilled tok => Fulfilled [("Authorization", "Bearer " +:+ tok)]
                        | Rejected e => Rejected e
                        end) /\
       fetchLog (step (Resume i) w2) = fetchLog w2 /\
       promises (step (Resume i) w2) = promises w2).
Proof.
  intros Ho i p request. split; [|split].
  - intros tc Hc Hv. rewrite (call_cached w creds tc) by assumption. reflexivity.
  - intros Hinv Hrp w1. apply isTokenValid_false_iff in Hinv.
    subst w1. rewrite (call_starts_exchange w creds) by assumption.
    fold p i. cbn [fetchLog callers promises client refreshPromise set_refreshPromise].
    assert (Hp : (promises w ++ [AwaitFetch]) !! p = Some AwaitFetch).
    { subst p. rewrite lookup_app_r by lia. rewrite Nat.sub_diag. reflexivity. }
    assert (Hi : forall c : Caller, (callers w ++ [c]) !! i = Some c).
    { intros c. subst i. rewrite lookup_app_r by lia. rewrite Nat.sub_diag. reflexivity. }
    split; [reflexivity|]. split; [reflexivity|]. split; [reflexivity|].
    split; [reflexivity|].
    intros r tok secs dt Hok Hjson Htok Hsecs.
    change [FetchFulfil p r; Tick dt; BodyRead p; Resume i]
      with ([FetchFulfil p r; Tick dt; BodyRead p] ++ [Resume i]).
    rewrite run_app, exchange_completes by exact Hp.
    assert (Hout : exchange_outcome r = Fulfilled tok).
    { unfold exchange_outcome. rewrite Hok, Hjson. cbn.
      apply String.eqb_neq in Htok. apply Z.eqb_neq in Hsecs. rewrite Htok, Hsecs.
      reflexivity. }
    cbn. unfold resume. cbn. rewrite Hi.
    rewrite list_lookup_insert_eq by (rewrite length_app; cbn; lia).
    cbn. rewrite list_lookup_insert_eq by (rewrite length_app; cbn; lia).
    unfold cache_after. rewrite Hout, Hjson. cbn. repeat split; reflexivity.
  - intros Hinv q Hq w1. apply isTokenValid_false_iff in Hinv.
    subst w1. rewrite (call_joins w creds q) by assumption.
    split; [reflexivity|]. split.
    { intros later. apply (joined_or_returned_run later _ i q).
      left. cbn. subst i. rewrite lookup_app_r by lia. rewrite Nat.sub_diag. reflexivity. }
    intros later o w2 Hi Hset.
    rewrite (joined_caller_resumes w2 i q o Hi Hset). cbn.
    split; [|split; reflexivity].
    apply list_lookup_insert_eq. eapply lookup_lt_Some; eauto.
Qed.

Lemma oauth_token_resolution_witness :
  (let w := run [SetToken "old" 30; Tick 5] (init_world sample_oauth_client 0) in
   let w2 := run [CallAuthHeaders; FetchFulfil 0%nat (token_granted "a" 3600); Tick 7;
                  BodyRead 0%nat; Resume 0%nat] w in
   tokenCache (client w) = Some {| access_token := "old"; expires_at := 30000 |} /\
   length (fetchLog w2) = 1%nat /\
   tokenCache (client w2) = Some {| access_token := "a"; expires_at := 3600012 |} /\
   callers w2 !! 0%nat = Some (Returned (Fulfilled [("Authorization", "Bearer a")]))) /\
  (let w := run [CallAuthHeaders; FetchFulfil 0%nat (token_refused 401 "Unauthorized" "no");
                 BodyRead 0%nat] (init_world sample_oauth_client 0) in
   refreshPromise (client w) = Some 0%nat /\
   fetchLog (run [CallAuthHeaders; Resume 1%nat] w) = fetchLog w /\
   callers (run [CallAuthHeaders; Resume 1%nat] w) !! 1%nat
   = Some (Returned (Rejected (ThrowR2C
             {| message := "Authentication failed: 401 no"; err_status := Some 401;
                err_headers := Some []; error := Some "no" |})))).
Proof.
  cbn zeta. split.
  - set (w := run [SetToken "old" 30; Tick 5] (init_world sample_oauth_client 0)).
    split; [reflexivity|].
    destruct (oauth_token_resolution w sample_credentials eq_refl) as (_ & Hfresh & _).
    destruct Hfresh as (_ & _ & _ & _ & Hdone).
    + right. exists {| access_token := "old"; expires_at := 30000 |}.
      split; [reflexivity | vm_compute; discriminate].
    + reflexivity.
    + destruct (Hdone (token_granted "a" 3600) "a" 3600 7%N eq_refl eq_refl)
        as (Hlog & Hcache & Hcaller & _); [discriminate | discriminate |].
      split; [exact (f_equal length Hlog)|].
      split; [exact Hcache | exact Hcaller].
  - set (w := run [CallAuthHeaders; FetchFulfil 0%nat (token_refused 401 "Unauthorized" "no");
                   BodyRead 0%nat] (init_world sample_oauth_client 0)).
    split; [reflexivity|].
    destruct (oauth_token_resolution w sample_credentials eq_refl) as (_ & _ & Hjoin).
    destruct (Hjoin (or_introl eq_refl) 0%nat eq_refl) as (_ & _ & Hlater).
    destruct (Hlater [] _ eq_refl eq_refl) as (Hcaller & Hlog & _).
    split; [exact Hlog | exact Hcaller].
Defined.

(** ** Manual installation of a token *)

(** C8, as stated, fails in both halves when the refresh handle is set while
    [setToken] is called. First trace: an exchange is in flight; it
    completes after the installation and replaces the installed token, so
    the next resolution returns the exchanged token although the installed
    expiry is still far away. Second trace: the installed token is inside
    the buffer, and the next resolution joins the exchange in flight instead
    of starting one. Third trace: the exchange has failed and the call that
    started it has not resumed yet; the next resolution makes no call to the
    transport and returns the old failure. *)
Lemma setToken_races_with_exchange :
  (let w := run [CallAuthHeaders; SetToken "manual" 3600;
                 FetchFulfil 0%nat (token_granted "a" 3600);
                 BodyRead 0%nat; Resume 0%nat; CallAuthHeaders]
                (init_world sample_oauth_client 0) in
   now w + 60000 < 0 + 3600 * 1000 /\
   callers w !! 1%nat = Some (Returned (Fulfilled [("Authorization", "Bearer a")]))) /\
  (let w := run [CallAuthHeaders; SetToken "manual" 30] (init_world sample_oauth_client 0) in
   0 + 30 * 1000 <= now w + 60000 /\
   fetchLog (step CallAuthHeaders w) = fetchLog w /\
   promises (step CallAuthHeaders w) = promises w /\
   callers (step CallAuthHeaders w) !! 1%nat = Some (AwaitJoined 0%nat)) /\
  (let w := run [CallAuthHeaders; FetchFulfil 0%nat (token_refused 401 "Unauthorized" "no");
                 BodyRead 0%nat; SetToken "manual" 30]
                (init_world sample_oauth_client 0) in
   promises w = [Settled (Rejected (ThrowR2C
                   {| message := "Authentication failed: 401 no"; err_status := Some 401;
                      err_headers := Some []; error := Some "no" |}))] /\
   fetchLog (run [CallAuthHeaders; Resume 1%nat] w) = fetchLog w /\
   promises (run [CallAuthHeaders; Resume 1%nat] w) = promises w /\
   callers (run [CallAuthHeaders; Resume 1%nat] w) !! 1%nat
   = Some (Returned (Rejected (ThrowR2C
             {| message := "Authentication failed: 401 no"; err_status := Some 401;
                err_headers := Some []; error := Some "no" |})))).
Proof.
  split; [|split]; cbn zeta.
  - split; [vm_compute; reflexivity | reflexivity].
  - split; [vm_compute; discriminate|]. repeat split; reflexivity.
  - repeat split; reflexivity.
Qed.

(** C8, amended. After [setToken(t, ttl)] on an OAuth client, and as long as
    nothing has replaced the installed token in the cache (no later
    [setToken] or [clearToken], no exchange that completed), a resolution
    returns [t] at once and without a call to the transport while the
    installed expiry, the time of installation plus [ttl] seconds, is more
    than 60 seconds away. Once it is not, the next resolution starts a fresh
    exchange when the refresh handle is clear. When the handle is set,
    because an exchange is in flight or because one has settled and the call
    that started it has not resumed yet, the resolution makes no call to the
    transport: it waits for the promise that the handle holds and, resumed
    at any later time at which that promise has settled, returns its
    outcome. *)
Theorem setToken_resolution (w : World) (creds : OAuthCredentials) (t : string) (ttl : Z)
    (tr : list Event) :
  oauthCredentials (client w) = Some creds ->
  forallb (fun e => negb (replaces_cache e)) tr = true ->
  let expiry := now w + ttl * 1000 in
  let w1 := run tr (step (SetToken t ttl) w) in
  let i := length (callers w1) in
  let request :=
    {| url := match identity_url creds with
              | Some u => u
              | None => "https://www.r2clive.com/identity"
              end +:+ "/connect/token";
       method := Some "POST";
       req_headers := [("Content-Type", "application/x-www-form-urlencoded");
                       ("Accept", "application/json")];
       req_body := Some (URLSearchParams_toString
                           [("username", username creds);
                            ("password", password creds);
                            ("siteid", site_id creds);
                            ("grant_type", "password");
                            ("client_id", client_id creds);
                            ("client_secret", client_secret creds);
                            ("scope", "openid")]);
       init_other_members := [] |} in
  tokenCache (client w1) = Some {| access_token := t; expires_at := expiry |} /\
  (now w1 + 60000 < expiry ->
   step CallAuthHeaders w1
   = {| client := client w1; now := now w1; promises := promises w1;
        callers := callers w1 ++ [Returned (Fulfilled [("Authorization", "Bearer " +:+ t)])];
        fetchLog := fetchLog w1 |}) /\
  (expiry <= now w1 + 60000 -> refreshPromise (client w1) = None ->
   fetchLog (step CallAuthHeaders w1) = fetchLog w1 ++ [request] /\
   callers (step CallAuthHeaders w1) = callers w1 ++ [AwaitRefresh (length (promises w1))] /\
   promises (step CallAuthHeaders w1) = promises w1 ++ [AwaitFetch]) /\
  (expiry <= now w1 + 60000 ->
   forall p, refreshPromise (client w1) = Some p ->
     step CallAuthHeaders w1
     = {| client := client w1; now := now w1; promises := promises w1;
          callers := callers w1 ++ [AwaitJoined p];
          fetchLog := fetchLog w1 |} /\
     (forall later : list Event,
        let w2 := run later (step CallAuthHeaders w1) in
        callers w2 !! i = Some (AwaitJoined p) \/
        exists o, promises w2 !! p = Some (Settled o) /\
                  callers w2 !! i
                  = Some (Returned match o with
                                   | Fulfilled tok =>
                                       Fulfilled [("Authorization", "Bearer " +:+ tok)]
                                   | Rejected e => Rejected e
                                   end)) /\
     forall (later : list Event) (o : Settle string),
       let w2 := run later (step CallAuthHeaders w1) in
       callers w2 !! i = Some (AwaitJoined p) -> promises w2 !! p = Some (Settled o) ->
       callers (step (Resume i) w2) !! i
       = Some (Returned match o with
                        | Fulfilled tok => Fulfilled [("Authorization", "Bearer " +:+ tok)]
                        | Rejected e => Rejected e
                        end) /\
       fetchLog (step (Resume i) w2) = fetchLog w2 /\
       promises (step (Resume i) w2) = promises w2).
Proof.
  intros Ho Htr expiry w1 i request.
  assert (Hc : tokenCache (client w1) = Some {| access_token := t; expires_at := expiry |}).
  { subst w1. rewrite run_keeps_cache by exact Htr. reflexivity. }
  assert (Ho1 : oauthCredentials (client w1) = Some creds).
  { subst w1. destruct (run_credentials tr (step (SetToken t ttl) w)) as [-> _].
    destruct (step_credentials (SetToken t ttl) w) as (-> & _). exact Ho. }
  assert (Hinv : expiry <= now w1 + 60000 -> isTokenValid (client w1) (now w1) = false).
  { intros Hle. apply isTokenValid_false_iff. right. eexists. split; [exact Hc | exact Hle]. }
  clearbody w1.
  split; [exact Hc|]. split; [|split].
  - intros Hv. rewrite (call_cached w1 creds _ Ho1 Hc Hv). reflexivity.
  - intros Hle Hrp. rewrite (call_starts_exchange w1 creds Ho1 (Hinv Hle) Hrp). cbn.
    split; [reflexivity|]. split; reflexivity.
  - intros Hle p Hp. rewrite (call_joins w1 creds p Ho1 (Hinv Hle) Hp).
    split; [reflexivity|]. split.
    { intros later. apply (joined_or_returned_run later _ i p).
      left. cbn. subst i. rewrite lookup_app_r by lia. rewrite Nat.sub_diag. reflexivity. }
    intros later o w2 Hi Hset.
    rewrite (joined_caller_resumes w2 i p o Hi Hset). cbn.
    split; [|split; reflexivity].
    apply list_lookup_insert_eq. eapply lookup_lt_Some; eauto.
Qed.

Lemma setToken_resolution_witness :
  (let w := init_world sample_oauth_client 0 in
   let w1 := run [Tick 1000; CallAuthHeaders; Tick 3538999]
                 (step (SetToken "manual-token" 3600) w) in
   callers w1 !! 0%nat
   = Some (Returned (Fulfilled [("Authorization", "Bearer manual-token")])) /\
   now w1 + 60000 < 3600 * 1000 /\
   callers (step CallAuthHeaders w1) !! 1%nat
   = Some (Returned (Fulfilled [("Authorization", "Bearer manual-token")])) /\
   fetchLog (step CallAuthHeaders w1) = [] /\
   length (fetchLog (step CallAuthHeaders (step (Tick 1) w1))) = 1%nat) /\
  (let w := run [CallAuthHeaders; FetchFulfil 0%nat (token_refused 401 "Unauthorized" "no");
                 BodyRead 0%nat] (init_world sample_oauth_client 0) in
   let w1 := step (SetToken "manual" 30) w in
   refreshPromise (client w1) = Some 0%nat /\
   fetchLog (run [CallAuthHeaders; Resume 1%nat] w1) = fetchLog w1 /\
   callers (run [CallAuthHeaders; Resume 1%nat] w1) !! 1%nat
   = Some (Returned (Rejected (ThrowR2C
             {| message := "Authentication failed: 401 no"; err_status := Some 401;
                err_headers := Some []; error := Some "no" |})))).
Proof.
  cbn zeta. split; cycle 1.
  { set (w := run [CallAuthHeaders; FetchFulfil 0%nat (token_refused 401 "Unauthorized" "no");
                   BodyRead 0%nat] (init_world sample_oauth_client 0)).
    split; [reflexivity|].
    destruct (setToken_resolution w sample_credentials "manual" 30 [] eq_refl eq_refl)
      as (_ & _ & _ & Hjoin).
    destruct (Hjoin ltac:(vm_compute; discriminate) 0%nat eq_refl) as (_ & _ & Hlater).
    destruct (Hlater [] _ eq_refl eq_refl) as (Hcaller & Hlog & _).
    split; [exact Hlog | exact Hcaller]. }
  split; [reflexivity|]. split; [vm_compute; reflexivity|].
  destruct (setToken_resolution (init_world sample_oauth_client 0) sample_credentials
              "manual-token" 3600 [Tick 1000; CallAuthHeaders; Tick 3538999]
              eq_refl eq_refl) as (_ & Hvalid & _).
  rewrite Hvalid by (vm_compute; reflexivity).
  split; [reflexivity|]. split; [reflexivity|].
  destruct (setToken_resolution (init_world sample_oauth_client 0) sample_credentials
              "manual-token" 3600 [Tick 1000; CallAuthHeaders; Tick 3538999; Tick 1]
              eq_refl eq_refl) as (_ & _ & Hfresh & _).
  destruct Hfresh as [Hlog' _]; [vm_compute; discriminate | reflexivity |].
  exact (f_equal length Hlog').
Defined.

(** ** One exchange at a time *)

Lemma handle_inv_step (e : Event) (w : World) : handle_inv w -> handle_inv (step e w).
Proof.
  intros (Hlen & Hpend & Hown & Huniq).
  destruct e as [dt| |p r|p what|p|i|t ttl|]; cbn [step].
  - repeat split; auto.
  - unfold authHeaders_call.
    destruct (oauthCredentials (client w)) as [creds|] eqn:Ho.
    + destruct (isTokenValid (client w) (now w)) eqn:Hv.
      * apply isTokenValid_true_iff in Hv as (tc & Hc & Hv).
        pose proof (call_cached w creds tc Ho Hc Hv) as Hcall. cbn [step] in Hcall.
        unfold authHeaders_call in Hcall. rewrite Ho in Hcall. rewrite Hcall.
        split; [exact Hlen|]. split; [exact Hpend|]. cbn. split.
        -- intros i q Hi. apply lookup_app_Some in Hi as [Hi | [_ Hi]]; [eauto|].
           apply list_lookup_singleton_Some in Hi as [_ [=]].
        -- intros i i' q q' Hi Hi'.
           apply lookup_app_Some in Hi as [Hi | [_ Hi]];
             [|apply list_lookup_singleton_Some in Hi as [_ [=]]].
           apply lookup_app_Some in Hi' as [Hi' | [_ Hi']];
             [|apply list_lookup_singleton_Some in Hi' as [_ [=]]].
           eauto.
      * destruct (refreshPromise (client w)) as [p|] eqn:Hrp.
        -- pose proof (call_joins w creds p Ho Hv Hrp) as Hcall. cbn [step] in Hcall.
           unfold authHeaders_call in Hcall. rewrite Ho in Hcall. rewrite Hcall.
           split; [exact Hlen|]. split; [cbn; rewrite Hrp; exact Hpend|]. cbn. split.
           ++ intros i q Hi. rewrite Hrp.
              apply lookup_app_Some in Hi as [Hi | [_ Hi]]; [eauto|].
              apply list_lookup_singleton_Some in Hi as [_ [=]].
           ++ intros i i' q q' Hi Hi'.
              apply lookup_app_Some in Hi as [Hi | [_ Hi]];
                [|apply list_lookup_singleton_Some in Hi as [_ [=]]].
              apply lookup_app_Some in Hi' as [Hi' | [_ Hi']];
                [|apply list_lookup_singleton_Some in Hi' as [_ [=]]].
              eauto.
        -- pose proof (call_starts_exchange w creds Ho Hv Hrp) as Hcall. cbn [step] in Hcall.
           unfold authHeaders_call in Hcall. rewrite Ho in Hcall. rewrite Hcall.
           assert (Hnone : forall i q, callers w !! i <> Some (AwaitRefresh q)).
           { intros i q Hi. apply Hown in Hi. discriminate. }
           unfold handle_inv. cbn. split; [rewrite !length_app; cbn; lia|]. split; [|split].
           ++ intros q x Hq Hx. apply lookup_app_Some in Hq as [Hq | [Hge Hq]].
              ** apply (Hpend q x Hq) in Hx. discriminate.
              ** apply list_lookup_singleton_Some in Hq as [Hq _]. f_equal. lia.
           ++ intros i q Hi. apply lookup_app_Some in Hi as [Hi | [_ Hi]].
              ** exfalso. eapply Hnone, Hi.
              ** apply list_lookup_singleton_Some in Hi as [_ [= <-]]. reflexivity.
           ++ intros i i' q q' Hi Hi'.
              apply lookup_app_Some in Hi as [Hi | [Hge Hi]]; [exfalso; eapply Hnone, Hi|].
              apply lookup_app_Some in Hi' as [Hi' | [Hge' Hi']];
                [exfalso; eapply Hnone, Hi'|].
              apply list_lookup_singleton_Some in Hi as [Hi _].
              apply list_lookup_singleton_Some in Hi' as [Hi' _]. lia.
    + assert (Hpush : forall c, (forall q, c <> AwaitRefresh q) ->
                                handle_inv (push_caller c w)).
      { intros c Hc. split; [exact Hlen|]. split; [exact Hpend|]. cbn. split.
        - intros i q Hi. apply lookup_app_Some in Hi as [Hi | [_ Hi]]; [eauto|].
          apply list_lookup_singleton_Some in Hi as [_ Hi]. exfalso. eapply Hc; eauto.
        - intros i i' q q' Hi Hi'.
          apply lookup_app_Some in Hi as [Hi | [_ Hi]];
            [|apply list_lookup_singleton_Some in Hi as [_ Hi]; exfalso; eapply Hc; eauto].
          apply lookup_app_Some in Hi' as [Hi' | [_ Hi']];
            [|apply list_lookup_singleton_Some in Hi' as [_ Hi']; exfalso; eapply Hc; eauto].
          eauto. }
      destruct (str_truthy (bearerToken (client w))); apply Hpush; discriminate.
  - unfold fetch_fulfil. destruct (promises w !! p) as [[| | |o]|] eqn:Hp;
      try (repeat split; auto; fail).
    split; [cbn; rewrite length_insert; exact Hlen|]. split; [|split; [exact Hown | exact Huniq]].
    cbn. intros q x Hq Hx. destruct (decide (q = p)) as [->|Hne].
    + eapply Hpend; [exact Hp | reflexivity].
    + rewrite list_lookup_insert_ne in Hq by congruence. eauto.
  - unfold fetch_reject. destruct (promises w !! p) as [[| | |o]|] eqn:Hp;
      try (repeat split; auto; fail).
    split; [cbn; rewrite length_insert; exact Hlen|]. split; [|split; [exact Hown | exact Huniq]].
    cbn. intros q x Hq Hx. destruct (decide (q = p)) as [->|Hne].
    + eapply Hpend; [exact Hp | reflexivity].
    + rewrite list_lookup_insert_ne in Hq by congruence. eauto.
  - unfold body_read. destruct (promises w !! p) as [[|r|r|o]|] eqn:Hp;
      try (repeat split; auto; fail).
    + split; [cbn; rewrite length_insert; exact Hlen|].
      split; [|split; [exact Hown | exact Huniq]].
      cbn. intros q x Hq Hx. destruct (decide (q = p)) as [->|Hne].
      * eapply Hpend; [exact Hp | reflexivity].
      * rewrite list_lookup_insert_ne in Hq by congruence. eauto.
    + assert (Hrp : refreshPromise (snd (fetchOAuthToken_data (now w) r (client w)))
                    = refreshPromise (client w)).
      { unfold fetchOAuthToken_data. repeat case_match; reflexivity. }
      destruct (fetchOAuthToken_data (now w) r (client w)) as [o c] eqn:Hd. cbn in Hrp.
      split; [cbn; rewrite length_insert; exact Hlen|]. cbn. rewrite Hrp.
      split; [|split; [exact Hown | exact Huniq]].
      intros q x Hq Hx. destruct (decide (q = p)) as [->|Hne].
      * eapply Hpend; [exact Hp | reflexivity].
      * rewrite list_lookup_insert_ne in Hq by congruence. eauto.
  - destruct (resume_cases i w) as (Hps' & Hlog' & Hcase).
    unfold resume in *.
    destruct (callers w !! i) as [[q|q|o']|] eqn:Hi; try (repeat split; auto; fail).
    + destruct (promises w !! q) as [[| | |o]|] eqn:Hq; try (repeat split; auto; fail).
      assert (Hothers : forall i' q', i' <> i -> callers w !! i' <> Some (AwaitRefresh q')).
      { intros i' q' Hne Hi'. apply Hne. eapply Huniq; eauto. }
      split; [exact Hlen|]. cbn. split; [|split].
      * intros q' x Hq' Hx. pose proof (Hpend q' x Hq' Hx) as Hh.
        rewrite (Hown i q Hi) in Hh. injection Hh as ->. rewrite Hq in Hq'.
        injection Hq' as <-. discriminate.
      * intros i' q' Hi'. destruct (decide (i' = i)) as [->|Hne].
        -- rewrite list_lookup_insert_eq in Hi' by (eapply lookup_lt_Some; eauto).
           discriminate.
        -- rewrite list_lookup_insert_ne in Hi' by congruence.
           exfalso. eapply Hothers; eauto.
      * intros i1 i2 q1 q2 H1 H2.
        destruct (decide (i1 = i)) as [->|Hne1].
        { rewrite list_lookup_insert_eq in H1 by (eapply lookup_lt_Some; eauto).
          discriminate. }
        rewrite list_lookup_insert_ne in H1 by congruence.
        exfalso. eapply Hothers; eauto.
    + destruct (promises w !! q) as [[| | |o]|] eqn:Hq; try (repeat split; auto; fail).
      assert (Hkeep : forall i' q', (<[i := Returned (authHeaders_result o)]> (callers w)) !! i'
                                    = Some (AwaitRefresh q') ->
                                    callers w !! i' = Some (AwaitRefresh q')).
      { intros i' q' Hi'. destruct (decide (i' = i)) as [->|Hne].
        - rewrite list_lookup_insert_eq in Hi' by (eapply lookup_lt_Some; eauto).
          discriminate.
        - rewrite list_lookup_insert_ne in Hi' by congruence. exact Hi'. }
      split; [exact Hlen|]. split; [exact Hpend|]. cbn. split.
      * intros i' q' Hi'. eapply Hown, Hkeep, Hi'.
      * intros i1 i2 q1 q2 H1 H2. eapply Huniq; eapply Hkeep; eauto.
  - repeat split; auto.
  - repeat split; auto.
Qed.

Lemma handle_owned_step (e : Event) (w : World) : handle_owned w -> handle_owned (step e w).
Proof.
  intros Hown.
  assert (Hpush : forall cl w',
             refreshPromise (client w') = refreshPromise (client w) ->
             callers w' = callers w ++ [cl] -> promises w' = promises w ->
             handle_owned w').
  { intros cl w' Hrp Hcs Hps q Hq. rewrite Hrp in Hq.
    destruct (Hown q Hq) as [[i Hi] Hsome]. split; [|rewrite Hps; exact Hsome].
    exists i. rewrite Hcs. apply lookup_app_l_Some, Hi. }
  assert (Hprom : forall w',
             refreshPromise (client w') = refreshPromise (client w) ->
             callers w' = callers w -> length (promises w') = length (promises w) ->
             handle_owned w').
  { intros w' Hrp Hcs Hlen q Hq. rewrite Hrp in Hq.
    destruct (Hown q Hq) as [[i Hi] Hsome]. split; [exists i; rewrite Hcs; exact Hi|].
    apply lookup_lt_is_Some. rewrite Hlen. apply lookup_lt_is_Some, Hsome. }
  destruct e as [dt| |p r|p what|p|i|t ttl|]; cbn [step].
  - apply Hprom; reflexivity.
  - destruct (oauthCredentials (client w)) as [creds|] eqn:Ho.
    + destruct (isTokenValid (client w) (now w)) eqn:Hv.
      * apply isTokenValid_true_iff in Hv as (tc & Hc & Hv).
        pose proof (call_cached w creds tc Ho Hc Hv) as Hcall. cbn [step] in Hcall.
        rewrite Hcall. eapply Hpush; reflexivity.
      * destruct (refreshPromise (client w)) as [q0|] eqn:Hrp.
        -- pose proof (call_joins w creds q0 Ho Hv Hrp) as Hcall. cbn [step] in Hcall.
           rewrite Hcall. eapply Hpush; [exact Hrp | reflexivity | reflexivity].
        -- pose proof (call_starts_exchange w creds Ho Hv Hrp) as Hcall.
           cbn [step] in Hcall. rewrite Hcall. intros q [= <-]. cbn.
           split; [exists (length (callers w))|];
             rewrite lookup_app_r by lia; rewrite Nat.sub_diag; cbn; eauto.
    + unfold authHeaders_call. rewrite Ho.
      destruct (str_truthy (bearerToken (client w))); eapply Hpush; reflexivity.
  - unfold fetch_fulfil. destruct (promises w !! p) as [[| | |o]|]; try exact Hown.
    apply Hprom; cbn; rewrite ?length_insert; reflexivity.
  - unfold fetch_reject. destruct (promises w !! p) as [[| | |o]|]; try exact Hown.
    apply Hprom; cbn; rewrite ?length_insert; reflexivity.
  - destruct (body_read_handle p w) as (Hrp & Hcs & Hlen). apply Hprom; assumption.
  - unfold resume. destruct (callers w !! i) as [[q0|q0|o']|] eqn:Hi; try exact Hown.
    + destruct (promises w !! q0) as [[| | |o]|]; try exact Hown.
      intros q Hq. discriminate.
    + destruct (promises w !! q0) as [[| | |o]|]; try exact Hown.
      intros q Hq. cbn in *. destruct (Hown q Hq) as [[i0 Hi0] Hsome].
      split; [|exact Hsome]. exists i0.
      rewrite list_lookup_insert_ne; [exact Hi0|]. intros ->. congruence.
  - apply Hprom; reflexivity.
  - apply Hprom; reflexivity.
Qed.

Lemma handle_inv_run (tr : list Event) (w : World) : handle_inv w -> handle_inv (run tr w).
Proof.
  revert w. induction tr as [|e tr IH]; intros w H; [exact H|].
  rewrite run_cons. apply IH, handle_inv_step, H.
Qed.

Lemma handle_owned_run (tr : list Event) (w : World) :
  handle_owned w -> handle_owned (run tr w).
Proof.
  revert w. induction tr as [|e tr IH]; intros w H; [exact H|].
  rewrite run_cons. apply IH, handle_owned_step, H.
Qed.

(** At any time of any run of a client, every call made to the token
    endpoint belongs to one exchange, and an exchange that has not settled
    is the one the refresh handle points to: two pending exchanges are the
    same exchange. At most one call is suspended as the one that started an
    exchange, and the handle points to the exchange it started. For a client
    that starts with the handle clear, as every new client does, the handle
    is set exactly while such a call is suspended: it is cleared when that
    call resumes, which may be later than the time the exchange settles. *)
Theorem one_exchange_at_a_time (c : APIClient) (t0 : Z) (tr : list Event) :
  let w := run tr (init_world c t0) in
  length (fetchLog w) = length (promises w) /\
  (forall q x, promises w !! q = Some x -> pending x = true ->
               refreshPromise (client w) = Some q) /\
  (forall q q' x x', promises w !! q = Some x -> promises w !! q' = Some x' ->
                     pending x = true -> pending x' = true -> q = q') /\
  (forall i i' q q', callers w !! i = Some (AwaitRefresh q) ->
                     callers w !! i' = Some (AwaitRefresh q') ->
                     i = i' /\ refreshPromise (client w) = Some q) /\
  (refreshPromise c = None ->
   forall q, refreshPromise (client w) = Some q <->
             exists i, callers w !! i = Some (AwaitRefresh q)).
Proof.
  intros w.
  assert (Hinv : handle_inv w).
  { apply handle_inv_run. repeat split; cbn; intros; discriminate. }
  destruct Hinv as (Hlen & Hpend & Hown & Huniq).
  split; [exact Hlen|]. split; [exact Hpend|]. split; [|split].
  - intros q q' x x' Hq Hq' Hx Hx'.
    pose proof (Hpend q x Hq Hx) as H1. pose proof (Hpend q' x' Hq' Hx') as H2. congruence.
  - intros i i' q q' Hi Hi'. split; [eapply Huniq; eauto | eapply Hown; eauto].
  - intros Hc q. split.
    + intros Hq. assert (Hw : handle_owned w).
      { apply handle_owned_run. intros q0 Hq0. cbn in Hq0. congruence. }
      apply Hw, Hq.
    + intros [i Hi]. eapply Hown, Hi.
Qed.

(** ** Concurrent resolution *)

Section Burst.
Variable w0 : World.
Variable creds : OAuthCredentials.
Hypothesis Hoauth : oauthCredentials (client w0) = Some creds.
Hypothesis Hstale : isTokenValid (client w0) (now w0) = false.

#[local] Abbreviation p := (length (promises w0)).

Lemma in_flight_lookup (x : Exchange) (k : nat) (w : World) :
  in_flight w0 creds x k w -> promises w !! p = Some x.
Proof.
  intros (_ & _ & Hps & _). rewrite Hps.
  rewrite lookup_app_r by lia. rewrite Nat.sub_diag. reflexivity.
Qed.

Lemma in_flight_settle (x y : Exchange) (k : nat) (w : World) :
  in_flight w0 creds x k w -> <[p := y]> (promises w) = promises w0 ++ [y].
Proof.
  intros (_ & _ & Hps & _). rewrite Hps.
  rewrite insert_app_r_alt by lia. rewrite Nat.sub_diag. reflexivity.
Qed.

Lemma in_flight_step (e : Event) (x : Exchange) (k : nat) (w : World) :
  call_or_tick e = true -> in_flight w0 creds x k w ->
  in_flight w0 creds x (k + calls [e]) (step e w).
Proof.
  intros He (Hc & Hnow & Hps & Hcs & Hlog). destruct e; try discriminate.
  - cbn. rewrite Nat.add_0_r. repeat split; cbn; auto. lia.
  - rewrite (call_joins w creds p).
    + change (calls [CallAuthHeaders]) with 1%nat. rewrite Nat.add_1_r.
      repeat split; cbn; auto.
      rewrite Hcs, <- app_assoc. cbn. f_equal. f_equal.
      symmetry. apply replicate_cons_app.
    + rewrite Hc. exact Hoauth.
    + rewrite Hc. eapply (isTokenValid_later _ (now w0)); [|exact Hnow].
      destruct (client w0); exact Hstale.
    + rewrite Hc. reflexivity.
Qed.

Lemma in_flight_run (tr : list Event) (x : Exchange) (k : nat) (w : World) :
  forallb call_or_tick tr = true -> in_flight w0 creds x k w ->
  in_flight w0 creds x (k + calls tr) (run tr w).
Proof.
  revert k w. induction tr as [|e tr IH]; intros k w Htr Hw.
  - cbn. rewrite Nat.add_0_r. exact Hw.
  - cbn in Htr. apply andb_true_iff in Htr as [He Htr].
    rewrite run_cons.
    replace (k + calls (e :: tr))%nat with (k + calls [e] + calls tr)%nat.
    + apply IH; [exact Htr|]. apply in_flight_step; assumption.
    + unfold calls. cbn. destruct (is_call e); cbn; lia.
Qed.
End Burst.

Lemma burst_starts (tr : list Event) (w0 : World) (creds : OAuthCredentials) :
  oauthCredentials (client w0) = Some creds ->
  isTokenValid (client w0) (now w0) = false ->
  refreshPromise (client w0) = None ->
  forallb call_or_tick tr = true -> (1 <= calls tr)%nat ->
  in_flight w0 creds AwaitFetch (calls tr - 1) (run tr w0).
Proof.
  revert w0. induction tr as [|e tr IH]; intros w0 Ho Hv Hrp Htr Hn; [cbn in Hn; lia|].
  cbn in Htr. apply andb_true_iff in Htr as [He Htr]. rewrite run_cons.
  destruct e; try discriminate.
  - assert (Hn' : calls (Tick dt :: tr) = calls tr) by reflexivity.
    rewrite Hn' in *.
    destruct (IH (step (Tick dt) w0)) as (Hc & Hnow & Hps & Hcs & Hlog); auto.
    { cbn. eapply isTokenValid_later; [exact Hv | lia]. }
    repeat split; auto. pose proof (step_now (Tick dt) w0). lia.
  - assert (Hn' : calls (CallAuthHeaders :: tr) = S (calls tr)) by reflexivity.
    rewrite Hn'. cbn [Nat.sub]. rewrite Nat.sub_0_r.
    change (calls tr) with (0 + calls tr)%nat.
    apply in_flight_run; auto.
    rewrite (call_starts_exchange w0 creds) by assumption.
    repeat split; cbn; auto. lia.
Qed.

(** Completion of the exchange in flight. *)
Lemma burst_completes (w0 w : World) (creds : OAuthCredentials) (k : nat) (c : Completion) :
  oauthCredentials (client w0) = Some creds ->
  isTokenValid (client w0) (now w0) = false ->
  forallb call_or_tick (meanwhile_of c) = true ->
  in_flight w0 creds AwaitFetch k w ->
  let w1 := run (completion_events (length (promises w0)) c) w in
  promises w1 = promises w0 ++ [Settled (completion_outcome c)] /\
  callers w1 = callers w0 ++ AwaitRefresh (length (promises w0))
                             :: replicate (k + calls (meanwhile_of c))
                                          (AwaitJoined (length (promises w0))) /\
  fetchLog w1 = fetchLog w0 ++ [token_request creds].
Proof.
  intros Ho Hv Hm Hw. destruct c as [what | r meanwhile]; cbn [completion_events meanwhile_of].
  - cbn. unfold fetch_reject. rewrite (in_flight_lookup w0 creds _ _ _ Hw). cbn.
    rewrite (in_flight_settle w0 creds _ _ _ _ Hw).
    destruct Hw as (_ & _ & _ & Hcs & Hlog). rewrite Nat.add_0_r. auto.
  - cbn [meanwhile_of] in Hm. rewrite run_cons, run_app.
    assert (Hw1 : in_flight w0 creds (fetchOAuthToken_response r) k
                    (step (FetchFulfil (length (promises w0)) r) w)).
    { cbn. unfold fetch_fulfil. rewrite (in_flight_lookup w0 creds _ _ _ Hw).
      destruct Hw as (Hc & Hnow & Hps & Hcs & Hlog).
      repeat split; cbn; auto.
      rewrite Hps, insert_app_r_alt by lia. rewrite Nat.sub_diag. reflexivity. }
    pose proof (in_flight_run w0 creds Ho Hv meanwhile _ _ _ Hm Hw1) as Hw2.
    set (w2 := run meanwhile _) in *.
    cbn. unfold body_read. rewrite (in_flight_lookup w0 creds _ _ _ Hw2).
    unfold fetchOAuthToken_response. destruct (ok r) eqn:Hok.
    + rewrite fetchOAuthToken_data_spec by exact Hok. cbn.
      rewrite (in_flight_settle w0 creds _ _ _ _ Hw2).
      destruct Hw2 as (_ & _ & _ & Hcs & Hlog). auto.
    + cbn. rewrite (in_flight_settle w0 creds _ _ _ _ Hw2).
      rewrite (proj1 (fetchOAuthToken_failure_spec r Hok)).
      destruct Hw2 as (_ & _ & _ & Hcs & Hlog). auto.
Qed.

Lemma settling_step (p : PromiseId) (o : Settle string) (lo n : nat) (log : list Request)
    (e : Event) (w : World) :
  resume_or_tick e = true -> settling p o lo n log w ->
  settling p o lo n log (step e w) /\
  forall j, (lo <= j < lo + n)%nat ->
            (callers w !! j = Some (Returned (authHeaders_result o)) \/ e = Resume j) ->
            callers (step e w) !! j = Some (Returned (authHeaders_result o)).
Proof.
  intros He (Hp & Hlog & Hlen & Hcs). destruct e as [dt| |q r|q what|q|i|t ttl|]; try discriminate.
  - split; [repeat split; auto|]. intros j Hj [H | H]; [exact H | discriminate].
  - cbn [step]. destruct (resume_cases i w) as (Hps' & Hlog' & Hcase).
    assert (Hwait : forall q, (lo <= i < lo + n)%nat ->
              callers w !! i = Some (AwaitRefresh q) \/ callers w !! i = Some (AwaitJoined q) ->
              q = p).
    { intros q Hi Hq. destruct (Hcs i Hi) as [H | [H | H]]; destruct Hq; congruence. }
    destruct Hcase as [[Hcs' Hnot] | (q & oq & Hq & Hset & Hcs')].
    + split.
      * split; [rewrite Hps'; exact Hp|]. split; [congruence|]. rewrite Hcs'. auto.
      * intros j Hj [H | H]; rewrite Hcs'; [exact H|].
        injection H as ->. destruct (Hcs j Hj) as [H | [H | H]]; [| |exact H];
          exfalso; eapply Hnot; eauto.
    + assert (Hi : (i < length (callers w))%nat).
      { destruct Hq as [Hq | Hq]; eapply lookup_lt_Some; eauto. }
      assert (Hin : (lo <= i < lo + n)%nat ->
                callers (resume i w) !! i = Some (Returned (authHeaders_result o))).
      { intros Hr. rewrite (Hwait q Hr Hq) in Hset. rewrite Hp in Hset.
        injection Hset as ->. rewrite Hcs'. apply list_lookup_insert_eq, Hi. }
      assert (Hout : forall j, j <> i -> callers (resume i w) !! j = callers w !! j).
      { intros j Hne. rewrite Hcs'. apply list_lookup_insert_ne. congruence. }
      split.
      * split; [rewrite Hps'; exact Hp|]. split; [congruence|].
        split; [rewrite Hcs', length_insert; exact Hlen|].
        intros j Hj. destruct (decide (j = i)) as [->|Hne]; [auto|].
        rewrite (Hout j Hne). apply Hcs, Hj.
      * intros j Hj [H | H].
        -- destruct (decide (j = i)) as [->|Hne]; [auto|]. rewrite (Hout j Hne). exact H.
        -- injection H as ->. auto.
Qed.

Lemma settling_run (p : PromiseId) (o : Settle string) (lo n : nat) (log : list Request)
    (tr : list Event) (w : World) :
  forallb resume_or_tick tr = true -> settling p o lo n log w ->
  settling p o lo n log (run tr w) /\
  forall j, (lo <= j < lo + n)%nat ->
            (callers w !! j = Some (Returned (authHeaders_result o)) \/ In (Resume j) tr) ->
            callers (run tr w) !! j = Some (Returned (authHeaders_result o)).
Proof.
  revert w. induction tr as [|e tr IH]; intros w Htr Hw.
  - split; [exact Hw|]. intros j Hj [H | []]. exact H.
  - cbn in Htr. apply andb_true_iff in Htr as [He Htr]. rewrite run_cons.
    destruct (settling_step p o lo n log e w He Hw) as [Hw' Hret].
    destruct (IH (step e w) Htr Hw') as [Hfin Hall].
    split; [exact Hfin|]. intros j Hj H. apply Hall; [exact Hj|].
    destruct H as [H | [H | H]]; auto.
Qed.

(** C1. Take an OAuth client with no valid cached token and the refresh
    handle clear. Let any number of callers invoke token resolution, at any
    times, before the exchange settles: at least one before the transport
    answers, the others before or after the answer arrives but before its
    body is read. Then the first caller has started the exchange and every
    other caller waits for the same promise. Whatever the transport answers
    and in whatever order the callers are resumed afterwards, the token
    endpoint has been called exactly once in all, with the token request of
    the configured credentials, and there is one exchange; every caller that
    has been resumed has returned the outcome of that one exchange, the
    header of the same token or the same error, and a caller that has not
    been resumed is still waiting for it. *)
Theorem single_flight_exchange (w : World) (creds : OAuthCredentials)
    (before : list Event) (c : Completion) (resumes : list Event) :
  oauthCredentials (client w) = Some creds ->
  (tokenCache (client w) = None \/
   exists tc, tokenCache (client w) = Some tc /\ expires_at tc <= now w + 60000) ->
  refreshPromise (client w) = None ->
  forallb call_or_tick before = true -> (1 <= calls before)%nat ->
  forallb call_or_tick (meanwhile_of c) = true ->
  forallb resume_or_tick resumes = true ->
  let p := length (promises w) in
  let n := calls (before ++ meanwhile_of c) in
  let w1 := run (before ++ completion_events p c) w in
  let w2 := run resumes w1 in
  let request :=
    {| url := match identity_url creds with
              | Some u => u
              | None => "https://www.r2clive.com/identity"
              end +:+ "/connect/token";
       method := Some "POST";
       req_headers := [("Content-Type", "application/x-www-form-urlencoded");
                       ("Accept", "application/json")];
       req_body := Some (URLSearchParams_toString
                           [("username", username creds);
                            ("password", password creds);
                            ("siteid", site_id creds);
                            ("grant_type", "password");
                            ("client_id", client_id creds);
                            ("client_secret", client_secret creds);
                            ("scope", "openid")]);
       init_other_members := [] |} in
  let invalid :=
    {| message := "Invalid token response from server";
       err_status := None; err_headers := None; error := None |} in
  let outcome : Settle string :=
    match c with
    | TransportRejects what => Rejected (ThrowOther what)
    | TransportAnswers r _ =>
        if ok r then
          match json r with
          | ReadError what => Rejected (ThrowOther what)
          | Read DataNull => Rejected (ThrowOther "TypeError")
          | Read (Data d) =>
              match data_access_token d, data_expires_in d with
              | Some tok, Some secs =>
                  if String.eqb tok "" || (secs =? 0)
                  then Rejected (ThrowR2C invalid)
                  else Fulfilled tok
              | _, _ => Rejected (ThrowR2C invalid)
              end
          end
        else
          match text r with
          | Read body =>
              Rejected (ThrowR2C
                {| message := "Authentication failed: " +:+ String_of_number (status r) +:+
                              " " +:+ body;
                   err_status := Some (status r);
                   err_headers := Some (headers r);
                   error := Some body |})
          | ReadError what => Rejected (ThrowOther what)
          end
    end in
  let observed : Settle StrRecord :=
    match outcome with
    | Fulfilled tok => Fulfilled [("Authorization", "Bearer " +:+ tok)]
    | Rejected e => Rejected e
    end in
  promises w1 = promises w ++ [Settled outcome] /\
  callers w1 = callers w ++ AwaitRefresh p :: replicate (n - 1) (AwaitJoined p) /\
  fetchLog w1 = fetchLog w ++ [request] /\
  promises w2 = promises w ++ [Settled outcome] /\
  fetchLog w2 = fetchLog w ++ [request] /\
  length (callers w2) = (length (callers w) + n)%nat /\
  forall j, (length (callers w) <= j < length (callers w) + n)%nat ->
            (In (Resume j) resumes -> callers w2 !! j = Some (Returned observed)) /\
            (callers w2 !! j = Some (Returned observed) \/
             callers w2 !! j = Some (AwaitRefresh p) \/
             callers w2 !! j = Some (AwaitJoined p)).
Proof.
  intros Ho Hv Hrp Hb Hn Hm Hr p n w1 w2 request invalid outcome observed.
  apply isTokenValid_false_iff in Hv.
  assert (Hout : outcome = completion_outcome c) by (destruct c; reflexivity).
  assert (Hobs : observed = authHeaders_result (completion_outcome c)).
  { subst observed. rewrite Hout. destruct (completion_outcome c); reflexivity. }
  clearbody outcome observed. subst outcome observed.
  change request with (token_request creds). clear request invalid.
  pose proof (burst_starts before w creds Ho Hv Hrp Hb Hn) as Hflight.
  pose proof (burst_completes w (run before w) creds _ c Ho Hv Hm Hflight) as Hdone.
  cbn zeta in Hdone. rewrite <- run_app in Hdone. fold p w1 in Hdone.
  destruct Hdone as (Hps & Hcs & Hlog).
  assert (Hcount : (calls before - 1 + calls (meanwhile_of c) = n - 1)%nat).
  { subst n. unfold calls in *. rewrite List.filter_app, length_app. lia. }
  assert (Hn1 : (1 <= n)%nat).
  { subst n. unfold calls in *. rewrite List.filter_app, length_app. lia. }
  rewrite Hcount in Hcs.
  assert (Hp : promises w1 !! p = Some (Settled (completion_outcome c))).
  { rewrite Hps. subst p. rewrite lookup_app_r by lia. rewrite Nat.sub_diag. reflexivity. }
  assert (Hset : settling p (completion_outcome c) (length (callers w)) n
                          (fetchLog w ++ [token_request creds]) w1).
  { split; [exact Hp|]. split; [exact Hlog|]. split.
    - rewrite Hcs, length_app. cbn. rewrite length_replicate. lia.
    - intros j Hj. rewrite Hcs, lookup_app_r by lia.
      destruct (j - length (callers w))%nat as [|m] eqn:Hjm; cbn; [auto|].
      right; left. apply lookup_replicate_2. lia. }
  destruct (settling_run p (completion_outcome c) (length (callers w)) n _ resumes w1 Hr Hset)
    as [(_ & Hlog2 & Hlen2 & Hcs2) Hret].
  fold w2 in Hlog2, Hlen2, Hret, Hcs2.
  assert (Hps2 : promises w2 = promises w1).
  { subst w2. clear -Hr. generalize dependent w1. intros w1.
    induction resumes as [|e tr IH] in w1, Hr |- *; [reflexivity|].
    cbn in Hr. apply andb_true_iff in Hr as [He Htr]. rewrite run_cons, IH by exact Htr.
    destruct e; try discriminate; [reflexivity|]. apply resume_cases. }
  split; [exact Hps|]. split; [exact Hcs|]. split; [exact Hlog|].
  split; [rewrite Hps2; exact Hps|]. split; [exact Hlog2|].
  split; [exact Hlen2|]. intros j Hj. split.
  - intros Hin. apply Hret; auto.
  - destruct (Hcs2 j Hj) as [H | [H | H]]; auto.
Qed.

Lemma single_flight_exchange_witness :
  (let w2 := run ([CallAuthHeaders; Tick 5; CallAuthHeaders]
                  ++ completion_events 0%nat
                       (TransportAnswers (token_granted "a" 3600) [CallAuthHeaders; Tick 3])
                  ++ [Resume 1%nat; Tick 1; Resume 0%nat; Resume 2%nat])
                 (init_world sample_oauth_client 1000) in
   length (fetchLog w2) = 1%nat /\
   callers w2 !! 0%nat = Some (Returned (Fulfilled [("Authorization", "Bearer a")])) /\
   callers w2 !! 1%nat = Some (Returned (Fulfilled [("Authorization", "Bearer a")])) /\
   callers w2 !! 2%nat = Some (Returned (Fulfilled [("Authorization", "Bearer a")]))) /\
  (let w2 := run ([CallAuthHeaders; CallAuthHeaders]
                  ++ completion_events 0%nat (TransportRejects "network down")
                  ++ [Resume 1%nat; Resume 0%nat])
                 (init_world sample_oauth_client 1000) in
   length (fetchLog w2) = 1%nat /\
   callers w2 !! 0%nat = Some (Returned (Rejected (ThrowOther "network down"))) /\
   callers w2 !! 1%nat = Some (Returned (Rejected (ThrowOther "network down")))).
Proof.
  cbn zeta. split.
  - rewrite app_assoc, run_app.
    destruct (single_flight_exchange (init_world sample_oauth_client 1000) sample_credentials
                [CallAuthHeaders; Tick 5; CallAuthHeaders]
                (TransportAnswers (token_granted "a" 3600) [CallAuthHeaders; Tick 3])
                [Resume 1%nat; Tick 1; Resume 0%nat; Resume 2%nat]
                eq_refl (or_introl eq_refl) eq_refl eq_refl)
      as (_ & _ & _ & _ & Hlog & _ & Hret);
      [vm_compute; lia | reflexivity | reflexivity |].
    split; [exact (f_equal length Hlog)|].
    split; [|split]; apply Hret; cbn; try lia; auto.
  - rewrite app_assoc, run_app.
    destruct (single_flight_exchange (init_world sample_oauth_client 1000) sample_credentials
                [CallAuthHeaders; CallAuthHeaders]
                (TransportRejects "network down")
                [Resume 1%nat; Resume 0%nat]
                eq_refl (or_introl eq_refl) eq_refl eq_refl)
      as (_ & _ & _ & _ & Hlog & _ & Hret);
      [vm_compute; lia | reflexivity | reflexivity |].
    split; [exact (f_equal length Hlog)|].
    split; apply Hret; cbn; try lia; auto.
Defined.

(** * Further properties *)

(** ** One resolution from start to end *)

(** A single caller of an idle client with no valid token: the call, the
    answer of the transport, the body, the resumption, with time passing in
    between. *)
Lemma single_exchange_run (w : World) (creds : OAuthCredentials)
    (r : Response TokenJson) (dt1 dt2 : N) :
  oauthCredentials (client w) = Some creds ->
  isTokenValid (client w) (now w) = false ->
  refreshPromise (client w) = None ->
  run [CallAuthHeaders; Tick dt1; FetchFulfil (length (promises w)) r; Tick dt2;
       BodyRead (length (promises w)); Resume (length (callers w))] w
  = {| client := set_tokenCache
                   (cache_after r (now w + Z.of_N dt1 + Z.of_N dt2) (tokenCache (client w)))
                   (client w);
       now := now w + Z.of_N dt1 + Z.of_N dt2;
       promises := promises w ++ [Settled (exchange_outcome r)];
       callers := callers w ++ [Returned (authHeaders_result (exchange_outcome r))];
       fetchLog := fetchLog w ++ [token_request creds] |}.
Proof.
  intros Ho Hv Hrp.
  change [CallAuthHeaders; Tick dt1; FetchFulfil (length (promises w)) r; Tick dt2;
          BodyRead (length (promises w)); Resume (length (callers w))]
    with ([CallAuthHeaders; Tick dt1]
          ++ [FetchFulfil (length (promises w)) r; Tick dt2; BodyRead (length (promises w))]
          ++ [Resume (length (callers w))]).
  rewrite !run_app.
  assert (H1 : run [CallAuthHeaders; Tick dt1] w
               = {| client := set_refreshPromise (Some (length (promises w))) (client w);
                    now := now w + Z.of_N dt1;
                    promises := promises w ++ [AwaitFetch];
                    callers := callers w ++ [AwaitRefresh (length (promises w))];
                    fetchLog := fetchLog w ++ [token_request creds] |}).
  { rewrite run_cons, (call_starts_exchange w creds) by assumption. reflexivity. }
  rewrite H1, exchange_completes
    by (cbn; rewrite lookup_app_r by lia; rewrite Nat.sub_diag; reflexivity).
  cbn. unfold resume. cbn.
  rewrite lookup_app_r by lia. rewrite Nat.sub_diag. cbn.
  rewrite insert_app_r_alt by lia. rewrite Nat.sub_diag. cbn.
  rewrite lookup_app_r by lia. rewrite Nat.sub_diag. cbn.
  rewrite insert_app_r_alt by lia. rewrite Nat.sub_diag. cbn.
  destruct w as [[b bt oc tcache rp] nw ps cs lg]. cbn in *. subst rp. reflexivity.
Qed.

(** A failed exchange (a response that is not [ok], a body that is not JSON,
    a missing or falsy field) does not block the client: once its caller has
    been resumed, the error is returned to it, the refresh handle is cleared,
    the cache is as before, and the next resolution calls the token endpoint
    a second time. *)
Theorem retry_after_failed_exchange (w : World) (creds : OAuthCredentials)
    (r : Response TokenJson) (e : Thrown) (dt1 dt2 dt3 : N) :
  oauthCredentials (client w) = Some creds ->
  isTokenValid (client w) (now w) = false ->
  refreshPromise (client w) = None ->
  exchange_outcome r = Rejected e ->
  let i := length (callers w) in
  let p := length (promises w) in
  let w' := run [CallAuthHeaders; Tick dt1; FetchFulfil p r; Tick dt2; BodyRead p;
                 Resume i; Tick dt3] w in
  callers w' !! i = Some (Returned (Rejected e)) /\
  refreshPromise (client w') = None /\
  tokenCache (client w') = tokenCache (client w) /\
  fetchLog (step CallAuthHeaders w')
  = fetchLog w ++ [token_request creds; token_request creds] /\
  callers (step CallAuthHeaders w') !! S i = Some (AwaitRefresh (S p)).
Proof.
  intros Ho Hv Hrp Hout i p w'.
  assert (Hw' : w' = step (Tick dt3)
                       (run [CallAuthHeaders; Tick dt1; FetchFulfil p r; Tick dt2; BodyRead p;
                             Resume i] w)).
  { subst w'. change [CallAuthHeaders; Tick dt1; FetchFulfil p r; Tick dt2; BodyRead p;
                      Resume i; Tick dt3]
      with ([CallAuthHeaders; Tick dt1; FetchFulfil p r; Tick dt2; BodyRead p; Resume i]
            ++ [Tick dt3]).
    rewrite run_app. reflexivity. }
  clearbody w'. subst i p.
  rewrite (single_exchange_run w creds r dt1 dt2) in Hw' by assumption.
  unfold cache_after in Hw'. rewrite Hout in Hw'. cbn in Hw'.
  assert (Hc : tokenCache (client w') = tokenCache (client w)) by (rewrite Hw'; reflexivity).
  assert (Hh : refreshPromise (client w') = None) by (rewrite Hw'; exact Hrp).
  assert (Ho' : oauthCredentials (client w') = Some creds) by (rewrite Hw'; exact Ho).
  assert (Hv' : isTokenValid (client w') (now w') = false).
  { unfold isTokenValid. rewrite Hc.
    apply (isTokenValid_later (client w) (now w)); [exact Hv|]. rewrite Hw'. cbn. lia. }
  rewrite (call_starts_exchange w' creds Ho' Hv' Hh). rewrite Hw'. cbn.
  split; [rewrite lookup_app_r by lia; rewrite Nat.sub_diag; reflexivity|].
  split; [exact Hrp|]. split; [reflexivity|].
  split; [rewrite <- app_assoc; reflexivity|].
  rewrite lookup_app_r by (rewrite length_app; cbn; lia).
  rewrite !length_app. cbn.
  replace (S (length (callers w)) - (length (callers w) + 1))%nat with 0%nat by lia.
  cbn. do 2 f_equal. lia.
Qed.

Lemma retry_after_failed_exchange_witness :
  let r := token_refused 503 "Service Unavailable" "try later" in
  let w' := run [CallAuthHeaders; Tick 1; FetchFulfil 0%nat r; Tick 2; BodyRead 0%nat;
                 Resume 0%nat; Tick 3] (init_world sample_oauth_client 0) in
  fetchLog (step CallAuthHeaders w')
  = [token_request sample_credentials; token_request sample_credentials].
Proof.
  cbn zeta.
  exact (proj1 (proj2 (proj2 (proj2
           (retry_after_failed_exchange (init_world sample_oauth_client 0) sample_credentials
              (token_refused 503 "Service Unavailable" "try later")
              _ 1 2 3 eq_refl eq_refl eq_refl eq_refl))))).
Defined.

(** ** Serving from the cache *)

(** While the cached token stays valid, callers arriving at any times are
    all answered from the cache and nothing else changes. *)
Lemma valid_token_serves_all (tr : list Event) (w : World) (creds : OAuthCredentials)
    (tc : TokenCache) :
  oauthCredentials (client w) = Some creds ->
  tokenCache (client w) = Some tc ->
  forallb call_or_tick tr = true ->
  now (run tr w) + 60000 < expires_at tc ->
  client (run tr w) = client w /\
  promises (run tr w) = promises w /\
  fetchLog (run tr w) = fetchLog w /\
  callers (run tr w)
  = callers w ++ replicate (calls tr) (Returned (Fulfilled (Authorization (access_token tc)))).
Proof.
  revert w. induction tr as [|e tr IH]; intros w Ho Hc Htr Hv.
  - cbn. rewrite app_nil_r. auto.
  - cbn in Htr. apply andb_true_iff in Htr as [He Htr]. rewrite run_cons in *.
    pose proof (run_now tr (step e w)) as Hnow. pose proof (step_now e w) as Hnow'.
    destruct e; try discriminate.
    + destruct (IH (step (Tick dt) w)) as (H1 & H2 & H3 & H4); auto.
    + assert (Hcall := call_cached w creds tc Ho Hc ltac:(lia)).
      destruct (IH (step CallAuthHeaders w)) as (H1 & H2 & H3 & H4); auto.
      * rewrite Hcall. exact Ho.
      * rewrite Hcall. exact Hc.
      * rewrite H1, H2, H3, H4, Hcall. cbn. repeat split; auto.
        rewrite <- app_assoc. reflexivity.
Qed.

(** After a successful exchange the new token is reused: callers that
    arrive while the current time plus 60 seconds is before the time at which
    the body was read plus [expires_in] seconds all get the token, and the
    token endpoint has been called once in all. *)
Theorem exchanged_token_is_reused (w : World) (creds : OAuthCredentials)
    (r : Response TokenJson) (tok : string) (secs : Z) (dt1 dt2 : N) (tr : list Event) :
  oauthCredentials (client w) = Some creds ->
  isTokenValid (client w) (now w) = false ->
  refreshPromise (client w) = None ->
  ok r = true -> json r = Read (Data (mkTokenData (Some tok) (Some secs))) ->
  tok <> "" -> secs <> 0 ->
  forallb call_or_tick tr = true ->
  let w1 := run [CallAuthHeaders; Tick dt1; FetchFulfil (length (promises w)) r; Tick dt2;
                 BodyRead (length (promises w)); Resume (length (callers w))] w in
  let w2 := run tr w1 in
  now w2 + 60000 < now w1 + secs * 1000 ->
  fetchLog w2 = fetchLog w ++ [token_request creds] /\
  callers w2 = callers w
               ++ replicate (S (calls tr))
                            (Returned (Fulfilled [("Authorization", "Bearer " +:+ tok)])) /\
  tokenCache (client w2)
  = Some {| access_token := tok; expires_at := now w1 + secs * 1000 |}.
Proof.
  intros Ho Hv Hrp Hok Hjson Htok Hsecs Htr w1 w2 Hvalid. subst w2.
  assert (Hout : exchange_outcome r = Fulfilled tok).
  { unfold exchange_outcome. rewrite Hok, Hjson. cbn.
    apply String.eqb_neq in Htok. apply Z.eqb_neq in Hsecs. rewrite Htok, Hsecs.
    reflexivity. }
  assert (Hw1 : w1 = {| client := set_tokenCache
                          (Some {| access_token := tok;
                                   expires_at := now w + Z.of_N dt1 + Z.of_N dt2 + secs * 1000 |})
                          (client w);
                        now := now w + Z.of_N dt1 + Z.of_N dt2;
                        promises := promises w ++ [Settled (Fulfilled tok)];
                        callers := callers w ++ [Returned (Fulfilled (Authorization tok))];
                        fetchLog := fetchLog w ++ [token_request creds] |}).
  { subst w1. rewrite (single_exchange_run w creds r dt1 dt2) by assumption.
    unfold cache_after. rewrite Hout, Hjson. reflexivity. }
  clearbody w1. subst w1. cbn [now] in *.
  match goal with |- context [run tr ?w0] => set (w1 := w0) in * end.
  destruct (valid_token_serves_all tr w1 creds
              {| access_token := tok;
                 expires_at := now w + Z.of_N dt1 + Z.of_N dt2 + secs * 1000 |})
    as (H1 & H2 & H3 & H4); auto.
  rewrite H1, H3, H4. subst w1. cbn. split; [reflexivity|]. split; [|reflexivity].
  rewrite <- app_assoc. reflexivity.
Qed.

Lemma exchanged_token_is_reused_witness :
  let r := token_granted "a" 3600 in
  let w2 := run ([CallAuthHeaders; Tick 10; FetchFulfil 0%nat r; Tick 20; BodyRead 0%nat;
                  Resume 0%nat] ++ [CallAuthHeaders; Tick 1000; CallAuthHeaders])
                (init_world sample_oauth_client 0) in
  fetchLog w2 = [token_request sample_credentials] /\
  callers w2 = replicate 3 (Returned (Fulfilled [("Authorization", "Bearer a")])).
Proof.
  cbn zeta. rewrite run_app.
  destruct (exchanged_token_is_reused (init_world sample_oauth_client 0) sample_credentials
              (token_granted "a" 3600)
              "a" 3600 10 20 [CallAuthHeaders; Tick 1000; CallAuthHeaders]
              eq_refl eq_refl eq_refl eq_refl eq_refl) as (Hlog & Hcs & _);
    [discriminate | discriminate | reflexivity | vm_compute; reflexivity |].
  split; [exact Hlog | exact Hcs].
Defined.

(** A token whose [expires_in] is 60 seconds or less is stored but never
    served: at any later time the next resolution calls the token endpoint
    again. *)
Theorem short_lived_token_is_never_reused (w : World) (creds : OAuthCredentials)
    (r : Response TokenJson) (tok : string) (secs : Z) (dt1 dt2 dt3 : N) :
  oauthCredentials (client w) = Some creds ->
  isTokenValid (client w) (now w) = false ->
  refreshPromise (client w) = None ->
  ok r = true -> json r = Read (Data (mkTokenData (Some tok) (Some secs))) ->
  tok <> "" -> secs <> 0 -> secs <= 60 ->
  let i := length (callers w) in
  let p := length (promises w) in
  let w' := run [CallAuthHeaders; Tick dt1; FetchFulfil p r; Tick dt2; BodyRead p;
                 Resume i; Tick dt3] w in
  callers w' !! i = Some (Returned (Fulfilled [("Authorization", "Bearer " +:+ tok)])) /\
  (exists tc, tokenCache (client w') = Some tc /\ access_token tc = tok) /\
  fetchLog (step CallAuthHeaders w')
  = fetchLog w ++ [token_request creds; token_request creds] /\
  callers (step CallAuthHeaders w') !! S i = Some (AwaitRefresh (S p)).
Proof.
  intros Ho Hv Hrp Hok Hjson Htok Hsecs Hshort i p w'.
  assert (Hout : exchange_outcome r = Fulfilled tok).
  { unfold exchange_outcome. rewrite Hok, Hjson. cbn.
    apply String.eqb_neq in Htok. apply Z.eqb_neq in Hsecs. rewrite Htok, Hsecs.
    reflexivity. }
  assert (Hw' : w' = step (Tick dt3)
                       (run [CallAuthHeaders; Tick dt1; FetchFulfil p r; Tick dt2; BodyRead p;
                             Resume i] w)).
  { subst w'. change [CallAuthHeaders; Tick dt1; FetchFulfil p r; Tick dt2; BodyRead p;
                      Resume i; Tick dt3]
      with ([CallAuthHeaders; Tick dt1; FetchFulfil p r; Tick dt2; BodyRead p; Resume i]
            ++ [Tick dt3]).
    rewrite run_app. reflexivity. }
  clearbody w'. subst i p.
  rewrite (single_exchange_run w creds r dt1 dt2) in Hw' by assumption.
  unfold cache_after in Hw'. rewrite Hout, Hjson in Hw'. cbn in Hw'.
  assert (Hh : refreshPromise (client w') = None) by (rewrite Hw'; exact Hrp).
  assert (Ho' : oauthCredentials (client w') = Some creds) by (rewrite Hw'; exact Ho).
  assert (Hv' : isTokenValid (client w') (now w') = false).
  { apply isTokenValid_false_iff. right. rewrite Hw'. cbn. eexists. split; [reflexivity|].
    cbn. lia. }
  rewrite (call_starts_exchange w' creds Ho' Hv' Hh). rewrite Hw'. cbn.
  split; [rewrite lookup_app_r by lia; rewrite Nat.sub_diag; reflexivity|].
  split; [eexists; split; reflexivity|].
  split; [rewrite <- app_assoc; reflexivity|].
  rewrite lookup_app_r by (rewrite length_app; cbn; lia).
  rewrite !length_app. cbn.
  replace (S (length (callers w)) - (length (callers w) + 1))%nat with 0%nat by lia.
  cbn. do 2 f_equal. lia.
Qed.

Lemma short_lived_token_is_never_reused_witness :
  let r := token_granted "a" 60 in
  let w' := run [CallAuthHeaders; Tick 0; FetchFulfil 0%nat r; Tick 0; BodyRead 0%nat;
                 Resume 0%nat; Tick 0] (init_world sample_oauth_client 0) in
  fetchLog (step CallAuthHeaders w')
  = [token_request sample_credentials; token_request sample_credentials].
Proof.
  cbn zeta.
  destruct (short_lived_token_is_never_reused (init_world sample_oauth_client 0)
              sample_credentials
              (token_granted "a" 60)
              "a" 60 0 0 0 eq_refl eq_refl eq_refl eq_refl eq_refl) as (_ & _ & Hlog & _);
    [discriminate | discriminate | vm_compute; discriminate |].
  exact Hlog.
Defined.

(** ** Clearing and installing tokens *)

(** [clearToken] makes no call to the transport, is idempotent, and discards
    the cached token whatever its expiry, so that the next resolution is
    never answered from the cache. When the refresh handle is clear, that
    resolution calls the token endpoint. When the handle is set, because an
    exchange is in flight or because one has settled and the call that
    started it has not resumed yet, the resolution makes no call and waits
    for the promise that the handle holds. *)
Theorem clearToken_forces_exchange (w : World) (creds : OAuthCredentials) (dt : N) :
  oauthCredentials (client w) = Some creds ->
  let w1 := step (Tick dt) (step ClearToken w) in
  let i := length (callers w) in
  step ClearToken (step ClearToken w) = step ClearToken w /\
  tokenCache (client w1) = None /\
  fetchLog w1 = fetchLog w /\ promises w1 = promises w /\ callers w1 = callers w /\
  refreshPromise (client w1) = refreshPromise (client w) /\
  (forall res, callers (step CallAuthHeaders w1) !! i <> Some (Returned res)) /\
  (refreshPromise (client w) = None ->
   fetchLog (step CallAuthHeaders w1) = fetchLog w ++ [token_request creds] /\
   promises (step CallAuthHeaders w1) = promises w ++ [AwaitFetch] /\
   callers (step CallAuthHeaders w1) !! i = Some (AwaitRefresh (length (promises w)))) /\
  (forall q, refreshPromise (client w) = Some q ->
             fetchLog (step CallAuthHeaders w1) = fetchLog w /\
             promises (step CallAuthHeaders w1) = promises w /\
             callers (step CallAuthHeaders w1) !! i = Some (AwaitJoined q)).
Proof.
  intros Ho w1 i.
  assert (Hi : forall cl : Caller, (callers w ++ [cl]) !! i = Some cl).
  { intros cl. subst i. rewrite lookup_app_r by lia. rewrite Nat.sub_diag. reflexivity. }
  split; [reflexivity|]. split; [reflexivity|]. split; [reflexivity|].
  split; [reflexivity|]. split; [reflexivity|]. split; [reflexivity|].
  assert (Hfresh : refreshPromise (client w) = None ->
            step CallAuthHeaders w1
            = {| client := set_refreshPromise (Some (length (promises w1))) (client w1);
                 now := now w1;
                 promises := promises w1 ++ [AwaitFetch];
                 callers := callers w1 ++ [AwaitRefresh (length (promises w1))];
                 fetchLog := fetchLog w1 ++ [token_request creds] |}).
  { intros Hrp. exact (call_starts_exchange w1 creds Ho eq_refl Hrp). }
  assert (Hjoin : forall q, refreshPromise (client w) = Some q ->
            step CallAuthHeaders w1 = push_caller (AwaitJoined q) w1).
  { intros q Hrp. exact (call_joins w1 creds q Ho eq_refl Hrp). }
  split; [|split].
  - intros res. destruct (refreshPromise (client w)) as [q|] eqn:Hrp.
    + rewrite (Hjoin q eq_refl). cbn. rewrite Hi. discriminate.
    + rewrite (Hfresh eq_refl). cbn. rewrite Hi. discriminate.
  - intros Hrp. rewrite (Hfresh Hrp). cbn. rewrite Hi. auto.
  - intros q Hrp. rewrite (Hjoin q Hrp). cbn. rewrite Hi. auto.
Qed.

Lemma clearToken_forces_exchange_witness :
  (let w := step (SetToken "manual" 3600) (init_world sample_oauth_client 0) in
   isTokenValid (client w) (now w) = true /\
   length (fetchLog (step CallAuthHeaders (step (Tick 5) (step ClearToken w)))) = 1%nat) /\
  (let w := run [CallAuthHeaders; FetchFulfil 0%nat (token_granted "a" 3600); BodyRead 0%nat]
                (init_world sample_oauth_client 0) in
   isTokenValid (client w) (now w) = true /\
   promises w = [Settled (Fulfilled "a")] /\
   fetchLog (step CallAuthHeaders (step (Tick 5) (step ClearToken w))) = fetchLog w /\
   callers (step CallAuthHeaders (step (Tick 5) (step ClearToken w))) !! 1%nat
   = Some (AwaitJoined 0%nat)).
Proof.
  cbn zeta. split.
  - split; [reflexivity|].
    destruct (clearToken_forces_exchange
                (step (SetToken "manual" 3600) (init_world sample_oauth_client 0))
                sample_credentials 5 eq_refl) as (_ & _ & _ & _ & _ & _ & _ & Hfresh & _).
    destruct (Hfresh eq_refl) as (Hlog & _). exact (f_equal length Hlog).
  - split; [reflexivity|]. split; [reflexivity|].
    destruct (clearToken_forces_exchange
                (run [CallAuthHeaders; FetchFulfil 0%nat (token_granted "a" 3600);
                      BodyRead 0%nat] (init_world sample_oauth_client 0))
                sample_credentials 5 eq_refl) as (_ & _ & _ & _ & _ & _ & _ & _ & Hjoin).
    destruct (Hjoin 0%nat eq_refl) as (Hlog & _ & Hcaller). split; [exact Hlog | exact Hcaller].
Defined.

(** [setToken] with a lifetime of 60 seconds or less (zero and negative
    lifetimes included) installs a token that is never served: as long as
    it is the cached token, every resolution is suspended on a promise, that
    of a fresh exchange or the one that the refresh handle holds. *)
Theorem setToken_short_ttl_is_never_served (w : World) (creds : OAuthCredentials)
    (t : string) (ttl : Z) (tr : list Event) :
  oauthCredentials (client w) = Some creds ->
  ttl <= 60 ->
  forallb (fun e => negb (replaces_cache e)) tr = true ->
  let w1 := run tr (step (SetToken t ttl) w) in
  tokenCache (client w1) = Some {| access_token := t; expires_at := now w + ttl * 1000 |} /\
  isTokenValid (client w1) (now w1) = false /\
  exists q, callers (step CallAuthHeaders w1) !! length (callers w1) = Some (AwaitRefresh q) \/
            callers (step CallAuthHeaders w1) !! length (callers w1) = Some (AwaitJoined q).
Proof.
  intros Ho Httl Htr w1.
  assert (Hc : tokenCache (client w1)
               = Some {| access_token := t; expires_at := now w + ttl * 1000 |}).
  { subst w1. rewrite run_keeps_cache by exact Htr. reflexivity. }
  assert (Ho1 : oauthCredentials (client w1) = Some creds).
  { subst w1. destruct (run_credentials tr (step (SetToken t ttl) w)) as [-> _]. exact Ho. }
  assert (Hnow : now w <= now w1).
  { subst w1. pose proof (run_now tr (step (SetToken t ttl) w)) as H. cbn in H. exact H. }
  assert (Hv : isTokenValid (client w1) (now w1) = false).
  { apply isTokenValid_false_iff. right. eexists. split; [exact Hc|]. cbn. lia. }
  split; [exact Hc|]. split; [exact Hv|].
  destruct (refreshPromise (client w1)) as [q|] eqn:Hrp.
  - exists q. right. rewrite (call_joins w1 creds q Ho1 Hv Hrp). cbn.
    rewrite lookup_app_r by lia. rewrite Nat.sub_diag. reflexivity.
  - exists (length (promises w1)). left. rewrite (call_starts_exchange w1 creds Ho1 Hv Hrp).
    cbn. rewrite lookup_app_r by lia. rewrite Nat.sub_diag. reflexivity.
Qed.

Lemma setToken_short_ttl_is_never_served_witness :
  let w1 := run [Tick 1] (step (SetToken "manual" 60) (init_world sample_oauth_client 0)) in
  isTokenValid (client w1) (now w1) = false.
Proof.
  cbn zeta.
  exact (proj1 (proj2
           (setToken_short_ttl_is_never_served (init_world sample_oauth_client 0)
              sample_credentials "manual" 60 [Tick 1] eq_refl
              ltac:(vm_compute; discriminate) eq_refl))).
Defined.

(** ** What reaches the transport *)

Lemma step_fetchLog (e : Event) (w : World) :
  match oauthCredentials (client w) with
  | Some creds =>
      fetchLog (step e w) = fetchLog w \/
      (e = CallAuthHeaders /\ isTokenValid (client w) (now w) = false /\
       refreshPromise (client w) = None /\
       fetchLog (step e w) = fetchLog w ++ [token_request creds])
  | None => fetchLog (step e w) = fetchLog w
  end.
Proof.
  destruct (oauthCredentials (client w)) as [creds|] eqn:Ho.
  - destruct e; try (left; unfold_step; repeat case_match; reflexivity).
    destruct (isTokenValid (client w) (now w)) eqn:Hv.
    + left. apply isTokenValid_true_iff in Hv as (tc & Hc & Hv).
      rewrite (call_cached w creds tc Ho Hc Hv). reflexivity.
    + destruct (refreshPromise (client w)) as [q|] eqn:Hrp.
      * left. rewrite (call_joins w creds q Ho Hv Hrp). reflexivity.
      * right. rewrite (call_starts_exchange w creds Ho Hv Hrp). auto.
  - destruct e; unfold_step; rewrite ?Ho; repeat case_match; reflexivity.
Qed.

(** Whatever happens to a client, the only requests it ever sends for
    authentication are token requests built from its configured credentials,
    and a client without OAuth credentials sends none. *)
Theorem transport_log_shape (c : APIClient) (t0 : Z) (tr : list Event) :
  match oauthCredentials c with
  | Some creds => Forall (fun rq => rq = token_request creds) (fetchLog (run tr (init_world c t0)))
  | None => fetchLog (run tr (init_world c t0)) = []
  end.
Proof.
  assert (H : forall w,
             oauthCredentials (client w) = oauthCredentials c ->
             match oauthCredentials c with
             | Some creds => Forall (fun rq => rq = token_request creds) (fetchLog w)
             | None => fetchLog w = []
             end ->
             match oauthCredentials c with
             | Some creds => Forall (fun rq => rq = token_request creds) (fetchLog (run tr w))
             | None => fetchLog (run tr w) = []
             end).
  { induction tr as [|e tr IH]; intros w Ho Hw; [exact Hw|].
    rewrite run_cons. apply IH.
    - destruct (step_credentials e w) as (-> & _). exact Ho.
    - pose proof (step_fetchLog e w) as Hstep. rewrite Ho in Hstep.
      destruct (oauthCredentials c) as [creds|].
      + destruct Hstep as [-> | (_ & _ & _ & ->)]; [exact Hw|].
        apply Forall_app. split; [exact Hw|]. constructor; [reflexivity | constructor].
      + rewrite Hstep. exact Hw. }
  apply H; [reflexivity|]. destruct (oauthCredentials c); [constructor | reflexivity].
Qed.

(** ** Clients without authentication *)

Lemma static_world_step (e : Event) (w : World) : static_world w -> static_world (step e w).
Proof.
  intros (Ho & Hlog & Hps).
  destruct (step_credentials e w) as (Ho' & _).
  pose proof (step_fetchLog e w) as Hl. rewrite Ho in Hl.
  split; [congruence|]. split; [congruence|].
  destruct e; unfold_step; rewrite ?Ho, ?Hps; cbn; repeat case_match; cbn; auto;
    simplify_eq.
Qed.

Lemma static_world_run (tr : list Event) (w : World) :
  static_world w -> static_world (run tr w).
Proof.
  revert w. induction tr as [|e tr IH]; intros w H; [exact H|].
  rewrite run_cons. apply IH, static_world_step, H.
Qed.

(** An [APIClient] built without OAuth credentials and without a non-empty
    bearer token rejects every resolution with the "No authentication
    configured" error, at once and without a call to the transport, and a
    request dispatched on it is not sent. *)
Theorem unauthenticated_client_rejects (o : APIClientOptions) (t0 : Z) (tr : list Event) :
  api_oauthCredentials o = None ->
  str_truthy (api_bearerToken o) = false ->
  let w := run tr (init_world (APIClient_new o) t0) in
  let e := {| message := "No authentication configured. " +:+
                         "Provide either bearerToken or oauthCredentials.";
              err_status := None; err_headers := None; error := None |} in
  step CallAuthHeaders w
  = {| client := client w; now := now w; promises := promises w;
       callers := callers w ++ [Returned (Rejected (ThrowR2C e))];
       fetchLog := fetchLog w |} /\
  fetchLog (step CallAuthHeaders w) = [] /\
  forall T (answer : Settle (Response T)) (ro : RequestOptions),
    makeRequest (client w) (Rejected (ThrowR2C e)) answer ro
    = (None, Rejected (ThrowR2C e)).
Proof.
  intros Ho Hb w e.
  assert (Hw : static_world w).
  { apply static_world_run. repeat split. exact Ho. }
  destruct Hw as (Ho' & Hlog & _).
  assert (Hb' : str_truthy (bearerToken (client w)) = false).
  { subst w. destruct (run_credentials tr (init_world (APIClient_new o) t0)) as [_ ->].
    cbn. rewrite Hb. reflexivity. }
  assert (Hcall : step CallAuthHeaders w
                  = push_caller (Returned (Rejected (ThrowR2C no_authentication))) w).
  { cbn. unfold authHeaders_call. rewrite Ho', Hb'. reflexivity. }
  rewrite Hcall. split; [reflexivity|]. split; [exact Hlog|]. reflexivity.
Qed.

Lemma unauthenticated_client_rejects_witness :
  let o := mkAPIClientOptions (Some "https://test-api.r2clive.com") (Some "") None in
  callers (step CallAuthHeaders (run [Tick 1] (init_world (APIClient_new o) 0))) !! 0%nat
  = Some (Returned (Rejected (ThrowR2C
            {| message := "No authentication configured. " +:+
                          "Provide either bearerToken or oauthCredentials.";
               err_status := None; err_headers := None; error := None |}))).
Proof.
  cbn zeta.
  rewrite (proj1 (unauthenticated_client_rejects
                    (mkAPIClientOptions (Some "https://test-api.r2clive.com") (Some "") None)
                    0 [Tick 1] eq_refl eq_refl)).
  reflexivity.
Defined.

Lemma never_unauthenticated_step (e : Event) (w : World) (creds : OAuthCredentials) :
  oauthCredentials (client w) = Some creds ->
  never_unauthenticated w -> never_unauthenticated (step e w).
Proof.
  intros Ho (Hps & Hcs).
  assert (Hpush : forall c w',
             promises w' = promises w -> callers w' = callers w ++ [c] ->
             (forall e', c = Returned (Rejected (ThrowR2C e')) -> e' <> no_authentication) ->
             never_unauthenticated w').
  { intros c w' Hp Hc Hne. split.
    - rewrite Hp. exact Hps.
    - rewrite Hc. intros i e' Hi. apply lookup_app_Some in Hi as [Hi | [_ Hi]]; [eauto|].
      apply list_lookup_singleton_Some in Hi as [_ Hi]. eauto. }
  assert (Hins : forall p x w',
             callers w' = callers w -> promises w' = <[p := x]> (promises w) ->
             (forall e', x = Settled (Rejected (ThrowR2C e')) -> e' <> no_authentication) ->
             never_unauthenticated w').
  { intros p x w' Hc Hp Hne. split; [|rewrite Hc; exact Hcs].
    rewrite Hp. intros q e' Hq. destruct (decide (q = p)) as [->|Hqp].
    - apply list_lookup_insert_Some in Hq as [(_ & Hx & _) | (Hcontra & _)]; [eauto|].
      congruence.
    - rewrite list_lookup_insert_ne in Hq by congruence. eauto. }
  destruct e as [dt| |p r|p what|p|i|t ttl|]; cbn [step].
  - split; assumption.
  - destruct (isTokenValid (client w) (now w)) eqn:Hv.
    + apply isTokenValid_true_iff in Hv as (tc & Hc & Hv).
      pose proof (call_cached w creds tc Ho Hc Hv) as Hcall. cbn [step] in Hcall.
      rewrite Hcall. eapply Hpush; [reflexivity | reflexivity | discriminate].
    + destruct (refreshPromise (client w)) as [q|] eqn:Hrp.
      * pose proof (call_joins w creds q Ho Hv Hrp) as Hcall. cbn [step] in Hcall.
        rewrite Hcall. eapply Hpush; [reflexivity | reflexivity | discriminate].
      * pose proof (call_starts_exchange w creds Ho Hv Hrp) as Hcall. cbn [step] in Hcall.
        rewrite Hcall. split; cbn.
        -- intros q e' Hq. apply lookup_app_Some in Hq as [Hq | [_ Hq]]; [eauto|].
           apply list_lookup_singleton_Some in Hq as [_ [=]].
        -- intros j e' Hj. apply lookup_app_Some in Hj as [Hj | [_ Hj]]; [eauto|].
           apply list_lookup_singleton_Some in Hj as [_ [=]].
  - unfold fetch_fulfil. destruct (promises w !! p) as [[| | |o]|]; try (split; assumption).
    eapply Hins; [reflexivity | reflexivity |].
    unfold fetchOAuthToken_response. destruct (ok r); discriminate.
  - unfold fetch_reject. destruct (promises w !! p) as [[| | |o]|]; try (split; assumption).
    eapply Hins; [reflexivity | reflexivity | discriminate].
  - unfold body_read. destruct (promises w !! p) as [[|r|r|o]|]; try (split; assumption).
    + eapply Hins; [reflexivity | reflexivity |]. unfold fetchOAuthToken_failure.
      destruct (text r); intros e' [= <-]; discriminate.
    + destruct (fetchOAuthToken_data (now w) r (client w)) as [o c] eqn:Hd.
      eapply Hins; [reflexivity | reflexivity |]. intros e' [= ->].
      unfold fetchOAuthToken_data in Hd. repeat case_match; simplify_eq; discriminate.
  - destruct (resume_cases i w) as (Hp' & _ & [[Hc' _] | (q & oq & _ & Hq & Hc')]).
    + split; [rewrite Hp'; exact Hps | rewrite Hc'; exact Hcs].
    + split; [rewrite Hp'; exact Hps|]. rewrite Hc'. intros j e' Hj.
      destruct (decide (j = i)) as [->|Hji].
      * apply list_lookup_insert_Some in Hj as [(_ & Hx & _) | (Hcontra & _)]; [|congruence].
        destruct oq as [tok|e'']; [discriminate|]. cbn in Hx. injection Hx as ->. eauto.
      * rewrite list_lookup_insert_ne in Hj by congruence. eauto.
  - split; assumption.
  - split; assumption.
Qed.

(** A client built by the [R2CClient] constructor never fails a resolution
    with the "No authentication configured" error: the constructor's check
    makes that branch of [authHeaders] unreachable. *)
Theorem R2CClient_is_never_unauthenticated (o : ClientOptions) (c : APIClient)
    (t0 : Z) (tr : list Event) (i : nat) :
  R2CClient_new o = inr c ->
  callers (run tr (init_world c t0)) !! i
  <> Some (Returned (Rejected (ThrowR2C
             {| message := "No authentication configured. " +:+
                           "Provide either bearerToken or oauthCredentials.";
                err_status := None; err_headers := None; error := None |}))).
Proof.
  change {| message := "No authentication configured. " +:+
                       "Provide either bearerToken or oauthCredentials.";
            err_status := None; err_headers := None; error := None |}
    with no_authentication.
  intros Hnew. rewrite R2CClient_new_cases in Hnew.
  destruct (str_truthy (opt_bearerToken o)) eqn:Hb, (opt_oauthCredentials o) as [creds|];
    try discriminate; injection Hnew as <-.
  - destruct (opt_bearerToken o) as [t|] eqn:Ht; [|discriminate].
    apply str_truthy_Some in Hb.
    match goal with |- callers (run tr ?w0) !! i <> _ =>
      assert (Hw : bearer_world t (run tr w0)) end.
    { apply bearer_world_run. repeat split; auto. intros j cl Hj. discriminate. }
    destruct Hw as (_ & _ & _ & _ & _ & Hcs). intros Hi. apply Hcs in Hi. discriminate.
  - match goal with |- callers (run tr ?w0) !! i <> _ =>
      assert (Hw : forall w, oauthCredentials (client w) = Some creds ->
                             never_unauthenticated w -> never_unauthenticated (run tr w)) end.
    { induction tr as [|e tr IH]; intros w Ho Hw; [exact Hw|].
      rewrite run_cons. apply IH.
      - destruct (step_credentials e w) as (-> & _). exact Ho.
      - eapply never_unauthenticated_step; eauto. }
    match goal with |- callers (run tr ?w0) !! i <> _ =>
      destruct (Hw w0 eq_refl) as [_ Hcs] end.
    { split; intros j e Hj; discriminate. }
    intros Hi. eapply Hcs; eauto.
Qed.

Lemma R2CClient_is_never_unauthenticated_witness :
  let r := token_refused 401 "Unauthorized" "bad creds" in
  callers (run [CallAuthHeaders; FetchFulfil 0%nat r; BodyRead 0%nat; Resume 0%nat]
               (init_world sample_oauth_client 0)) !! 0%nat
  <> Some (Returned (Rejected (ThrowR2C
             {| message := "No authentication configured. " +:+
                           "Provide either bearerToken or oauthCredentials.";
                err_status := None; err_headers := None; error := None |}))).
Proof.
  cbn zeta.
  apply (R2CClient_is_never_unauthenticated
           (mkClientOptions None (Some sample_credentials)
                            (Some "https://test-api.r2clive.com"))
           sample_oauth_client 0). reflexivity.
Defined.

(** ** Query strings and form bodies *)

Lemma append_cons (x : ascii) (a b : string) : String x a +:+ b = String x (a +:+ b).
Proof. reflexivity. Qed.

Lemma append_assoc (a b c : string) : (a +:+ b) +:+ c = a +:+ (b +:+ c).
Proof.
  induction a as [|x a IH]; [reflexivity|]. rewrite !append_cons. f_equal. exact IH.
Qed.

Lemma append_nil_r (a : string) : a +:+ "" = a.
Proof. induction a as [|x a IH]; [reflexivity|]. rewrite append_cons. f_equal. exact IH. Qed.

Lemma append_inv_l (a b : string) : a +:+ b = a -> b = "".
Proof.
  induction a as [|x a IH]; [auto|]. rewrite append_cons. intros [= H]. auto.
Qed.

Lemma count_char_app (c : ascii) (a b : string) :
  count_char c (a +:+ b) = (count_char c a + count_char c b)%nat.
Proof.
  induction a as [|x a IH]; [reflexivity|].
  rewrite append_cons. cbn [count_char]. rewrite IH. lia.
Qed.

Lemma urlencode_char_no_delimiter (d c : ascii) :
  d ∈ url_delimiters -> count_char d (urlencode_char c) = 0%nat.
Proof.
  unfold url_delimiters. rewrite !elem_of_cons, elem_of_nil.
  intros [-> | [-> | [-> | [-> | [-> | [-> | []]]]]]];
    destruct c as [[] [] [] [] [] [] [] []]; reflexivity.
Qed.

Lemma urlencode_no_delimiter (d : ascii) (s : string) :
  d ∈ url_delimiters -> count_char d (urlencode s) = 0%nat.
Proof.
  intros Hd. induction s as [|c s IH]; [reflexivity|].
  cbn. rewrite count_char_app, IH, urlencode_char_no_delimiter by exact Hd. reflexivity.
Qed.

Lemma count_char_pair (d : ascii) (kv : string * string) :
  d ∈ url_delimiters ->
  count_char d (urlencode (fst kv) +:+ "=" +:+ urlencode (snd kv))
  = if Ascii.eqb "="%char d then 1%nat else 0%nat.
Proof.
  intros Hd. rewrite !count_char_app, !urlencode_no_delimiter by exact Hd.
  cbn [count_char]. destruct (Ascii.eqb "="%char d); reflexivity.
Qed.

Lemma toString_count (d : ascii) (ps : URLSearchParams) :
  d ∈ url_delimiters ->
  count_char d (URLSearchParams_toString ps)
  = ((if Ascii.eqb "="%char d then length ps else 0)
     + (if Ascii.eqb "&"%char d then length ps - 1 else 0))%nat.
Proof.
  unfold URLSearchParams_toString. intros Hd. induction ps as [|kv ps IH].
  - cbn [List.map join count_char length].
    destruct (Ascii.eqb "="%char d), (Ascii.eqb "&"%char d); reflexivity.
  - destruct ps as [|kv' ps].
    + cbn [List.map join]. rewrite count_char_pair by exact Hd. cbn [length].
      destruct (Ascii.eqb "="%char d), (Ascii.eqb "&"%char d); reflexivity.
    + change (join "&" (List.map ?f (kv :: kv' :: ps)))
        with (f kv +:+ "&" +:+ join "&" (List.map f (kv' :: ps))).
      rewrite (count_char_app d _ ("&" +:+ _)), (count_char_app d "&"), IH.
      rewrite (count_char_pair d kv Hd). cbn [count_char length].
      destruct (Ascii.eqb "="%char d), (Ascii.eqb "&"%char d); cbn [Nat.sub Nat.add]; lia.
Qed.

(** The serialised parameters are delimited without ambiguity, whatever the
    names and values contain: a list of [n] pairs gives exactly [n] equals
    signs and [n - 1] ampersands, and no question mark, hash, slash or space. *)
Theorem URLSearchParams_toString_delimiters (ps : URLSearchParams) :
  count_char "="%char (URLSearchParams_toString ps) = length ps /\
  count_char "&"%char (URLSearchParams_toString ps) = (length ps - 1)%nat /\
  count_char "?"%char (URLSearchParams_toString ps) = 0%nat /\
  count_char "#"%char (URLSearchParams_toString ps) = 0%nat /\
  count_char "/"%char (URLSearchParams_toString ps) = 0%nat /\
  count_char " "%char (URLSearchParams_toString ps) = 0%nat.
Proof.
  repeat split;
    rewrite toString_count by (unfold url_delimiters; rewrite !elem_of_cons; tauto);
    vm_compute Ascii.eqb; cbv iota; lia.
Qed.

Lemma URLSearchParams_toString_nonempty (ps : URLSearchParams) :
  ps <> [] -> URLSearchParams_toString ps <> "".
Proof.
  intros Hne Hempty.
  assert (Heq := toString_count "="%char ps
                   ltac:(unfold url_delimiters; rewrite !elem_of_cons; tauto)).
  rewrite Hempty in Heq. vm_compute Ascii.eqb in Heq. cbv iota in Heq.
  destruct ps; [congruence | discriminate].
Qed.

(** The body of the token request always has the seven fields of the
    password grant and nothing else: whatever characters the credentials
    contain, it has seven equals signs and six ampersands, so no credential
    can add or end a field; the request is a POST to the identity URL (the
    default one when none is configured) followed by [/connect/token]. *)
Theorem token_request_fields (creds : OAuthCredentials) :
  method (token_request creds) = Some "POST" /\
  url (token_request creds)
  = default default_identity_url (identity_url creds) +:+ "/connect/token" /\
  record_get "Content-Type" (req_headers (token_request creds))
  = Some "application/x-www-form-urlencoded" /\
  exists b, req_body (token_request creds) = Some b /\
            count_char "="%char b = 7%nat /\ count_char "&"%char b = 6%nat /\
            b = "username=" +:+ urlencode (username creds) +:+
                "&password=" +:+ urlencode (password creds) +:+
                "&siteid=" +:+ urlencode (site_id creds) +:+
                "&grant_type=password&client_id=" +:+ urlencode (client_id creds) +:+
                "&client_secret=" +:+ urlencode (client_secret creds) +:+
                "&scope=openid".
Proof.
  split; [reflexivity|]. split; [destruct creds as [? ? ? ? ? []]; reflexivity|].
  split; [reflexivity|]. eexists. split; [reflexivity|].
  split; [|split].
  1,2: rewrite toString_count by (unfold url_delimiters; rewrite !elem_of_cons; tauto);
       reflexivity.
  unfold URLSearchParams_toString. cbn [List.map join fst snd].
  cbn [urlencode urlencode_char]. cbn.
  rewrite !append_assoc. cbn. rewrite ?append_assoc. reflexivity.
Qed.

(** ** Request URL *)

Lemma query_params_nil (q : list (string * option JSON)) :
  query_params q = [] <-> Forall (fun kv => snd kv = None \/ snd kv = Some JNull) q.
Proof.
  unfold query_params. induction q as [|[k v] q IH]; [split; constructor|].
  cbn [flat_map]. split.
  - intros H. apply app_eq_nil in H as [Hv Hq]. constructor; [|apply IH, Hq].
    cbn. destruct v as [[]|]; auto; discriminate.
  - intros H. inversion H as [|? ? Hv Hq]; subst. cbn in Hv.
    rewrite (proj2 IH Hq), app_nil_r. destruct Hv as [-> | ->]; reflexivity.
Qed.

(** A query value is dropped exactly when it is [undefined] or [null]:
    every other value, the falsy [0], [false] and [''] included, is sent as
    [String(value)] under its key, and nothing else is sent. *)
Theorem query_params_keeps_non_null (q : list (string * option JSON)) (k s : string) :
  In (k, s) (query_params q) <->
  exists v, In (k, Some v) q /\ v <> JNull /\ s = String_of_JSON v.
Proof.
  unfold query_params. rewrite in_flat_map. split.
  - intros ([k' v'] & Hin & Hks). cbn in Hks.
    destruct v' as [v|]; [|contradiction].
    destruct v; cbn in Hks; try contradiction;
      destruct Hks as [[= <- <-] | []]; eexists; (split; [exact Hin|]); split;
      (discriminate || reflexivity).
  - intros (v & Hin & Hnn & ->). exists (k, Some v). split; [exact Hin|].
    cbn. destruct v; try contradiction; left; reflexivity.
Qed.

(** The request URL is the base URL followed by the path, verbatim. A
    question mark and the serialised pairs follow exactly when at least one
    query value is neither [undefined] nor [null]. *)
Theorem request_url_query (c : APIClient) (o : RequestOptions) :
  (request_url c o = baseURL c +:+ path o <->
   query o = None \/
   exists q, query o = Some q /\ Forall (fun kv => snd kv = None \/ snd kv = Some JNull) q) /\
  (forall q, query o = Some q -> query_params q <> [] ->
             request_url c o
             = baseURL c +:+ path o +:+ "?" +:+ URLSearchParams_toString (query_params q)).
Proof.
  unfold request_url. destruct (query o) as [q|]; [|split; [tauto | discriminate]].
  destruct (String.eqb_spec (URLSearchParams_toString (query_params q)) "") as [He|Hne].
  - assert (Hq : query_params q = []).
    { destruct (query_params q) eqn:Hq; [reflexivity|].
      exfalso. eapply URLSearchParams_toString_nonempty; [|exact He]. discriminate. }
    split.
    + split; [|reflexivity]. intros _. right. exists q. split; [reflexivity|].
      apply query_params_nil, Hq.
    + intros q' [= <-] Hne. contradiction.
  - split.
    + split.
      * intros H. exfalso. apply append_inv_l in H. discriminate.
      * intros [H | (q' & [= <-] & Hall)]; [discriminate|].
        apply query_params_nil in Hall. rewrite Hall in Hne. contradiction.
    + intros q' [= <-] _. rewrite append_assoc. reflexivity.
Qed.

(** ** Request headers *)

Lemma record_get_None (k : string) (o : StrRecord) :
  record_has k o = false -> record_get k o = None.
Proof.
  induction o as [|[k0 v0] o IH]; cbn; [reflexivity|].
  destruct (String.eqb k k0); [discriminate | exact IH].
Qed.

Lemma record_get_update (k k' v : string) (o : StrRecord) :
  record_has k' o = true ->
  record_get k (record_update k' v o) = if String.eqb k k' then Some v else record_get k o.
Proof.
  induction o as [|[k0 v0] o IH]; cbn; [discriminate|].
  destruct (String.eqb_spec k' k0) as [->|Hne]; cbn.
  - intros _. destruct (String.eqb k k0); reflexivity.
  - intros Hhas. rewrite (IH Hhas). destruct (String.eqb_spec k k0) as [->|]; [|reflexivity].
    destruct (String.eqb_spec k0 k'); [congruence | reflexivity].
Qed.

Lemma record_get_insert (k k' v : string) (o : StrRecord) :
  record_has k' o = false ->
  record_get k (record_insert k' v o) = if String.eqb k k' then Some v else record_get k o.
Proof.
  induction o as [|[k0 v0] o IH]; cbn.
  - intros _. destruct (String.eqb k k'); reflexivity.
  - destruct (String.eqb_spec k' k0) as [->|Hne]; [discriminate|]. cbn. intros Hhas.
    destruct (key_before k' k0); cbn.
    + destruct (String.eqb k k'); reflexivity.
    + rewrite (IH Hhas). destruct (String.eqb_spec k k0) as [->|]; [|reflexivity].
      destruct (String.eqb_spec k0 k'); [congruence | reflexivity].
Qed.

Lemma record_get_set (k k' v : string) (o : StrRecord) :
  record_get k (record_set k' v o) = if String.eqb k k' then Some v else record_get k o.
Proof.
  unfold record_set. destruct (record_has k' o) eqn:Hhas.
  - apply record_get_update, Hhas.
  - apply record_get_insert, Hhas.
Qed.

Lemma record_get_app (k : string) (a b : StrRecord) :
  record_get k (a ++ b)
  = match record_get k a with Some v => Some v | None => record_get k b end.
Proof.
  induction a as [|[k0 v0] a IH]; cbn; [reflexivity|].
  destruct (String.eqb k k0); [reflexivity | exact IH].
Qed.

Lemma record_get_spread_rev (k : string) (a b : StrRecord) :
  record_get k (spread a b)
  = match record_get k (rev b) with Some v => Some v | None => record_get k a end.
Proof.
  unfold spread. revert a. induction b as [|[k0 v0] b IH]; intros a; [reflexivity|].
  cbn [fold_left fst snd]. rewrite IH. cbn [rev]. rewrite record_get_app, record_get_set.
  destruct (record_get k (rev b)); [reflexivity|]. cbn.
  destruct (String.eqb k k0); reflexivity.
Qed.

Lemma record_get_In (k v : string) (o : StrRecord) :
  NoDup (List.map fst o) -> (record_get k o = Some v <-> In (k, v) o).
Proof.
  induction o as [|[k0 v0] o IH]; cbn; [intros _; split; [discriminate | tauto]|].
  intros Hnd. apply NoDup_cons in Hnd as [Hk0 Hnd].
  destruct (String.eqb_spec k k0) as [->|Hne].
  - split; [intros [= ->]; auto|]. intros [[= ->] | Hin]; [reflexivity|].
    exfalso. apply Hk0. apply list_elem_of_In. apply (in_map fst) in Hin. exact Hin.
  - rewrite (IH Hnd). split; [auto|]. intros [[= -> _] | Hin]; [congruence | exact Hin].
Qed.

Lemma record_get_rev (k : string) (o : StrRecord) :
  NoDup (List.map fst o) -> record_get k (rev o) = record_get k o.
Proof.
  intros Hnd.
  assert (Hnd' : NoDup (List.map fst (rev o))).
  { rewrite map_rev. apply NoDup_ListNoDup, List.NoDup_rev, NoDup_ListNoDup, Hnd. }
  destruct (record_get k o) as [v|] eqn:Ho.
  - apply (record_get_In k v _ Hnd'). apply in_rev. rewrite rev_involutive.
    apply (record_get_In k v _ Hnd), Ho.
  - destruct (record_get k (rev o)) as [v|] eqn:Hr; [|reflexivity].
    apply (record_get_In k v _ Hnd') in Hr. apply in_rev in Hr.
    apply (record_get_In k v _ Hnd) in Hr. congruence.
Qed.

Lemma record_has_In (k : string) (o : StrRecord) :
  record_has k o = true <-> k ∈ List.map fst o.
Proof.
  unfold record_has. rewrite existsb_exists, list_elem_of_In, in_map_iff. split.
  - intros ([k0 v0] & Hin & Heq). apply String.eqb_eq in Heq as ->. exists (k0, v0). auto.
  - intros ([k0 v0] & <- & Hin). exists (k0, v0). split; [exact Hin | apply String.eqb_refl].
Qed.

Lemma record_update_keys (k v : string) (o : StrRecord) :
  List.map fst (record_update k v o) = List.map fst o.
Proof.
  induction o as [|[k0 v0] o IH]; cbn; [reflexivity|].
  destruct (String.eqb k k0); cbn; [reflexivity|]. rewrite IH. reflexivity.
Qed.

Lemma record_insert_keys (k v : string) (o : StrRecord) :
  List.map fst (record_insert k v o) ≡ₚ k :: List.map fst o.
Proof.
  induction o as [|[k0 v0] o IH]; cbn; [reflexivity|].
  destruct (key_before k k0); cbn; [reflexivity|]. rewrite IH. apply Permutation_swap.
Qed.

Lemma record_set_NoDup (k v : string) (o : StrRecord) :
  NoDup (List.map fst o) -> NoDup (List.map fst (record_set k v o)).
Proof.
  intros Hnd. unfold record_set. destruct (record_has k o) eqn:Hhas.
  - rewrite record_update_keys. exact Hnd.
  - rewrite record_insert_keys. apply NoDup_cons. split; [|exact Hnd].
    intros Hin. apply record_has_In in Hin. congruence.
Qed.

(** The headers of a request hold each name once. A header supplied by the
    caller replaces the default of the same name, [Authorization] included;
    otherwise [Content-Type] is [application/json] and [Authorization] is
    the bearer header of the resolved token, and no other header is sent.
    Names compare exactly as written. *)
Theorem caller_headers_take_precedence (c : APIClient) (token : string)
    (o : RequestOptions) (k : string) :
  NoDup (List.map fst (default [] (init_headers (init o)))) ->
  let sent := req_headers (fetch_request c (Authorization token) o) in
  NoDup (List.map fst sent) /\
  record_get k sent
  = match record_get k (default [] (init_headers (init o))) with
    | Some v => Some v
    | None =>
        if String.eqb k "Content-Type" then Some "application/json"
        else if String.eqb k "Authorization" then Some ("Bearer " +:+ token)
        else None
    end.
Proof.
  intros Hnd sent. subst sent. cbn [fetch_request req_headers].
  set (h := default [] (init_headers (init o))) in *.
  assert (Hd : defaultHeaders (Authorization token)
               = [("Content-Type", "application/json");
                  ("Authorization", "Bearer " +:+ token)]) by reflexivity.
  rewrite Hd. split.
  - unfold spread.
    assert (H : forall a : StrRecord, NoDup (List.map fst a) ->
              NoDup (List.map fst (fold_left (fun acc kv => record_set (fst kv) (snd kv) acc)
                                             h a))).
    { clear Hnd. induction h as [|kv h IH]; intros a Ha; [exact Ha|].
      cbn [fold_left]. apply IH, record_set_NoDup, Ha. }
    apply H. cbn. apply NoDup_cons. split; [|apply NoDup_singleton].
    rewrite list_elem_of_singleton. discriminate.
  - rewrite record_get_spread_rev, record_get_rev by exact Hnd.
    destruct (record_get k h); [reflexivity|]. cbn.
    destruct (String.eqb k "Content-Type"); [reflexivity|].
    destruct (String.eqb k "Authorization"); reflexivity.
Qed.

Lemma caller_headers_take_precedence_witness :
  let o := post_options "/test" None
             (Some (mkOptionsObject "/test" None Absent Absent
                                    (Some [("Authorization", "Basic abc")]) [])) in
  record_get "Authorization"
             (req_headers (fetch_request sample_bearer_client (Authorization "test-token") o))
  = Some "Basic abc".
Proof.
  cbn zeta.
  exact (proj2 (caller_headers_take_precedence sample_bearer_client "test-token"
                  (post_options "/test" None
                     (Some (mkOptionsObject "/test" None Absent Absent
                                            (Some [("Authorization", "Basic abc")]) [])))
                  "Authorization" (NoDup_singleton _))).
Defined.

(** ** Parsing responses *)

Lemma prefix_spec (a s : string) :
  String.prefix a s = true <-> exists post, s = a +:+ post.
Proof.
  revert s. induction a as [|x a IH]; intros s.
  - split; [intros _; exists s; reflexivity | destruct s; reflexivity].
  - destruct s as [|y s]; cbn.
    + split; [discriminate | intros [post H]; discriminate].
    + destruct (ascii_dec x y) as [->|Hne].
      * rewrite IH. split; intros [post H]; exists post.
        -- rewrite append_cons. f_equal. exact H.
        -- rewrite append_cons in H. injection H as H. exact H.
      * split; [discriminate|]. intros [post H]. rewrite append_cons in H. congruence.
Qed.

(** [includes] is the substring test. *)
Lemma includes_spec (sub s : string) :
  includes sub s = true <-> exists pre post, s = pre +:+ sub +:+ post.
Proof.
  induction s as [|y s IH]; cbn [includes].
  - rewrite orb_false_r, prefix_spec. split.
    + intros [post H]. exists "", post. exact H.
    + intros (pre & post & H). destruct pre; [exists post; exact H|].
      rewrite append_cons in H. discriminate.
  - rewrite orb_true_iff, prefix_spec, IH. split.
    + intros [[post H] | (pre & post & H)].
      * exists "", post. exact H.
      * exists (String y pre), post. rewrite append_cons. f_equal. exact H.
    + intros (pre & post & H). destruct pre as [|x pre].
      * left. exists post. exact H.
      * right. rewrite append_cons in H. injection H as _ H. exists pre, post. exact H.
Qed.

Lemma parseResponse_R2CError {T : Type} (r : Response T) (e : R2CError) :
  snd (parseResponse r) = Rejected (ThrowR2C e) <->
  ok r = false /\ exists body, text r = Read body /\ e = http_error r body.
Proof.
  unfold parseResponse. destruct (ok r); cbn [negb].
  - split; [|intros [? _]; discriminate]. repeat case_match; discriminate.
  - cbn. destruct (text r) as [body|what]; split.
    + intros [= <-]. eauto.
    + intros (_ & body' & [= <-] & ->). reflexivity.
    + discriminate.
    + intros (_ & body' & [=] & _).
Qed.

(** [parseResponse] reads the body at most once, and not at all exactly for
    an [ok] response with status 204. It throws an [R2CError] exactly for a
    response that is not [ok] and whose body could be read as text, and then
    that error is the HTTP error of the response with that text. Every other
    failure is the rejection of the one reader it awaited, [response.text()]
    or [response.json()], passed on as it is. *)
Theorem parseResponse_reads_once {T : Type} (r : Response T) :
  (length (fst (parseResponse r)) <= 1)%nat /\
  (fst (parseResponse r) = [] <-> ok r = true /\ status r = 204) /\
  (fst (parseResponse r) = [ReadJson] -> ok r = true) /\
  (forall e, snd (parseResponse r) = Rejected (ThrowR2C e) <->
             ok r = false /\
             exists body,
               text r = Read body /\
               e = {| message := "HTTP Error " +:+ String_of_number (status r) +:+ ": " +:+
                                 (if String.eqb body "" then statusText r else body);
                      err_status := Some (status r);
                      err_headers := Some (headers r);
                      error := Some body |}) /\
  (forall what, snd (parseResponse r) = Rejected (ThrowOther what) <->
                (fst (parseResponse r) = [ReadText] /\ text r = ReadError what) \/
                (fst (parseResponse r) = [ReadJson] /\ json r = ReadError what)).
Proof.
  split; [|split; [|split; [|split]]].
  - unfold parseResponse. repeat case_match; cbn; lia.
  - unfold parseResponse. destruct (ok r); cbn [negb].
    + destruct (Z.eqb_spec (status r) 204) as [Hs|Hs].
      * split; auto.
      * repeat case_match; cbn; (split; [discriminate | intros [_ ?]; contradiction]).
    + cbn. split; [discriminate | intros [? _]; discriminate].
  - unfold parseResponse. destruct (ok r); [reflexivity|]. discriminate.
  - intros e. apply parseResponse_R2CError.
  - intros what. unfold parseResponse. destruct (ok r); cbn [negb].
    + destruct (status r =? 204).
      { cbn. split; [discriminate | intros [[[=] _] | [[=] _]]]. }
      destruct (Headers_get "content-type" (headers r)) as [ct|];
        [destruct (includes "application/json" ct)|]; cbn;
        [destruct (json r) as [v|what'] | destruct (text r) as [v|what']
         | destruct (text r) as [v|what']];
        (split; [intros [=]; subst; auto
                |intros [[[=] [=]] | [[=] [=]]]; subst; reflexivity]).
    + cbn. destruct (text r) as [v|what'];
        (split; [intros [=]; subst; auto
                |intros [[[=] [=]] | [[=] [=]]]; subst; reflexivity]).
Qed.

(** For an [ok] response other than 204 the [content-type] header decides:
    when its value, looked up without regard to the case of the name,
    contains [application/json] anywhere, the body is read as JSON and the
    result is the decoded value; otherwise, and when the header is absent,
    the body is read as text and the result is that text. In both cases
    parsing fails only when the reader rejects, and then with the exception
    of the reader. *)
Theorem parseResponse_content_type {T : Type} (r : Response T) (name : string) :
  ok r = true -> status r <> 204 -> lower name = "content-type" ->
  (forall pre post,
      Headers_get name (headers r) = Some (pre +:+ "application/json" +:+ post) ->
      parseResponse r
      = ([ReadJson], match json r with
                     | Read v => Fulfilled (ParsedJson v)
                     | ReadError what => Rejected (ThrowOther what)
                     end)) /\
  ((Headers_get name (headers r) = None \/
    exists ct, Headers_get name (headers r) = Some ct /\
               forall pre post, ct <> pre +:+ "application/json" +:+ post) ->
   parseResponse r
   = ([ReadText], match text r with
                  | Read s => Fulfilled (ParsedText s)
                  | ReadError what => Rejected (ThrowOther what)
                  end)).
Proof.
  intros Hok Hst Hname.
  assert (Hget : Headers_get name (headers r) = Headers_get "content-type" (headers r)).
  { unfold Headers_get. rewrite Hname. reflexivity. }
  rewrite Hget. unfold parseResponse. rewrite Hok. cbn [negb].
  apply Z.eqb_neq in Hst. rewrite Hst. split.
  - intros pre post ->.
    rewrite (proj2 (includes_spec "application/json" _)) by eauto. reflexivity.
  - intros [-> | (ct & -> & Hno)]; [reflexivity|].
    destruct (includes "application/json" ct) eqn:Hinc; [|reflexivity].
    apply includes_spec in Hinc as (pre & post & ->). exfalso. eapply Hno. reflexivity.
Qed.

Lemma parseResponse_content_type_witness :
  (let r := mkResponse true 200 "OK" [("Content-Type", "application/json; charset=utf-8")]
                       (Read "{}") (Read (JObj [])) in
   parseResponse r = ([ReadJson], Fulfilled (ParsedJson (JObj [])))) /\
  (let r := mkResponse true 200 "OK" [("content-type", "text/plain")]
                       (Read "pong") (@ReadError JSON "SyntaxError") in
   parseResponse r = ([ReadText], Fulfilled (ParsedText "pong"))).
Proof.
  cbn zeta. split.
  - exact (proj1 (parseResponse_content_type
                    (mkResponse true 200 "OK"
                                [("Content-Type", "application/json; charset=utf-8")]
                                (Read "{}") (Read (JObj [])))
                    "CONTENT-TYPE" eq_refl ltac:(discriminate) eq_refl)
                 "" "; charset=utf-8" eq_refl).
  - apply (proj2 (parseResponse_content_type
                    (mkResponse true 200 "OK" [("content-type", "text/plain")]
                                (Read "pong") (@ReadError JSON "SyntaxError"))
                    "Content-Type" eq_refl ltac:(discriminate) eq_refl)).
    right. exists "text/plain". split; [reflexivity|].
    intros pre post H.
    assert (Hinc : includes "application/json" "text/plain" = true).
    { apply includes_spec. eauto. }
    discriminate.
Defined.

(** ** Dispatch *)

(** [makeRequest] calls the transport exactly when authentication
    succeeded, and then once; a failure of authentication or of the
    transport is passed on unchanged. An [R2CError] that it throws is the
    error of authentication, the error the transport rejected with, or the
    HTTP error of a response that is not [ok], made with the text of its
    body. *)
Theorem makeRequest_outcomes {T : Type} (c : APIClient) (auth : Settle StrRecord)
    (answer : Settle (Response T)) (o : RequestOptions) :
  (fst (makeRequest c auth answer o) = None <-> exists e, auth = Rejected e) /\
  (forall e, auth = Rejected e -> snd (makeRequest c auth answer o) = Rejected e) /\
  (forall h e, auth = Fulfilled h -> answer = Rejected e ->
               makeRequest c auth answer o = (Some (fetch_request c h o), Rejected e)) /\
  (forall h r, auth = Fulfilled h -> answer = Fulfilled r ->
               makeRequest c auth answer o
               = (Some (fetch_request c h o), snd (parseResponse r))) /\
  (forall e, snd (makeRequest c auth answer o) = Rejected (ThrowR2C e) ->
             auth = Rejected (ThrowR2C e) \/
             answer = Rejected (ThrowR2C e) \/
             exists r body, answer = Fulfilled r /\ ok r = false /\
                            text r = Read body /\ e = http_error r body).
Proof.
  unfold makeRequest. destruct auth as [h|ea]; cbn.
  - split; [split; [discriminate | intros [e He]; discriminate]|].
    split; [discriminate|]. split; [intros h' e [= <-] ->; reflexivity|].
    split; [intros h' r [= <-] ->; reflexivity|].
    intros e He. right. destruct answer as [r|et].
    + right. apply parseResponse_R2CError in He as (Hok & body & Ht & ->).
      exists r, body. auto.
    + left. injection He as ->. reflexivity.
  - split; [split; eauto|]. split; [intros e [= ->]; reflexivity|].
    split; [discriminate|]. split; [discriminate|].
    intros e [= ->]. left. reflexivity.
Qed.

(** ** Base URL *)

Lemma run_baseURL (tr : list Event) (w : World) :
  baseURL (client (run tr w)) = baseURL (client w).
Proof.
  revert w. induction tr as [|e tr IH]; intros w; [reflexivity|].
  rewrite run_cons, IH. apply step_credentials.
Qed.

(** A client built by the [R2CClient] constructor has the configured base
    URL, or the default one when none or the empty string was given; it is
    never empty and nothing that happens to the client changes it. *)
Theorem R2CClient_baseURL (o : ClientOptions) (c : APIClient) (t0 : Z) (tr : list Event) :
  R2CClient_new o = inr c ->
  let b := baseURL (client (run tr (init_world c t0))) in
  b = match opt_baseURL o with
      | Some u => if String.eqb u "" then default_baseURL else u
      | None => default_baseURL
      end /\
  b <> "".
Proof.
  intros Hnew b. subst b. rewrite run_baseURL. cbn [init_world client].
  rewrite R2CClient_new_cases in Hnew.
  destruct (str_truthy (opt_bearerToken o)), (opt_oauthCredentials o);
    try discriminate; injection Hnew as <-; cbn [baseURL]; unfold str_or;
    (destruct (opt_baseURL o) as [u|]; [destruct (String.eqb_spec u "")|]);
    (split; [reflexivity|]); (assumption || discriminate).
Qed.

Lemma R2CClient_baseURL_witness :
  baseURL (client (run [CallAuthHeaders; Tick 1]
                       (init_world sample_oauth_client 0)))
  = "https://test-api.r2clive.com".
Proof.
  exact (proj1 (R2CClient_baseURL
                  (mkClientOptions None (Some sample_credentials)
                                   (Some "https://test-api.r2clive.com"))
                  sample_oauth_client 0 [CallAuthHeaders; Tick 1] eq_refl)).
Defined.

(** ** Resource methods *)

Lemma object_get_rest (keys : list string) (k : string) (o : JSObject) :
  object_get k (object_rest keys o)
  = if existsb (String.eqb k) keys then None else object_get k o.
Proof.
  unfold object_rest. induction o as [|[k0 v0] o IH]; cbn.
  - destruct (existsb (String.eqb k) keys); reflexivity.
  - destruct (existsb (String.eqb k0) keys) eqn:Hk0; cbn.
    + rewrite IH. destruct (String.eqb_spec k k0) as [->|]; [|reflexivity].
      rewrite Hk0. reflexivity.
    + rewrite IH. destruct (String.eqb_spec k k0) as [->|]; [|reflexivity].
      rewrite Hk0. reflexivity.
Qed.

Lemma existsb_eqb_In (k : string) (keys : list string) :
  existsb (String.eqb k) keys = true <-> In k keys.
Proof.
  rewrite existsb_exists. split.
  - intros (x & Hin & Heq). apply String.eqb_eq in Heq as ->. exact Hin.
  - intros Hin. exists k. split; [exact Hin | apply String.eqb_refl].
Qed.

(** Every resource method that updates or creates sends, with its verb, the
    JSON encoding of an object made of the properties of [params] other
    than the identifiers: the identifiers go into the path and never into
    the body, every other property is sent with its value, and the body is
    sent even when no property is left. *)
Theorem resource_bodies_exclude_identifiers :
  Forall (fun m : string * list string * (JSObject -> option OptionsObject -> RequestOptions) =>
            forall (params : JSObject) (c : APIClient) (auth : StrRecord),
            exists fields,
              body (m.2 params None) = Some (JObj fields) /\
              req_body (fetch_request c auth (m.2 params None))
              = Some (JSON_stringify (JObj fields)) /\
              method (fetch_request c auth (m.2 params None)) = Some m.1.1 /\
              (forall k, In k m.1.2 -> object_get k fields = None) /\
              (forall k, ~ In k m.1.2 -> object_get k fields = object_get k params))
         body_methods.
Proof.
  assert (H : forall keys params,
             (forall k, In k keys -> object_get k (object_rest keys params) = None) /\
             (forall k, ~ In k keys ->
                        object_get k (object_rest keys params) = object_get k params)).
  { intros keys params. split; intros k Hk; rewrite object_get_rest.
    - apply existsb_eqb_In in Hk. rewrite Hk. reflexivity.
    - destruct (existsb (String.eqb k) keys) eqn:He; [|reflexivity].
      apply existsb_eqb_In in He. contradiction. }
  unfold body_methods.
  repeat (apply Forall_cons; split;
          [intros params c auth; eexists;
           split; [reflexivity|]; split; [reflexivity|]; split; [reflexivity|]; apply H|]).
  apply Forall_nil. exact I.
Qed.

Lemma request_url_suffix (c : APIClient) (o : RequestOptions) :
  request_url c o
  = baseURL c +:+ path o +:+
    match query o with
    | None => ""
    | Some q =>
        match query_params q with
        | [] => ""
        | ps => "?" +:+ URLSearchParams_toString ps
        end
    end.
Proof.
  unfold request_url. destruct (query o) as [q|]; [|rewrite append_nil_r; reflexivity].
  destruct (query_params q) as [|kv ps] eqn:Hq; [cbn; rewrite append_nil_r; reflexivity|].
  destruct (String.eqb_spec (URLSearchParams_toString (kv :: ps)) "") as [He|Hne].
  - exfalso. eapply URLSearchParams_toString_nonempty; [|exact He]. discriminate.
  - rewrite append_assoc. reflexivity.
Qed.

(** When a caller passes request options to a resource method, the request
    goes to the path and query of the options: the path that the method
    built from the identifiers is not used. A [method] or [body] key that is
    present in the options replaces the verb or the body of the resource
    method, also when its value is [undefined]; when the key is absent, the
    verb and the body of the resource method are kept. The headers are those
    of the options. *)
Theorem resource_options_replace_path :
  Forall (fun f : JSObject -> option OptionsObject -> RequestOptions =>
            forall (params : JSObject) (o : OptionsObject) (c : APIClient),
              path (f params (Some o)) = given_path o /\
              query (f params (Some o)) = given_query o /\
              request_url c (f params (Some o))
              = baseURL c +:+ given_path o +:+
                match given_query o with
                | None => ""
                | Some q =>
                    match query_params q with
                    | [] => ""
                    | ps => "?" +:+ URLSearchParams_toString ps
                    end
                end /\
              init_headers (init (f params (Some o))) = given_headers o /\
              (forall v, given_body o = Present v -> body (f params (Some o)) = v) /\
              (given_body o = Absent -> body (f params (Some o)) = body (f params None)) /\
              (forall v, given_method o = Present v ->
                         init_method (init (f params (Some o))) = v) /\
              (given_method o = Absent ->
               init_method (init (f params (Some o))) = init_method (init (f params None))))
         options_methods.
Proof.
  unfold options_methods.
  repeat (apply Forall_cons; split;
          [intros params o c; split; [reflexivity|]; split; [reflexivity|];
           split; [rewrite request_url_suffix; reflexivity|]; split; [reflexivity|];
           split; [intros v Hv; cbn; rewrite Hv; reflexivity|];
           split; [intros Hv; cbn; rewrite Hv; reflexivity|];
           split; [intros v Hv; cbn; rewrite Hv; reflexivity
                  |intros Hv; cbn; rewrite Hv; reflexivity]|]).
  apply Forall_nil. exact I.
Qed.



